(** * fractal-seq: scale quantizer, sequence transformations, fractal tree,
      path flattening and step-index resolution

    A shallow embedding of [src/audio/FractalTree.ts] and of the tick path of
    [src/audio/SequencerEngine.ts], with the properties the specification
    states about them.

    Conventions.
    - Pitches, counters and indices are JavaScript numbers holding integers;
      they are [Z].  [Math.floor (a / b)] is [Z.div], the [%] operator is the
      truncated remainder [Z.rem], [Math.round] is the identity.
    - JavaScript numbers are IEEE 754 binary64 values, and a pitch need not be
      an integer (a mutation by the default range 0.3 adds -0.3 or 0.7).
      Where the exact value of a pitch matters, the module [Binary64] repeats
      the data and the pitch arithmetic of [transposeSequence] and
      [invertSequence] over Rocq's primitive [float], operation by operation;
      [double z] is the binary64 value of the integer [z].
    - [Sequence.length], [branchesCount] and array sizes are counts; they are
      [nat].
    - Times (seconds), [pathValue], [divMult] and the results of
      [Math.random ()] are rationals [Q].
    - Arrays are lists, read with stdpp's [!!] and written with [<[i:=x]>].
    - [Math.random ()] is an oracle [random : nat -> Q], the value of its
      [k]-th call; the offsets drawn by [mutateSequence] come from an oracle
      [jitter : nat -> Z].  Functions that draw take the number of draws made
      so far and return the new count.
    - A function that can throw returns an [option]; [None] is the thrown
      [TypeError]. *)

From Stdlib Require Import ZArith QArith Qround Qminmax Lia List Ascii Permutation.
From Stdlib Require Import PrimFloat.
From Stdlib Require Uint63.
From stdpp Require Import base decidable option list.

Local Open Scope Z_scope.

(** * The program *)

(** ** Data model ([src/model/types.ts]) *)

Inductive ScaleName :=
| chromatic | major | minor | major_pentatonic | minor_pentatonic
| harmonic_minor | whole_tone | unquantized.

#[global] Instance ScaleName_eq_dec : EqDecision ScaleName.
Proof. solve_decision. Defined.

Inductive GateLengthKind := trigger | p10 | p25 | p50 | p75 | p90 | tied.

Record Step := {
  pitch : Z;
  gateOn : bool;
  ratchets : Z;
  slew : Q;
  gateLength : GateLengthKind;
  depth : option nat;
  originalIndex : option nat
}.

Module PlaybackOrder.
Inductive t := forward | backward | pendulum | random.
End PlaybackOrder.

Module BranchPlaybackOrder.
Inductive t := forward | reverse | pendulum | random.
End BranchPlaybackOrder.

Module ModificationKind.
Inductive t := transpose | invert | reverse | mutate.
End ModificationKind.

(** [steps] is the stored buffer, [length] the size of its active prefix.
    From here on the length of a list is written [List.length]. *)
Record Sequence := {
  steps : list Step;
  length : nat;
  scale : ScaleName;
  playbackOrder : PlaybackOrder.t
}.

Module BranchConfig.
Record t := {
  left : ModificationKind.t;
  right : ModificationKind.t;
  leftParam : Z;
  rightParam : Z
}.
End BranchConfig.

Module TreeNode.
(** [left] and [right] are [None] while the node has no such child. *)
#[warnings="-register-all"]
Inductive t := Node {
  sequence : Sequence;
  depth : nat;
  modificationFromParent : option ModificationKind.t;
  left : option t;
  right : option t
}.

(** A node as the object literals of the builder create it. *)
Definition fresh (s : Sequence) (d : nat) (m : option ModificationKind.t) : t :=
  Node s d m None None.

(** [node.left = l; node.right = r]. *)
Definition with_children (n : t) (l r : t) : t :=
  Node (sequence n) (depth n) (modificationFromParent n) (Some l) (Some r).

(** The node and all its descendants, parents first. *)
Fixpoint nodes (n : t) : list t :=
  match n with
  | Node _ _ _ l r =>
      n :: match l with Some l' => nodes l' | None => [] end
        ++ match r with Some r' => nodes r' | None => [] end
  end.

Definition children_count (n : t) : nat :=
  match left n with Some _ => 1 | None => 0 end
  + match right n with Some _ => 1 | None => 0 end.
End TreeNode.

Record Pattern := {
  trunk : Sequence;
  branchesCount : nat;
  pathValue : Q;
  mutationAmount : Q;
  rootOffsetSemitones : Z;
  divMult : Q;
  branchConfig : list BranchConfig.t;
  branchPlaybackOrder : BranchPlaybackOrder.t
}.

Record GeneratedTree := {
  root : TreeNode.t;
  maxDepth : nat
}.

Record Channel := {
  currentPatternIndex : nat;
  patterns : list Pattern;
  generatedTree : option GeneratedTree;
  activeSequence : option Sequence
}.

(** [channel.patterns[channel.currentPatternIndex]]; [None] stands for
    [undefined], whose first field access throws. *)
Definition current_pattern (channel : Channel) : option Pattern :=
  patterns channel !! currentPatternIndex channel.

(** ** Scale quantization ([src/audio/FractalTree.ts]) *)

Definition SCALES (scale : ScaleName) : list Z :=
  match scale with
  | chromatic => [0; 1; 2; 3; 4; 5; 6; 7; 8; 9; 10; 11]
  | major => [0; 2; 4; 5; 7; 9; 11]
  | minor => [0; 2; 3; 5; 7; 8; 10]
  | major_pentatonic => [0; 2; 4; 7; 9]
  | minor_pentatonic => [0; 3; 5; 7; 10]
  | harmonic_minor => [0; 2; 3; 5; 7; 8; 11]
  | whole_tone => [0; 2; 4; 6; 8; 10]
  | unquantized => []
  end.

(** [x < bound] where [None] is JavaScript's [Infinity]. *)
Definition lt_inf (x : Z) (bound : option Z) : bool :=
  match bound with
  | None => true
  | Some b => x <? b
  end.

(** One iteration of the nearest-interval loop; the accumulator is
    [(minDiff, nearest)]. *)
Definition nearest_step (normalizedNote : Z) (acc : option Z * Z) (interval : Z)
  : option Z * Z :=
  let diff := Z.abs (normalizedNote - interval) in
  if lt_inf diff (fst acc) then (Some diff, interval) else acc.

(** [intervals[0]] and [intervals[intervals.length - 1]] are [first] and
    [final]; [minDiff] starts at [Infinity]. *)
Definition quantizePitch (pitchSemitones : Z) (scale : ScaleName) : Z :=
  if decide (scale = unquantized) then pitchSemitones else
  match SCALES scale with
  | [] => pitchSemitones
  | (first :: _) as intervals =>
      let octave := pitchSemitones / 12 in
      let note := Z.rem pitchSemitones 12 in
      let normalizedNote := Z.rem (Z.rem note 12 + 12) 12 in
      let found := fold_left (nearest_step normalizedNote) intervals (None, first) in
      let minDiff := fst found in
      let nearest := snd found in
      let diffUpper := Z.abs ((normalizedNote - 12) - first) in
      if lt_inf diffUpper minDiff then (octave + 1) * 12 + first else
      let final := List.last intervals first in
      let diffLower := Z.abs ((normalizedNote + 12) - final) in
      if lt_inf diffLower minDiff then (octave - 1) * 12 + final else
      octave * 12 + nearest
  end.

(** ** Modifications *)

(** The step [s] with its pitch replaced: [s.pitch = p]. *)
Definition with_pitch (s : Step) (p : Z) : Step :=
  {| pitch := p; gateOn := gateOn s; ratchets := ratchets s; slew := slew s;
     gateLength := gateLength s; depth := depth s;
     originalIndex := originalIndex s |}.

(** [s.steps = l]. *)
Definition with_steps (seq : Sequence) (l : list Step) : Sequence :=
  {| steps := l; length := length seq; scale := scale seq;
     playbackOrder := playbackOrder seq |}.

(** [{ ...s }] *)
Definition cloneStep (s : Step) : Step := with_pitch s (pitch s).

Definition cloneSequence (seq : Sequence) : Sequence :=
  with_steps seq (map cloneStep (steps seq)).

(** [newSeq.steps.forEach] visits every stored step, here and in
    [invertSequence] and [mutateSequence]. *)
Definition transposeSequence (seq : Sequence) (semitones : Z) : Sequence :=
  let newSeq := cloneSequence seq in
  with_steps newSeq
    (map (fun step => with_pitch step (pitch step + semitones)) (steps newSeq)).

(** [x > bound] where [None] is [-Infinity]. *)
Definition gt_ninf (x : Z) (bound : option Z) : bool :=
  match bound with
  | None => true
  | Some b => b <? x
  end.

(** One iteration of the first loop of [invertSequence]; the accumulator is
    [(minPitch, maxPitch)]. *)
Definition minmax_step (acc : option Z * option Z) (s : Step)
  : option Z * option Z :=
  let minPitch := if lt_inf (pitch s) (fst acc) then Some (pitch s) else fst acc in
  let maxPitch := if gt_ninf (pitch s) (snd acc) then Some (pitch s) else snd acc in
  (minPitch, maxPitch).

Definition invertSequence (seq : Sequence) : Sequence :=
  let newSeq := cloneSequence seq in
  if (List.length (steps newSeq) =? 0)%nat then newSeq else
  match fold_left minmax_step (steps newSeq) (None, None) with
  | (Some minPitch, Some maxPitch) =>
      with_steps newSeq
        (map (fun s => with_pitch s (maxPitch - (pitch s - minPitch)))
             (steps newSeq))
  | _ => newSeq (* not reached: the buffer is not empty *)
  end.

(** The loop [for (i = 0; i < length; i++) steps[i] = activeSteps[i]].
    When [length] exceeds the buffer, the source stores [undefined] past the
    end of the array; a [list Step] has no such entries and the model leaves
    the list alone there.  Statements about [reverseSequence] therefore assume
    [length <= List.length steps], the invariant of the data model. *)
Definition write_back (activeSteps : list Step) (n : nat) (l : list Step)
  : list Step :=
  fold_left
    (fun acc i => match activeSteps !! i with
                  | Some x => <[i:=x]> acc
                  | None => acc
                  end)
    (List.seq 0 n) l.

Definition reverseSequence (seq : Sequence) : Sequence :=
  let newSeq := cloneSequence seq in
  let activeSteps := rev (firstn (length newSeq) (steps newSeq)) in
  with_steps newSeq (write_back activeSteps (length newSeq) (steps newSeq)).

(** [mutateSequence] draws one offset per step whose gate is on.  The drawn
    value [Math.floor (Math.random () * (range * 2 + 1)) - range] is supplied
    by the oracle [jitter], indexed by the number of draws made so far.
    Pitches being integers here, so are the offsets, as they are in the
    source for every integer [range] (see [integer_jitter]); the fractional
    offsets that a fractional [range] produces are not represented. *)
Section Mutate.
Variable jitter : nat -> Z.

Fixpoint mutate_steps (l : list Step) (k : nat) : list Step * nat :=
  match l with
  | [] => ([], k)
  | step :: rest =>
      if gateOn step then
        let offset := jitter k in
        let r := mutate_steps rest (S k) in
        (with_pitch step (pitch step + offset) :: fst r, snd r)
      else
        let r := mutate_steps rest k in
        (step :: fst r, snd r)
  end.

Definition mutateSequence (seq : Sequence) (range : Q) (k : nat)
  : Sequence * nat :=
  let newSeq := cloneSequence seq in
  if Qeq_bool range 0 then (newSeq, k) else
  let r := mutate_steps (steps newSeq) k in
  (with_steps newSeq (fst r), snd r).
End Mutate.

(** The offset drawn for an integer [range], from the [k]-th value [u] of
    [Math.random ()]. *)
Definition integer_jitter (u : Q) (range : Z) : Z :=
  Qfloor (u * inject_Z (range * 2 + 1)) - range.

(** ** The pitch arithmetic in binary64

    The same records with the pitch as the engine holds it, and the two
    modifications that compute with pitches: [+], [-], [<] and [>] are the
    IEEE 754 operations, [Infinity] and [-Infinity] the IEEE infinities.
    [a > b] is [b < a]. *)
Module Binary64.
Record Step := {
  pitch : float;
  gateOn : bool;
  ratchets : Z;
  slew : Q;
  gateLength : GateLengthKind;
  depth : option nat;
  originalIndex : option nat
}.

Record Sequence := {
  steps : list Step;
  length : nat;
  scale : ScaleName;
  playbackOrder : PlaybackOrder.t
}.

Definition with_pitch (s : Step) (p : float) : Step :=
  {| pitch := p; gateOn := gateOn s; ratchets := ratchets s; slew := slew s;
     gateLength := gateLength s; depth := depth s;
     originalIndex := originalIndex s |}.

Definition with_steps (seq : Sequence) (l : list Step) : Sequence :=
  {| steps := l; length := length seq; scale := scale seq;
     playbackOrder := playbackOrder seq |}.

Definition cloneStep (s : Step) : Step := with_pitch s (pitch s).

Definition cloneSequence (seq : Sequence) : Sequence :=
  with_steps seq (map cloneStep (steps seq)).

(** [step.pitch += semitones] on every stored step. *)
Definition transposeSequence (seq : Sequence) (semitones : float) : Sequence :=
  let newSeq := cloneSequence seq in
  with_steps newSeq
    (map (fun step => with_pitch step (pitch step + semitones)%float)
         (steps newSeq)).

(** One iteration of the first loop of [invertSequence]; the accumulator is
    [(minPitch, maxPitch)]. *)
Definition minmax_step (acc : float * float) (s : Step) : float * float :=
  let minPitch := if (pitch s <? fst acc)%float then pitch s else fst acc in
  let maxPitch := if (snd acc <? pitch s)%float then pitch s else snd acc in
  (minPitch, maxPitch).

Definition invertSequence (seq : Sequence) : Sequence :=
  let newSeq := cloneSequence seq in
  if (List.length (steps newSeq) =? 0)%nat then newSeq else
  let bounds := fold_left minmax_step (steps newSeq) (infinity, neg_infinity) in
  let minPitch := fst bounds in
  let maxPitch := snd bounds in
  with_steps newSeq
    (map (fun s => with_pitch s (maxPitch - (pitch s - minPitch))%float)
         (steps newSeq)).
End Binary64.

(** ** Tree generation *)

Definition default_config : BranchConfig.t :=
  {| BranchConfig.left := ModificationKind.transpose;
     BranchConfig.right := ModificationKind.transpose;
     BranchConfig.leftParam := 7;
     BranchConfig.rightParam := -5 |}.

(** [param || 0.3] *)
Definition or_default_range (param : Z) : Q :=
  if param =? 0 then (3 # 10)%Q else inject_Z param.

Section TreeBuilder.
Variable jitter : nat -> Z.
Variable pattern : Pattern.
(** The [maxDepth] captured by the closure [buildChildren]. *)
Variable maxDepth' : nat.

(** The chain [if (mod === 'transpose') ... else if ... else mutate]. *)
Definition apply_modification
    (kind : ModificationKind.t) (seq : Sequence) (param : Z) (k : nat)
  : Sequence * nat :=
  match kind with
  | ModificationKind.transpose => (transposeSequence seq param, k)
  | ModificationKind.invert => (invertSequence seq, k)
  | ModificationKind.reverse => (reverseSequence seq, k)
  | ModificationKind.mutate =>
      mutateSequence jitter seq (or_default_range param) k
  end.

(** [buildChildren] recurses while [node.depth < maxDepth]; [fuel] bounds
    the recursion and [maxDepth - node.depth] of it is enough
    ([buildChildren_full]).  The source fills [node.left] and [node.right] in
    place; here the node is returned with its children. *)
Fixpoint buildChildren (fuel : nat) (node : TreeNode.t) (k : nat)
  : TreeNode.t * nat :=
  if (maxDepth' <=? TreeNode.depth node)%nat then (node, k) else
  match fuel with
  | O => (node, k)
  | S fuel' =>
      let d := (TreeNode.depth node + 1)%nat in
      let configIndex := (d - 1)%nat in
      let config := default default_config (branchConfig pattern !! configIndex) in
      let leftMod := BranchConfig.left config in
      let rightMod := BranchConfig.right config in
      let l := apply_modification leftMod (TreeNode.sequence node)
                                  (BranchConfig.leftParam config) k in
      let r := apply_modification rightMod (TreeNode.sequence node)
                                  (BranchConfig.rightParam config) (snd l) in
      let builtLeft :=
        buildChildren fuel' (TreeNode.fresh (fst l) d (Some leftMod)) (snd r) in
      let builtRight :=
        buildChildren fuel' (TreeNode.fresh (fst r) d (Some rightMod))
                      (snd builtLeft) in
      (TreeNode.with_children node (fst builtLeft) (fst builtRight),
       snd builtRight)
  end.
End TreeBuilder.

Definition generateTreeForChannel (jitter : nat -> Z) (channel : Channel) (k : nat)
  : option (GeneratedTree * nat) :=
  pattern ← current_pattern channel;
  let trunk := trunk pattern in
  let maxDepth := branchesCount pattern in
  let root := TreeNode.fresh trunk 0 None in
  if (maxDepth =? 0)%nat then Some ({| root := root; maxDepth := maxDepth |}, k) else
  let built := buildChildren jitter pattern maxDepth maxDepth root k in
  Some ({| root := fst built; maxDepth := maxDepth |}, snd built).

(** ** Playback sequence construction *)

(** [n.toString(2)] for an integer [n]. *)
Fixpoint binary_digits (p : positive) : list ascii :=
  match p with
  | xH => ["1"%char]
  | xO q => binary_digits q ++ ["0"%char]
  | xI q => binary_digits q ++ ["1"%char]
  end.

Definition toString2 (n : Z) : list ascii :=
  match n with
  | Z0 => ["0"%char]
  | Zpos p => binary_digits p
  | Zneg p => "-"%char :: binary_digits p
  end.

Definition padStart (s : list ascii) (targetLength : nat) (c : ascii) : list ascii :=
  repeat c (targetLength - List.length s) ++ s.

(** The loop that walks down the tree: [remaining] iterations are left, the
    next one reads [pathBits[i]]. *)
Fixpoint descend (pathBits : list ascii) (i remaining : nat)
    (currentNode : option TreeNode.t) : list TreeNode.t :=
  match remaining with
  | O => []
  | S remaining' =>
      match currentNode with
      | None => []
      | Some node =>
          let next :=
            match pathBits !! i with
            | Some "0"%char => TreeNode.left node
            | _ => TreeNode.right node
            end in
          match next with
          | Some child => child :: descend pathBits (S i) remaining' next
          | None => descend pathBits (S i) remaining' next
          end
      end
  end.

(** [for (let i = l.length - 2; i > 0; i--) out.push(l[i])], entered at [i]. *)
Fixpoint pendulum_tail {A : Type} (l : list A) (i : nat) : list A :=
  match i with
  | O => []
  | S i' => match l !! i with Some x => [x] | None => [] end ++ pendulum_tail l i'
  end.

Definition pendulum_order {A : Type} (l : list A) : list A :=
  l ++ pendulum_tail l (List.length l - 2).

(** [[l[i], l[j]] = [l[j], l[i]]], for indices inside the array. *)
Definition swap {A : Type} (l : list A) (i j : nat) : list A :=
  match l !! i, l !! j with
  | Some x, Some y => <[j:=x]> (<[i:=y]> l)
  | _, _ => l
  end.

Definition with_originalIndex (s : Step) (idx : nat) : Step :=
  {| pitch := pitch s; gateOn := gateOn s; ratchets := ratchets s; slew := slew s;
     gateLength := gateLength s; depth := depth s; originalIndex := Some idx |}.

Definition with_depth (s : Step) (d : nat) : Step :=
  {| pitch := pitch s; gateOn := gateOn s; ratchets := ratchets s; slew := slew s;
     gateLength := gateLength s; depth := Some d;
     originalIndex := originalIndex s |}.

Section Flattener.
(** [random k] is the value of the [k]-th call of [Math.random ()]. *)
Variable random : nat -> Q.

(** [Math.floor (Math.random () * n)] *)
Definition floor_random (k : nat) (n : Z) : Z :=
  Qfloor (random k * inject_Z n).

(** The Fisher-Yates loop [for (i = l.length - 1; i > 0; i--)], entered at [i]. *)
Fixpoint shuffle_from {A : Type} (i : nat) (l : list A) (k : nat) : list A * nat :=
  match i with
  | O => (l, k)
  | S i' =>
      let j := Z.to_nat (floor_random k (Z.of_nat (i + 1))) in
      shuffle_from i' (swap l i j) (S k)
  end.

Definition shuffle {A : Type} (l : list A) (k : nat) : list A * nat :=
  shuffle_from (List.length l - 1) l k.

(** The body of [orderedNodes.forEach]: the tagged, ordered steps of a node. *)
Definition node_steps (seqOrder : PlaybackOrder.t) (node : TreeNode.t) (k : nat)
  : list Step * nat :=
  let seq := TreeNode.sequence node in
  let tagged := imap (fun idx s => with_originalIndex s idx)
                     (firstn (length seq) (steps seq)) in
  let ordered :=
    match seqOrder with
    | PlaybackOrder.forward => (tagged, k)
    | PlaybackOrder.backward => (rev tagged, k)
    | PlaybackOrder.pendulum => (pendulum_order tagged, k)
    | PlaybackOrder.random => shuffle tagged k
    end in
  (map (fun s => with_depth s (TreeNode.depth node)) (fst ordered), snd ordered).

Fixpoint collect_steps (seqOrder : PlaybackOrder.t) (orderedNodes : list TreeNode.t)
    (k : nat) : list Step * nat :=
  match orderedNodes with
  | [] => ([], k)
  | node :: rest =>
      let here := node_steps seqOrder node k in
      let later := collect_steps seqOrder rest (snd here) in
      (fst here ++ fst later, snd later)
  end.

Definition buildPlaybackSequence (channel : Channel) (k : nat)
  : option (Sequence * nat) :=
  pattern ← current_pattern channel;
  match generatedTree channel with
  | None => Some (trunk pattern, k)
  | Some tree =>
      let branchesCount := branchesCount pattern in
      let maxPaths := 2 ^ Z.of_nat branchesCount in
      let effectivePathValue := pathValue pattern in
      let pathIndex :=
        Qfloor (effectivePathValue * (inject_Z maxPaths - (1 # 10000))) in
      let pathBits := padStart (toString2 pathIndex) branchesCount "0"%char in
      let pathNodes :=
        root tree :: descend pathBits 0 branchesCount (Some (root tree)) in
      let orderedNodes :=
        match branchPlaybackOrder pattern with
        | BranchPlaybackOrder.forward => (pathNodes, k)
        | BranchPlaybackOrder.reverse => (rev pathNodes, k)
        | BranchPlaybackOrder.pendulum => (pendulum_order pathNodes, k)
        | BranchPlaybackOrder.random => shuffle pathNodes k
        end in
      let seqOrder := playbackOrder (trunk pattern) in
      let collected := collect_steps seqOrder (fst orderedNodes) (snd orderedNodes) in
      Some ({| steps := fst collected;
               length := List.length (fst collected);
               scale := scale (trunk pattern);
               playbackOrder := PlaybackOrder.forward |},
            snd collected)
  end.
End Flattener.

(** ** Step scheduler ([src/audio/SequencerEngine.ts]) *)

Record ChannelState := {
  currentBaseStep : Z;
  currentRatchetCount : Z;
  nextNoteTime : Q;
  lastTriggeredStepIndex : Z
}.

(** What the tick reads from the engine: the [ratchetsEnabled] flag, whether
    notes go to a selected MIDI output, and
    [Tone.Transport.toSeconds ("4n")]. *)
Record Engine := {
  ratchetsEnabled : bool;
  midiSelected : bool;
  quarterTime : Q
}.

(** The calls made on the sinks. *)
Inductive Trigger :=
| MidiNote (midiNote : Z) (durationMs : Q) (scheduleTime : Q)
| SynthNote (midiPitch : Z) (duration : Q) (scheduleTime : Q).

Section Scheduler.
Variable random : nat -> Q.

Definition getStepIndexAtTick (seq : Sequence) (baseStepIndex : Z) (k : nat)
  : Z * nat :=
  let len := Z.of_nat (length seq) in
  if len =? 0 then (0, k) else
  match playbackOrder seq with
  | PlaybackOrder.forward => (Z.rem baseStepIndex len, k)
  | PlaybackOrder.backward => ((len - 1) - Z.rem baseStepIndex len, k)
  | PlaybackOrder.pendulum =>
      if len <=? 1 then (0, k) else
      let cycle := 2 * len - 2 in
      let pos := Z.rem baseStepIndex cycle in
      (if pos <? len then pos else cycle - pos, k)
  | PlaybackOrder.random => (floor_random random k len, S k)
  end.

(** [sequence.steps[stepIndex]] *)
Definition step_at (seq : Sequence) (stepIndex : Z) : option Step :=
  if stepIndex <? 0 then None else steps seq !! Z.to_nat stepIndex.

(** [channel.activeSequence || buildPlaybackSequence (channel)] *)
Definition playing_sequence (channel : Channel) (k : nat) : option (Sequence * nat) :=
  match activeSequence channel with
  | Some seq => Some (seq, k)
  | None => buildPlaybackSequence random channel k
  end.

Definition gate_duration (gate : GateLengthKind) (ratchetDuration : Q) : Q :=
  match gate with
  | tied => ratchetDuration
  | trigger => (6 # 1000)%Q
  | p10 => (ratchetDuration * (1 # 10))%Q
  | p25 => (ratchetDuration * (1 # 4))%Q
  | p50 => (ratchetDuration * (1 # 2))%Q
  | p75 => (ratchetDuration * (3 # 4))%Q
  | p90 => (ratchetDuration * (9 # 10))%Q
  end.

(** One tick for the channel.  The result is the new tick state, the triggers
    sent and the number of random draws; [None] is a thrown [TypeError].
    Durations are exact rationals (a zero [divMult] or [ratchets] divides to
    [0] here, to [Infinity] in the source). *)
Definition processChannel (engine : Engine) (channel : Channel) (time : Q)
    (channelState : ChannelState) (k : nat)
  : option (ChannelState * list Trigger * nat) :=
  '(sequence, k1) ← playing_sequence channel k;
  if (length sequence =? 0)%nat then Some (channelState, [], k1) else
  if Qlt_le_dec (time + (1 # 10)) (nextNoteTime channelState)
  then Some (channelState, [], k1) else
  let nextNoteTime0 :=
    if Qeq_bool (nextNoteTime channelState) 0 then time
    else nextNoteTime channelState in
  let '(stepIndex, k2) :=
    getStepIndexAtTick sequence (currentBaseStep channelState) k1 in
  match step_at sequence stepIndex with
  | None =>
      Some ({| currentBaseStep := 0;
               currentRatchetCount := currentRatchetCount channelState;
               nextNoteTime := nextNoteTime0;
               lastTriggeredStepIndex := lastTriggeredStepIndex channelState |},
            [], k2)
  | Some step =>
      pattern ← current_pattern channel;
      let sixteenthTime := (quarterTime engine / 4)%Q in
      let stepDuration := (sixteenthTime / divMult pattern)%Q in
      let ratchets := if ratchetsEnabled engine then ratchets step else 1 in
      let ratchetDuration := (stepDuration / inject_Z ratchets)%Q in
      let scheduleTime := nextNoteTime0 in
      let pitch := quantizePitch (pitch step) (scale sequence)
                   + rootOffsetSemitones pattern + 60 in
      let duration := gate_duration (gateLength step) ratchetDuration in
      let triggers :=
        if gateOn step then
          if midiSelected engine
          then [MidiNote pitch (duration * 1000)%Q scheduleTime]
          else [SynthNote pitch duration scheduleTime]
        else [] in
      let lastTriggered :=
        if gateOn step then stepIndex else lastTriggeredStepIndex channelState in
      let ratchetCount := currentRatchetCount channelState + 1 in
      let advance := ratchets <=? ratchetCount in
      Some ({| currentBaseStep :=
                 if advance then currentBaseStep channelState + 1
                 else currentBaseStep channelState;
               currentRatchetCount := if advance then 0 else ratchetCount;
               nextNoteTime := (nextNoteTime0 + ratchetDuration)%Q;
               lastTriggeredStepIndex := lastTriggered |},
            triggers, k2)
  end.
End Scheduler.

(** ** The rest of [FractalTree.ts] *)

Definition getEffectivePathValue (pattern : Pattern) : Q := pathValue pattern.

(** The path selection of [buildPlaybackSequence], under names of its own:
    [pathIndex], [pathBits] and [pathNodes] ([playback_path_nodes] shows they
    are the ones the function uses). *)
Definition path_index (pattern : Pattern) : Z :=
  let maxPaths := 2 ^ Z.of_nat (branchesCount pattern) in
  Qfloor (getEffectivePathValue pattern * (inject_Z maxPaths - (1 # 10000))).

Definition path_bits (pattern : Pattern) : list ascii :=
  padStart (toString2 (path_index pattern)) (branchesCount pattern) "0"%char.

Definition path_nodes (tree : GeneratedTree) (pattern : Pattern)
  : list TreeNode.t :=
  root tree
  :: descend (path_bits pattern) 0 (branchesCount pattern) (Some (root tree)).

(** [pattern.trunk = t] *)
Definition with_trunk (pattern : Pattern) (t : Sequence) : Pattern :=
  {| trunk := t; branchesCount := branchesCount pattern;
     pathValue := pathValue pattern; mutationAmount := mutationAmount pattern;
     rootOffsetSemitones := rootOffsetSemitones pattern;
     divMult := divMult pattern; branchConfig := branchConfig pattern;
     branchPlaybackOrder := branchPlaybackOrder pattern |}.

Definition applyMutationToTrunk (jitter : nat -> Z) (pattern : Pattern) (k : nat)
  : Pattern * nat :=
  let mutated := mutateSequence jitter (trunk pattern) (mutationAmount pattern) k in
  (with_trunk pattern (fst mutated), snd mutated).

(** ** The rest of [SequencerEngine.ts] *)

(** The part of [stop] that resets the tick state. *)
Definition stop (channelState : ChannelState) : ChannelState :=
  {| currentBaseStep := 0; currentRatchetCount := 0; nextNoteTime := 0%Q;
     lastTriggeredStepIndex := -1 |}.

Definition getCurrentStepIndex (channelState : ChannelState) : Z :=
  lastTriggeredStepIndex channelState.

(** The room size [setReverbDecay] stores:
    [Math.min (0.99, Math.max (0, decay / 10))]. *)
Definition setReverbDecay (decay : Q) : Q :=
  Qmin (99 # 100) (Qmax 0 (decay / 10)).

(** ** Initial state ([src/model/initialState.ts]) *)

(** [a > b] on numbers. *)
Definition Qgtb (a b : Q) : bool := negb (Qle_bool a b).

Definition createDefaultStep : Step :=
  {| pitch := 0; gateOn := false; ratchets := 1; slew := 0%Q;
     gateLength := p50; depth := None; originalIndex := None |}.

Definition createDefaultSequence : Sequence :=
  {| steps := repeat createDefaultStep 32; length := 8; scale := chromatic;
     playbackOrder := PlaybackOrder.forward |}.

Definition createDefaultPattern : Pattern :=
  {| trunk := {| steps := steps createDefaultSequence;
                 length := length createDefaultSequence;
                 scale := minor;
                 playbackOrder := playbackOrder createDefaultSequence |};
     branchesCount := 0; pathValue := 0%Q; mutationAmount := 0%Q;
     rootOffsetSemitones := 0; divMult := 1%Q;
     branchConfig :=
       [ {| BranchConfig.left := ModificationKind.transpose;
            BranchConfig.right := ModificationKind.transpose;
            BranchConfig.leftParam := 3; BranchConfig.rightParam := -3 |};
         {| BranchConfig.left := ModificationKind.invert;
            BranchConfig.right := ModificationKind.transpose;
            BranchConfig.leftParam := 0; BranchConfig.rightParam := 7 |};
         {| BranchConfig.left := ModificationKind.mutate;
            BranchConfig.right := ModificationKind.invert;
            BranchConfig.leftParam := 3; BranchConfig.rightParam := 0 |} ];
     branchPlaybackOrder := BranchPlaybackOrder.forward |}.

Section InitialState.
Variable random : nat -> Q.

(** The callback of [Array.from] in [createRandomTrunk]: three draws, for
    [isNote], the pitch and the gate length. *)
Definition random_trunk_step (k : nat) : Step * nat :=
  let isNote := Qgtb (random k) (6 # 10) in
  ({| pitch := floor_random random (k + 1) 24 - 12;
      gateOn := isNote;
      ratchets := 1;
      slew := 0%Q;
      gateLength := if Qgtb (random (k + 2)) (8 # 10) then p90 else p50;
      depth := None; originalIndex := None |},
   (k + 3)%nat).

(** [Array.from ({ length: n }, f)] for a callback [f] that draws. *)
Fixpoint array_from (f : nat -> Step * nat) (n : nat) (k : nat)
  : list Step * nat :=
  match n with
  | O => ([], k)
  | S n' =>
      let here := f k in
      let later := array_from f n' (snd here) in
      (fst here :: fst later, snd later)
  end.

Definition createRandomTrunk (k : nat) : Sequence * nat :=
  let drawn := array_from random_trunk_step 32 k in
  ({| steps := fst drawn; length := 8; scale := minor;
      playbackOrder := PlaybackOrder.forward |},
   snd drawn).

(** [createChannel]; the channel's [id] is not part of [Channel] here. *)
Definition createChannel (randomizeFirst : bool) (k : nat) : Channel * nat :=
  let patterns := repeat createDefaultPattern 8 in
  let randomized :=
    if randomizeFirst then
      let t := createRandomTrunk k in
      (match patterns !! 0%nat with
       | Some first => <[0%nat := with_trunk first (fst t)]> patterns
       | None => patterns
       end, snd t)
    else (patterns, k) in
  ({| currentPatternIndex := 0; patterns := fst randomized;
      generatedTree := None; activeSequence := None |},
   snd randomized).
End InitialState.

(** ** The edit path of the application ([src/unnamed/part_001]) *)

(** [seq.length = n] *)
Definition with_length (seq : Sequence) (n : nat) : Sequence :=
  {| steps := steps seq; length := n; scale := scale seq;
     playbackOrder := playbackOrder seq |}.

(** [this.pattern] is [channel.patterns[channel.currentPatternIndex]]; an
    assignment to one of its fields updates that entry. *)
Definition with_current_pattern (channel : Channel) (pattern : Pattern) : Channel :=
  {| currentPatternIndex := currentPatternIndex channel;
     patterns := <[currentPatternIndex channel := pattern]> (patterns channel);
     generatedTree := generatedTree channel;
     activeSequence := activeSequence channel |}.

(** [Math.max (1, Math.min (32, len))] *)
Definition clamp_length (len : Z) : Z := Z.max 1 (Z.min 32 len).

Section EditPath.
Variable jitter : nat -> Z.
Variable random : nat -> Q.

Definition updateActiveSequence (channel : Channel) (k : nat)
  : option (Channel * nat) :=
  '(seq, k') ← buildPlaybackSequence random channel k;
  Some ({| currentPatternIndex := currentPatternIndex channel;
           patterns := patterns channel;
           generatedTree := generatedTree channel;
           activeSequence := Some seq |}, k').

(** [kj] counts the draws of the tree builder, [k] those of the flattener. *)
Definition regenerateTree (channel : Channel) (kj k : nat)
  : option (Channel * nat * nat) :=
  '(tree, kj') ← generateTreeForChannel jitter channel kj;
  '(channel', k') ←
    updateActiveSequence
      {| currentPatternIndex := currentPatternIndex channel;
         patterns := patterns channel;
         generatedTree := Some tree;
         activeSequence := activeSequence channel |} k;
  Some (channel', kj', k').

(** The [change] handler of the length input, for a parsed integer [len]. *)
Definition onLengthChange (channel : Channel) (len : Z) (kj k : nat)
  : option (Channel * nat * nat) :=
  pattern ← current_pattern channel;
  let trunk' := with_length (trunk pattern) (Z.to_nat (clamp_length len)) in
  regenerateTree (with_current_pattern channel (with_trunk pattern trunk')) kj k.

(** The loop of [randomizeTrunk] over the first [n] steps: three draws per
    step, for the gate, the pitch and the ratchets.  A missing step throws. *)
Fixpoint randomize_steps (l : list Step) (n : nat) (k : nat)
  : option (list Step * nat) :=
  match n with
  | O => Some (l, k)
  | S n' =>
      match l with
      | [] => None
      | step :: rest =>
          let step' :=
            {| pitch := floor_random random (k + 1) 25 - 12;
               gateOn := Qgtb (random k) (1 # 2);
               ratchets := if Qgtb (random (k + 2)) (8 # 10) then 2 else 1;
               slew := slew step; gateLength := gateLength step;
               depth := depth step; originalIndex := originalIndex step |} in
          '(rest', k') ← randomize_steps rest n' (k + 3);
          Some (step' :: rest', k')
      end
  end.

Definition randomizeTrunk (channel : Channel) (kj k : nat)
  : option (Channel * nat * nat) :=
  pattern ← current_pattern channel;
  '(steps', k') ← randomize_steps (steps (trunk pattern)) (length (trunk pattern)) k;
  regenerateTree
    (with_current_pattern channel
       (with_trunk pattern (with_steps (trunk pattern) steps')))
    kj k'.
End EditPath.

(** * Vocabulary of the properties *)

(** The fields of a step that are not its pitch. *)
Definition same_but_pitch (a b : Step) : Prop :=
  gateOn a = gateOn b /\ ratchets a = ratchets b /\ slew a = slew b /\
  gateLength a = gateLength b /\ depth a = depth b /\
  originalIndex a = originalIndex b.

(** Same [length], [scale], [playbackOrder] and buffer size. *)
Definition same_frame (a b : Sequence) : Prop :=
  length b = length a /\ scale b = scale a /\
  playbackOrder b = playbackOrder a /\
  List.length (steps b) = List.length (steps a).

(** Minimum and maximum pitch over the whole stored buffer [s :: rest]. *)
Definition buffer_min (s : Step) (rest : list Step) : Z :=
  fold_left Z.min (map pitch rest) (pitch s).
Definition buffer_max (s : Step) (rest : list Step) : Z :=
  fold_left Z.max (map pitch rest) (pitch s).

(** The mirror [max - (pitch - min)]. *)
Definition mirror (lo hi : Z) (s : Step) : Step :=
  with_pitch s (hi - (pitch s - lo)).

(** How [mutateSequence] relates a stored step to its image: untouched when
    the gate is off, shifted by one of the drawn offsets when it is on. *)
Definition jittered (jitter : nat -> Z) (a b : Step) : Prop :=
  if gateOn a then exists j, b = with_pitch a (pitch a + jitter j) else b = a.

(** [full P d h t]: [t] sits at depth [d], is a complete binary tree of height
    [h] whose children are one level deeper, and all its nodes satisfy [P]. *)
Fixpoint full (P : TreeNode.t -> Prop) (d h : nat) (t : TreeNode.t) : Prop :=
  TreeNode.depth t = d /\ P t /\
  match h with
  | O => TreeNode.left t = None /\ TreeNode.right t = None
  | S h' =>
      exists l r, TreeNode.left t = Some l /\ TreeNode.right t = Some r /\
                  full P (S d) h' l /\ full P (S d) h' r
  end.

(** What the claim says of each node: it lies within the depth bound, has two
    children above the last level and none on it. *)
Definition node_complete (maxDepth : nat) (n : TreeNode.t) : Prop :=
  (TreeNode.depth n <= maxDepth)%nat /\
  ((TreeNode.depth n < maxDepth)%nat -> TreeNode.children_count n = 2%nat) /\
  (TreeNode.depth n = maxDepth -> TreeNode.children_count n = 0%nat).

(** A pendulum over [n] items plays them all, then the inner ones backwards. *)
Definition pendulum_size (n : nat) : nat := n + (n - 2).

Definition branch_visits (order : BranchPlaybackOrder.t) (n : nat) : nat :=
  match order with
  | BranchPlaybackOrder.pendulum => pendulum_size n
  | _ => n
  end.

Definition step_visits (order : PlaybackOrder.t) (n : nat) : nat :=
  match order with
  | PlaybackOrder.pendulum => pendulum_size n
  | _ => n
  end.

(** The number of steps [slice (0, length)] takes from a node. *)
Definition active_count (node : TreeNode.t) : nat :=
  List.length (firstn (length (TreeNode.sequence node))
                      (steps (TreeNode.sequence node))).

(** The invariant of the tree's sequences: the frame of the trunk. *)
Definition trunk_framed (trunk : Sequence) (seq : Sequence) : Prop :=
  same_frame trunk seq.

(** The number of steps of a buffer whose gate is on. *)
Definition gated_count (l : list Step) : nat :=
  List.length (List.filter gateOn l).

(** The recipe that governs the children of a node at depth [d]. *)
Definition recipe_at (pattern : Pattern) (d : nat) : BranchConfig.t :=
  default default_config (branchConfig pattern !! d).

(** [child] was derived from [parent] by the modification [kind]. *)
Definition child_of_recipe (jitter : nat -> Z) (kind : ModificationKind.t)
    (param : Z) (parent child : TreeNode.t) : Prop :=
  TreeNode.depth child = S (TreeNode.depth parent) /\
  TreeNode.modificationFromParent child = Some kind /\
  exists k, TreeNode.sequence child
            = fst (apply_modification jitter kind (TreeNode.sequence parent) param k).

(** A node has no child, or both, each derived by its side of the recipe. *)
Definition follows_recipe (jitter : nat -> Z) (pattern : Pattern)
    (n : TreeNode.t) : Prop :=
  match TreeNode.left n, TreeNode.right n with
  | Some l, Some r =>
      let config := recipe_at pattern (TreeNode.depth n) in
      child_of_recipe jitter (BranchConfig.left config)
                      (BranchConfig.leftParam config) n l /\
      child_of_recipe jitter (BranchConfig.right config)
                      (BranchConfig.rightParam config) n r
  | None, None => True
  | _, _ => False
  end.

(** The character of a binary digit. *)
Definition bit_char (b : bool) : ascii := if b then "1"%char else "0"%char.

Definition is_child (parent child : TreeNode.t) : Prop :=
  TreeNode.left parent = Some child \/ TreeNode.right parent = Some child.

(** Each node of [l] is a child of the one before it, the first of [t]. *)
Fixpoint chain (t : TreeNode.t) (l : list TreeNode.t) : Prop :=
  match l with
  | [] => True
  | c :: l' => is_child t c /\ chain c l'
  end.

(** The active steps of a node as the flattener tags them, in stored order. *)
Definition node_block (node : TreeNode.t) : list Step :=
  map (fun s => with_depth s (TreeNode.depth node))
      (imap (fun idx s => with_originalIndex s idx)
            (firstn (length (TreeNode.sequence node))
                    (steps (TreeNode.sequence node)))).

(** [st] is the active step [i] of [node], tagged with its index and the
    node's depth. *)
Definition from_node (node : TreeNode.t) (st : Step) : Prop :=
  exists i s,
    firstn (length (TreeNode.sequence node)) (steps (TreeNode.sequence node)) !! i
    = Some s /\
    st = with_depth (with_originalIndex s i) (TreeNode.depth node).

(** [seq] read in the order [order]. *)
Definition with_playbackOrder (seq : Sequence) (order : PlaybackOrder.t) : Sequence :=
  {| steps := steps seq; length := length seq; scale := scale seq;
     playbackOrder := order |}.

(** The MIDI pitch, the start and the length (in seconds) of a trigger. *)
Definition trigger_pitch (t : Trigger) : Z :=
  match t with MidiNote p _ _ => p | SynthNote p _ _ => p end.

Definition trigger_time (t : Trigger) : Q :=
  match t with MidiNote _ _ at_time => at_time | SynthNote _ _ at_time => at_time end.

Definition trigger_duration (t : Trigger) : Q :=
  match t with
  | MidiNote _ durationMs _ => (durationMs / 1000)%Q
  | SynthNote _ duration _ => duration
  end.

(** [channel.generatedTree = tree] *)
Definition with_tree (channel : Channel) (tree : GeneratedTree) : Channel :=
  {| currentPatternIndex := currentPatternIndex channel;
     patterns := patterns channel;
     generatedTree := Some tree;
     activeSequence := activeSequence channel |}.

(** What [randomizeTrunk] makes of a step: pitch in [[-12, 12]], one or two
    ratchets, the remaining fields but the gate as before. *)
Definition randomized (a b : Step) : Prop :=
  -12 <= pitch b <= 12 /\ (ratchets b = 1 \/ ratchets b = 2) /\
  slew b = slew a /\ gateLength b = gateLength a /\
  depth b = depth a /\ originalIndex b = originalIndex a.

(** [ratchetDuration]: a sixteenth, divided by [divMult] and by the number of
    ratchets in effect. *)
Definition sub_step_duration (engine : Engine) (pattern : Pattern) (step : Step)
  : Q :=
  (quarterTime engine / 4 / divMult pattern
   / inject_Z (if ratchetsEnabled engine then ratchets step else 1))%Q.

(** The ways a tick can end: it returns early, it finds no step and rewinds,
    or it plays the step [step] found at [stepIndex]. *)
Inductive tick_result (random : nat -> Q) (engine : Engine) (channel : Channel)
    (time : Q) (before : ChannelState) (k : nat)
  : ChannelState -> list Trigger -> nat -> Prop :=
| tick_skipped (sequence : Sequence) (k1 : nat) :
    playing_sequence random channel k = Some (sequence, k1) ->
    length sequence = 0%nat \/ (time + (1 # 10) < nextNoteTime before)%Q ->
    tick_result random engine channel time before k before [] k1
| tick_rewound (sequence : Sequence) (k1 : nat) (stepIndex : Z) (k2 : nat) :
    playing_sequence random channel k = Some (sequence, k1) ->
    (nextNoteTime before <= time + (1 # 10))%Q ->
    length sequence <> 0%nat ->
    getStepIndexAtTick random sequence (currentBaseStep before) k1
    = (stepIndex, k2) ->
    step_at sequence stepIndex = None ->
    tick_result random engine channel time before k
      {| currentBaseStep := 0;
         currentRatchetCount := currentRatchetCount before;
         nextNoteTime := if Qeq_bool (nextNoteTime before) 0 then time
                         else nextNoteTime before;
         lastTriggeredStepIndex := lastTriggeredStepIndex before |}
      [] k2
| tick_played (sequence : Sequence) (k1 : nat) (stepIndex : Z) (k2 : nat)
    (step : Step) (pattern : Pattern) :
    playing_sequence random channel k = Some (sequence, k1) ->
    (nextNoteTime before <= time + (1 # 10))%Q ->
    length sequence <> 0%nat ->
    getStepIndexAtTick random sequence (currentBaseStep before) k1
    = (stepIndex, k2) ->
    step_at sequence stepIndex = Some step ->
    current_pattern channel = Some pattern ->
    let scheduleTime := if Qeq_bool (nextNoteTime before) 0 then time
                        else nextNoteTime before in
    let ratchets := if ratchetsEnabled engine then ratchets step else 1 in
    let ratchetDuration :=
      (quarterTime engine / 4 / divMult pattern / inject_Z ratchets)%Q in
    let pitch := quantizePitch (pitch step) (scale sequence)
                 + rootOffsetSemitones pattern + 60 in
    let duration := gate_duration (gateLength step) ratchetDuration in
    let advance := ratchets <=? currentRatchetCount before + 1 in
    tick_result random engine channel time before k
      {| currentBaseStep := if advance then currentBaseStep before + 1
                            else currentBaseStep before;
         currentRatchetCount := if advance then 0
                                else currentRatchetCount before + 1;
         nextNoteTime := (scheduleTime + ratchetDuration)%Q;
         lastTriggeredStepIndex := if gateOn step then stepIndex
                                   else lastTriggeredStepIndex before |}
      (if gateOn step then
         if midiSelected engine
         then [MidiNote pitch (duration * 1000)%Q scheduleTime]
         else [SynthNote pitch duration scheduleTime]
       else [])
      k2.

(** ** Integers among the doubles *)

(** The binary64 value of the integer [z] (exact below [2 ^ 53]); [double 0]
    is [+0]. *)
Definition double (z : Z) : float :=
  if z <? 0 then (- of_uint63 (Uint63.of_Z (- z)))%float
  else of_uint63 (Uint63.of_Z z).

(** A step and a sequence of the integer model as the engine stores them. *)
Definition double_step (s : Step) : Binary64.Step :=
  {| Binary64.pitch := double (pitch s); Binary64.gateOn := gateOn s;
     Binary64.ratchets := ratchets s; Binary64.slew := slew s;
     Binary64.gateLength := gateLength s; Binary64.depth := depth s;
     Binary64.originalIndex := originalIndex s |}.

Definition double_sequence (seq : Sequence) : Binary64.Sequence :=
  {| Binary64.steps := map double_step (steps seq);
     Binary64.length := length seq; Binary64.scale := scale seq;
     Binary64.playbackOrder := playbackOrder seq |}.

(** [z] lies between [- r] and [r]. *)
Definition within (r z : Z) : Prop := - r <= z <= r.

Definition pitches_within (r : Z) (l : list Step) : Prop :=
  Forall (fun s => within r (pitch s)) l.

(** The pitch of the stored step is an integer between [- r] and [r]. *)
Definition integer_pitch (r : Z) (s : Binary64.Step) : Prop :=
  exists z, within r z /\ Binary64.pitch s = double z.

(** The integers [from], [from + 1], ..., [n] of them. *)
Fixpoint upto (n : nat) (from : Z) : list Z :=
  match n with
  | O => []
  | S n' => from :: upto n' (from + 1)
  end.

(** The values of [f] on [rows] times [cols]. *)
Definition table {A : Type} (rows cols : list Z) (f : Z -> Z -> A)
  : list (list A) :=
  map (fun a => map (f a) cols) rows.

(** * Sample data *)

(** A step as [createDefaultStep] builds it, with the given pitch and gate. *)
Definition plain_step (p : Z) (g : bool) : Step :=
  {| pitch := p; gateOn := g; ratchets := 1; slew := 0%Q; gateLength := p50;
     depth := None; originalIndex := None |}.

(** Three stored steps, the first two active. *)
Definition short_sequence (third : Z) : Sequence :=
  {| steps := [plain_step 0 true; plain_step 4 true; plain_step third true];
     length := 2; scale := minor; playbackOrder := PlaybackOrder.forward |}.

Definition three_step_trunk (order : PlaybackOrder.t) : Sequence :=
  {| steps := [plain_step 0 true; plain_step 4 false; plain_step 7 true];
     length := 3; scale := minor; playbackOrder := order |}.

(** A pattern with the defaults of [createDefaultPattern] around the given
    trunk, depth, branch order and branch recipes. *)
Definition pattern_of (trunk : Sequence) (branches : nat)
    (branchOrder : BranchPlaybackOrder.t) (config : list BranchConfig.t)
  : Pattern :=
  {| trunk := trunk; branchesCount := branches;
     pathValue := 0%Q; mutationAmount := 0%Q; rootOffsetSemitones := 0;
     divMult := 1%Q; branchConfig := config;
     branchPlaybackOrder := branchOrder |}.

Definition example_pattern (branches : nat) (branchOrder : BranchPlaybackOrder.t)
    (stepOrder : PlaybackOrder.t) : Pattern :=
  pattern_of (three_step_trunk stepOrder) branches branchOrder [].

(** The trunk of the specification's playback scenario: C, rest, E, rest. *)
Definition scenario_trunk : Sequence :=
  {| steps := [plain_step 0 true; plain_step 0 false; plain_step 4 true;
               plain_step 0 false];
     length := 4; scale := major; playbackOrder := PlaybackOrder.forward |}.

Definition channel_of (pattern : Pattern) (tree : option GeneratedTree)
    (active : option Sequence) : Channel :=
  {| currentPatternIndex := 0; patterns := [pattern];
     generatedTree := tree; activeSequence := active |}.

(** The channel after [regenerateTree]'s first assignment:
    [channel.generatedTree = generateTreeForChannel (channel)]. *)
Definition regenerated (jitter : nat -> Z) (pattern : Pattern) : Channel :=
  channel_of pattern
    (fst <$> generateTreeForChannel jitter (channel_of pattern None None) 0)
    None.

(** The [length] of the flattened sequence, if it is built. *)
Definition playback_length (random : nat -> Q) (channel : Channel) : option nat :=
  (fun r => length (fst r)) <$> buildPlaybackSequence random channel 0.

Definition four_step_pendulum : Sequence :=
  {| steps := [plain_step 0 true; plain_step 2 true; plain_step 4 true;
               plain_step 5 true];
     length := 4; scale := major; playbackOrder := PlaybackOrder.pendulum |}.

Definition empty_sequence : Sequence :=
  {| steps := []; length := 0; scale := minor;
     playbackOrder := PlaybackOrder.forward |}.

Definition stopped : ChannelState :=
  {| currentBaseStep := 0; currentRatchetCount := 0; nextNoteTime := 0%Q;
     lastTriggeredStepIndex := -1 |}.

(** A two-level pattern over the scenario trunk, read along the path chosen
    by [path]. *)
Definition path_pattern (path : Q) : Pattern :=
  {| trunk := scenario_trunk; branchesCount := 2;
     pathValue := path; mutationAmount := 0%Q; rootOffsetSemitones := 0;
     divMult := 1%Q;
     branchConfig :=
       [ {| BranchConfig.left := ModificationKind.transpose;
            BranchConfig.right := ModificationKind.transpose;
            BranchConfig.leftParam := 3; BranchConfig.rightParam := -3 |} ];
     branchPlaybackOrder := BranchPlaybackOrder.forward |}.

(** 120 BPM, internal synth, ratchets off. *)
Definition sample_engine : Engine :=
  {| ratchetsEnabled := false; midiSelected := false; quarterTime := (1 # 2)%Q |}.

(** A channel that plays the cached scenario trunk. *)
Definition playing_channel : Channel :=
  channel_of (pattern_of scenario_trunk 0 BranchPlaybackOrder.forward [])
             None (Some scenario_trunk).

(** Every draw of [Math.random ()] gives [0.5]. *)
Definition even_draws : nat -> Q := fun _ => (1 # 2)%Q.

(** Pitches as a mutation by the default range 0.3 leaves them: [0 - 0.3],
    an untouched [4] whose gate is off, and [6 + 0.7]. *)
#[warnings="-inexact-float"]
Definition fractional_sequence : Binary64.Sequence :=
  {| Binary64.steps :=
       map (fun pg => {| Binary64.pitch := fst pg; Binary64.gateOn := snd pg;
                         Binary64.ratchets := 1; Binary64.slew := 0%Q;
                         Binary64.gateLength := p50; Binary64.depth := None;
                         Binary64.originalIndex := None |})
           [((-0.3)%float, true); (4%float, false); (6.7%float, true)];
     Binary64.length := 3; Binary64.scale := minor;
     Binary64.playbackOrder := PlaybackOrder.forward |}.

(** * Properties *)

(** ** Random draws *)

(** [Math.floor (Math.random () * n)] lies in [[0, n)]. *)
Lemma floor_random_bounds (random : nat -> Q) (k : nat) (n : Z) :
  (0 <= random k)%Q /\ (random k < 1)%Q -> 0 < n ->
  0 <= floor_random random k n < n.
Proof.
  intros [Hlo Hhi] Hn. unfold floor_random.
  assert (Hn' : (0 < inject_Z n)%Q) by (unfold Qlt; simpl; lia).
  split.
  - change 0 with (Qfloor 0). apply Qfloor_resp_le.
    apply Qmult_le_0_compat; [exact Hlo | apply Qlt_le_weak, Hn'].
  - rewrite Zlt_Qlt.
    eapply Qle_lt_trans; [apply Qfloor_le|].
    rewrite <- (Qmult_1_l (inject_Z n)) at 2.
    apply Qmult_lt_compat_r; assumption.
Qed.

(** The offset [mutateSequence] draws for an integer range lies in
    [[-range, range]]. *)
Lemma integer_jitter_range (u : Q) (range : Z) :
  (0 <= u)%Q /\ (u < 1)%Q -> 0 <= range ->
  - range <= integer_jitter u range <= range.
Proof.
  intros Hu Hr.
  pose proof (floor_random_bounds (fun _ => u) 0 (range * 2 + 1) Hu ltac:(lia)) as H.
  unfold floor_random in H. unfold integer_jitter. lia.
Qed.

(** ** Scale quantizer *)

Example quantize_13_major : quantizePitch 13 major = 12.
Proof. reflexivity. Qed.

Example quantize_11_pentatonic : quantizePitch 11 major_pentatonic = 12.
Proof. reflexivity. Qed.

Example quantize_negative : quantizePitch (-1) major = -1.
Proof. reflexivity. Qed.

(** The two-step normalisation of the note is the mathematical residue. *)
Lemma normalizedNote_mod (p : Z) :
  Z.rem (Z.rem (Z.rem p 12) 12 + 12) 12 = p mod 12.
Proof.
  set (r := Z.rem p 12).
  assert (Hb : -12 < r < 12).
  { pose proof (Z.rem_bound_abs p 12 ltac:(lia)). subst r. lia. }
  assert (Hr : Z.rem r 12 = r).
  { destruct (Z.le_gt_cases 0 r).
    - apply Z.rem_small. lia.
    - pose proof (Z.rem_opp_l (- r) 12 ltac:(lia)) as Ho.
      rewrite Z.opp_involutive in Ho. rewrite Ho.
      rewrite Z.rem_small by lia. lia. }
  rewrite Hr. rewrite Z.rem_mod_nonneg by lia.
  pose proof (Z.quot_rem' p 12) as Hq. fold r in Hq.
  assert (Hp : p = r + 12 + (Z.quot p 12 - 1) * 12) by lia.
  rewrite Hp at 1. symmetry. apply Z.mod_add. lia.
Qed.

(** Shifting the input by whole octaves shifts the result by as much. *)
Lemma quantizePitch_shift (p k : Z) (s : ScaleName) :
  quantizePitch (p + 12 * k) s = quantizePitch p s + 12 * k.
Proof.
  unfold quantizePitch.
  destruct (decide (s = unquantized)) as [|_]; [reflexivity|].
  destruct (SCALES s) as [|first rest]; [reflexivity|].
  rewrite !normalizedNote_mod.
  replace (p + 12 * k) with (p + k * 12) by lia.
  rewrite Z.mod_add by lia. rewrite Z.div_add by lia.
  cbv zeta.
  repeat match goal with |- context [if ?b then _ else _] => destruct b end; lia.
Qed.

(** C3: octave invariance of the quantizer, negative pitches included. *)
Theorem quantizePitch_octave_invariance (p : Z) (s : ScaleName) :
  quantizePitch (p + 12) s = quantizePitch p s + 12.
Proof.
  pose proof (quantizePitch_shift p 1 s) as H.
  rewrite Z.mul_1_r in H. exact H.
Qed.

(** Quantization acts on the residue and carries the octave along. *)
Lemma quantizePitch_decomp (p : Z) (s : ScaleName) :
  quantizePitch p s = quantizePitch (p mod 12) s + 12 * (p / 12).
Proof.
  rewrite <- quantizePitch_shift. f_equal.
  pose proof (Z.div_mod p 12 ltac:(lia)). lia.
Qed.

Lemma residue_cases (r : Z) :
  0 <= r < 12 ->
  r = 0 \/ r = 1 \/ r = 2 \/ r = 3 \/ r = 4 \/ r = 5 \/
  r = 6 \/ r = 7 \/ r = 8 \/ r = 9 \/ r = 10 \/ r = 11.
Proof. lia. Qed.

Ltac each_residue H :=
  apply residue_cases in H;
  repeat (destruct H as [H|H]; [subst|]); [..|subst].

(** A note of the scale is left where it is: the nearest interval is the
    note itself, at distance [0], and neither wrap-around test can be
    strictly below that. *)
Lemma quantizePitch_residue_in_scale (r : Z) (s : ScaleName) :
  0 <= r < 12 -> In r (SCALES s) -> quantizePitch r s = r.
Proof.
  intros Hr. destruct s; each_residue Hr; vm_compute;
    intuition (try reflexivity; try discriminate).
Qed.

Lemma quantizePitch_fixes_in_scale (p : Z) (s : ScaleName) :
  In (p mod 12) (SCALES s) -> quantizePitch p s = p.
Proof.
  intros Hin. rewrite quantizePitch_decomp.
  rewrite quantizePitch_residue_in_scale; [|apply Z.mod_pos_bound; lia|exact Hin].
  pose proof (Z.div_mod p 12 ltac:(lia)). lia.
Qed.

(** The quantized pitch lies in the scale's table, up to octaves. *)
Lemma quantizePitch_in_scale (p : Z) (s : ScaleName) :
  s <> unquantized -> In (quantizePitch p s mod 12) (SCALES s).
Proof.
  intros Hs. rewrite quantizePitch_decomp.
  replace (12 * (p / 12)) with (p / 12 * 12) by lia.
  rewrite Z.mod_add by lia.
  pose proof (Z.mod_pos_bound p 12 ltac:(lia)) as Hr.
  generalize dependent (p mod 12). intros r Hr.
  destruct s; try congruence; each_residue Hr; vm_compute; tauto.
Qed.

(** C4: quantizing a quantized pitch changes nothing: the quantized pitch is
    a note of the scale, and such a note is a fixed point. *)
Theorem quantizePitch_idempotent (p : Z) (s : ScaleName) :
  quantizePitch (quantizePitch p s) s = quantizePitch p s.
Proof.
  destruct (decide (s = unquantized)) as [->|Hs].
  - reflexivity.
  - apply quantizePitch_fixes_in_scale, quantizePitch_in_scale, Hs.
Qed.

(** ** Modifications *)

(** *** Cloning *)

Lemma cloneStep_id (s : Step) : cloneStep s = s.
Proof. destruct s; reflexivity. Qed.

Lemma with_steps_id (seq : Sequence) : with_steps seq (steps seq) = seq.
Proof. destruct seq; reflexivity. Qed.

Lemma cloneSequence_id (seq : Sequence) : cloneSequence seq = seq.
Proof.
  unfold cloneSequence.
  rewrite (map_ext cloneStep (fun s => s) cloneStep_id), map_id.
  apply with_steps_id.
Qed.

Lemma same_but_pitch_with_pitch (s : Step) (p : Z) :
  same_but_pitch s (with_pitch s p).
Proof. repeat split. Qed.

Lemma same_but_pitch_refl (s : Step) : same_but_pitch s s.
Proof. repeat split. Qed.

(** *** Minimum and maximum pitch of a buffer *)

Lemma fold_min_le_init (l : list Z) (a : Z) : fold_left Z.min l a <= a.
Proof.
  revert a; induction l as [|x l IH]; intros a; simpl; [lia|].
  specialize (IH (Z.min a x)). lia.
Qed.

Lemma fold_min_le_all (l : list Z) (a x : Z) :
  In x l -> fold_left Z.min l a <= x.
Proof.
  revert a; induction l as [|y l IH]; intros a Hin; simpl in *; [tauto|].
  destruct Hin as [->|Hin]; [|auto].
  pose proof (fold_min_le_init l (Z.min a x)). lia.
Qed.

Lemma fold_min_in (l : list Z) (a : Z) : In (fold_left Z.min l a) (a :: l).
Proof.
  revert a; induction l as [|x l IH]; intros a; simpl; [tauto|].
  destruct (IH (Z.min a x)) as [H|H]; [|tauto].
  destruct (Z.min_spec a x) as [[_ E]|[_ E]]; rewrite E in H |- *; tauto.
Qed.

Lemma fold_min_unique (l : list Z) (a m : Z) :
  In m (a :: l) -> (forall x, In x (a :: l) -> m <= x) ->
  fold_left Z.min l a = m.
Proof.
  intros Hin Hle.
  pose proof (fold_min_in l a) as H1.
  pose proof (fold_min_le_init l a) as H2.
  assert (fold_left Z.min l a <= m).
  { destruct Hin as [<-|Hin]; [exact H2|]. apply fold_min_le_all, Hin. }
  specialize (Hle _ H1). lia.
Qed.

Lemma fold_max_ge_init (l : list Z) (a : Z) : a <= fold_left Z.max l a.
Proof.
  revert a; induction l as [|x l IH]; intros a; simpl; [lia|].
  specialize (IH (Z.max a x)). lia.
Qed.

Lemma fold_max_ge_all (l : list Z) (a x : Z) :
  In x l -> x <= fold_left Z.max l a.
Proof.
  revert a; induction l as [|y l IH]; intros a Hin; simpl in *; [tauto|].
  destruct Hin as [->|Hin]; [|auto].
  pose proof (fold_max_ge_init l (Z.max a x)). lia.
Qed.

Lemma fold_max_in (l : list Z) (a : Z) : In (fold_left Z.max l a) (a :: l).
Proof.
  revert a; induction l as [|x l IH]; intros a; simpl; [tauto|].
  destruct (IH (Z.max a x)) as [H|H]; [|tauto].
  destruct (Z.max_spec a x) as [[_ E]|[_ E]]; rewrite E in H |- *; tauto.
Qed.

Lemma fold_max_unique (l : list Z) (a m : Z) :
  In m (a :: l) -> (forall x, In x (a :: l) -> x <= m) ->
  fold_left Z.max l a = m.
Proof.
  intros Hin Hle.
  pose proof (fold_max_in l a) as H1.
  pose proof (fold_max_ge_init l a) as H2.
  assert (m <= fold_left Z.max l a).
  { destruct Hin as [<-|Hin]; [exact H2|]. apply fold_max_ge_all, Hin. }
  specialize (Hle _ H1). lia.
Qed.

(** The loop of [invertSequence], once both bounds are finite. *)
Lemma fold_minmax_from (l : list Step) (a b : Z) :
  fold_left minmax_step l (Some a, Some b)
  = (Some (fold_left Z.min (map pitch l) a),
     Some (fold_left Z.max (map pitch l) b)).
Proof.
  revert a b; induction l as [|s l IH]; intros a b; simpl; [reflexivity|].
  unfold minmax_step at 2; simpl.
  destruct (Z.ltb_spec (pitch s) a), (Z.ltb_spec b (pitch s));
    rewrite IH; repeat f_equal; lia.
Qed.

Lemma fold_minmax_cons (s : Step) (rest : list Step) :
  fold_left minmax_step (s :: rest) (None, None)
  = (Some (buffer_min s rest), Some (buffer_max s rest)).
Proof. simpl. unfold minmax_step at 2; simpl. apply fold_minmax_from. Qed.

Lemma invertSequence_nil (seq : Sequence) :
  steps seq = [] -> invertSequence seq = seq.
Proof.
  intros H. unfold invertSequence. rewrite cloneSequence_id, H. reflexivity.
Qed.

Lemma invertSequence_cons (seq : Sequence) (s : Step) (rest : list Step) :
  steps seq = s :: rest ->
  invertSequence seq
  = with_steps seq (map (mirror (buffer_min s rest) (buffer_max s rest)) (steps seq)).
Proof.
  intros H. unfold invertSequence. rewrite cloneSequence_id, H.
  cbn [List.length Nat.eqb]. rewrite fold_minmax_cons. reflexivity.
Qed.

(** *** Inversion is an involution *)

Lemma mirror_pitches (lo hi : Z) (l : list Step) :
  map pitch (map (mirror lo hi) l) = map (fun p => hi - (p - lo)) (map pitch l).
Proof. rewrite !map_map. reflexivity. Qed.

Lemma mirror_mirror (lo hi : Z) (s : Step) : mirror lo hi (mirror lo hi s) = s.
Proof.
  destruct s; unfold mirror, with_pitch; simpl. f_equal. lia.
Qed.

Lemma buffer_bounds_mirror (s : Step) (rest : list Step) :
  let lo := buffer_min s rest in
  let hi := buffer_max s rest in
  buffer_min (mirror lo hi s) (map (mirror lo hi) rest) = lo /\
  buffer_max (mirror lo hi s) (map (mirror lo hi) rest) = hi.
Proof.
  intros lo hi.
  pose proof (fold_min_in (map pitch rest) (pitch s)) as Hlo_in.
  pose proof (fold_max_in (map pitch rest) (pitch s)) as Hhi_in.
  fold (buffer_min s rest) in Hlo_in. fold (buffer_max s rest) in Hhi_in.
  fold lo in Hlo_in. fold hi in Hhi_in.
  assert (Hrange : forall p, In p (pitch s :: map pitch rest) -> lo <= p <= hi).
  { intros p [<-|Hp].
    - split; [apply fold_min_le_init | apply fold_max_ge_init].
    - split; [apply fold_min_le_all | apply fold_max_ge_all]; exact Hp. }
  assert (Himg : forall x,
             In x (pitch (mirror lo hi s) :: map pitch (map (mirror lo hi) rest))
             <-> exists p, x = hi - (p - lo) /\ In p (pitch s :: map pitch rest)).
  { intros x. rewrite mirror_pitches.
    change (pitch (mirror lo hi s) :: map (fun p => hi - (p - lo)) (map pitch rest))
      with (map (fun p => hi - (p - lo)) (pitch s :: map pitch rest)).
    rewrite in_map_iff. split; intros (p & H1 & H2); exists p; auto. }
  unfold buffer_min, buffer_max. split.
  - apply fold_min_unique.
    + apply Himg. exists hi. split; [lia | exact Hhi_in].
    + intros x Hx. apply Himg in Hx as (p & -> & Hp).
      specialize (Hrange p Hp). lia.
  - apply fold_max_unique.
    + apply Himg. exists lo. split; [lia | exact Hlo_in].
    + intros x Hx. apply Himg in Hx as (p & -> & Hp).
      specialize (Hrange p Hp). lia.
Qed.

Lemma invertSequence_involutive (seq : Sequence) :
  invertSequence (invertSequence seq) = seq.
Proof.
  destruct (steps seq) as [|s rest] eqn:E.
  - rewrite !(invertSequence_nil seq E). reflexivity.
  - rewrite (invertSequence_cons seq s rest E), E.
    pose proof (buffer_bounds_mirror s rest) as Hb. cbv zeta in Hb.
    set (lo := buffer_min s rest) in *. set (hi := buffer_max s rest) in *.
    destruct Hb as [Hlo Hhi].
    rewrite (invertSequence_cons _ (mirror lo hi s) (map (mirror lo hi) rest))
      by reflexivity.
    rewrite Hlo, Hhi.
    cbn [steps with_steps].
    rewrite map_map.
    rewrite (map_ext _ (fun x => x) (mirror_mirror lo hi)), map_id.
    destruct seq; simpl in *; subst; reflexivity.
Qed.

(** *** Reversal *)

Lemma rev_lookup {A : Type} (l : list A) (i : nat) :
  (i < List.length l)%nat -> rev l !! i = l !! (List.length l - S i)%nat.
Proof. intros H. rewrite rev_alt. apply (reverse_lookup l i H). Qed.

Lemma write_back_prefix (activeSteps l : list Step) (n : nat) :
  (n <= List.length activeSteps)%nat -> (n <= List.length l)%nat ->
  write_back activeSteps n l = firstn n activeSteps ++ skipn n l.
Proof.
  unfold write_back. induction n as [|n IH]; intros Ha Hl.
  - reflexivity.
  - rewrite seq_S, fold_left_app, IH by lia. simpl.
    destruct (lookup_lt_is_Some_2 activeSteps n ltac:(lia)) as [x Hx].
    destruct (lookup_lt_is_Some_2 l n ltac:(lia)) as [y Hy].
    rewrite Hx.
    rewrite insert_app_r_alt by (rewrite length_take; lia).
    rewrite length_take, Nat.min_l, Nat.sub_diag by lia.
    rewrite (drop_S l y n Hy). simpl.
    rewrite (take_S_r activeSteps n x Hx), <- app_assoc. reflexivity.
Qed.

Lemma reverseSequence_steps (seq : Sequence) :
  (length seq <= List.length (steps seq))%nat ->
  steps (reverseSequence seq)
  = rev (firstn (length seq) (steps seq)) ++ skipn (length seq) (steps seq).
Proof.
  intros H. unfold reverseSequence. rewrite cloneSequence_id. simpl.
  assert (Hlen : List.length (rev (firstn (length seq) (steps seq))) = length seq).
  { rewrite length_rev, length_take. lia. }
  rewrite write_back_prefix by lia.
  rewrite <- Hlen at 1. rewrite firstn_all. reflexivity.
Qed.

(** Reading the reversed buffer: the active prefix is mirrored, the rest is
    where it was. *)
Lemma reverseSequence_lookup (seq : Sequence) (i : nat) :
  (length seq <= List.length (steps seq))%nat ->
  steps (reverseSequence seq) !! i
  = if (i <? length seq)%nat then steps seq !! (length seq - 1 - i)%nat
    else steps seq !! i.
Proof.
  intros H. rewrite reverseSequence_steps by exact H.
  assert (Hlen : List.length (firstn (length seq) (steps seq)) = length seq).
  { rewrite length_take. lia. }
  destruct (Nat.ltb_spec i (length seq)) as [Hi|Hi].
  - rewrite lookup_app_l by (rewrite length_rev; lia).
    rewrite rev_lookup by lia.
    rewrite Hlen, lookup_take_lt by lia. f_equal. lia.
  - rewrite lookup_app_r by (rewrite length_rev; lia).
    rewrite length_rev, Hlen, lookup_drop. f_equal. lia.
Qed.

Lemma reverseSequence_involutive (seq : Sequence) :
  (length seq <= List.length (steps seq))%nat ->
  reverseSequence (reverseSequence seq) = seq.
Proof.
  intros H.
  assert (Hlen : List.length (rev (firstn (length seq) (steps seq))) = length seq).
  { rewrite length_rev, length_take. lia. }
  assert (E : reverseSequence seq
              = with_steps seq (rev (firstn (length seq) (steps seq))
                                ++ skipn (length seq) (steps seq))).
  { rewrite <- reverseSequence_steps by exact H.
    unfold reverseSequence. rewrite cloneSequence_id. reflexivity. }
  assert (E2 : steps (reverseSequence (reverseSequence seq)) = steps seq).
  { rewrite reverseSequence_steps; rewrite E; cbn [steps length with_steps].
    - rewrite <- Hlen at 1. rewrite take_app_length.
      rewrite <- Hlen at 2. rewrite drop_app_length.
      rewrite rev_involutive. apply take_drop.
    - rewrite length_app, Hlen, length_drop. lia. }
  destruct seq as [st len sc po]; simpl in *.
  unfold reverseSequence in *; simpl in *. rewrite E2. reflexivity.
Qed.

(** *** What every modification keeps *)

Lemma same_frame_refl (a : Sequence) : same_frame a a.
Proof. repeat split. Qed.

Lemma same_frame_trans (a b c : Sequence) :
  same_frame a b -> same_frame b c -> same_frame a c.
Proof. unfold same_frame. intuition congruence. Qed.

Lemma transposeSequence_steps (seq : Sequence) (n : Z) :
  steps (transposeSequence seq n)
  = map (fun step => with_pitch step (pitch step + n)) (steps seq).
Proof. unfold transposeSequence. rewrite cloneSequence_id. reflexivity. Qed.

Lemma transposeSequence_frame (seq : Sequence) (n : Z) :
  same_frame seq (transposeSequence seq n).
Proof.
  unfold same_frame. rewrite transposeSequence_steps, length_map.
  unfold transposeSequence. rewrite cloneSequence_id. repeat split.
Qed.

Lemma invertSequence_frame (seq : Sequence) : same_frame seq (invertSequence seq).
Proof.
  destruct (steps seq) as [|s rest] eqn:E.
  - rewrite (invertSequence_nil seq E). apply same_frame_refl.
  - rewrite (invertSequence_cons seq s rest E).
    unfold same_frame. cbn [steps length scale playbackOrder with_steps].
    rewrite length_map. repeat split.
Qed.

Lemma reverseSequence_frame (seq : Sequence) :
  (length seq <= List.length (steps seq))%nat ->
  same_frame seq (reverseSequence seq).
Proof.
  intros H. unfold same_frame.
  rewrite reverseSequence_steps by exact H.
  rewrite length_app, length_rev, length_take, length_drop.
  unfold reverseSequence. rewrite cloneSequence_id. simpl.
  repeat split. lia.
Qed.

(** *** Mutation *)

Lemma mutate_steps_jittered (jitter : nat -> Z) (l : list Step) (k : nat) :
  Forall2 (jittered jitter) l (fst (mutate_steps jitter l k)).
Proof.
  revert k; induction l as [|s l IH]; intros k; simpl; [constructor|].
  unfold jittered at 1.
  destruct (gateOn s) eqn:G; simpl; constructor; auto; rewrite G; eauto.
Qed.

Lemma jittered_same_but_pitch (jitter : nat -> Z) (a b : Step) :
  jittered jitter a b -> same_but_pitch a b.
Proof.
  unfold jittered. destruct (gateOn a) eqn:G.
  - intros [j ->]. apply same_but_pitch_with_pitch.
  - intros ->. apply same_but_pitch_refl.
Qed.

Lemma mutateSequence_zero (jitter : nat -> Z) (seq : Sequence) (range : Q) (k : nat) :
  Qeq_bool range 0 = true -> mutateSequence jitter seq range k = (seq, k).
Proof.
  intros H. unfold mutateSequence. rewrite H, cloneSequence_id. reflexivity.
Qed.

Lemma mutateSequence_nonzero (jitter : nat -> Z) (seq : Sequence) (range : Q) (k : nat) :
  Qeq_bool range 0 = false ->
  mutateSequence jitter seq range k
  = (with_steps seq (fst (mutate_steps jitter (steps seq) k)),
     snd (mutate_steps jitter (steps seq) k)).
Proof.
  intros H. unfold mutateSequence. rewrite H, cloneSequence_id. reflexivity.
Qed.

Lemma mutateSequence_fields (jitter : nat -> Z) (seq : Sequence) (range : Q) (k : nat) :
  Forall2 same_but_pitch (steps seq)
          (steps (fst (mutateSequence jitter seq range k))).
Proof.
  destruct (Qeq_bool range 0) eqn:E.
  - rewrite mutateSequence_zero by exact E. simpl.
    induction (steps seq); constructor; auto using same_but_pitch_refl.
  - rewrite mutateSequence_nonzero by exact E. simpl.
    eapply Forall2_impl; [apply mutate_steps_jittered|].
    apply jittered_same_but_pitch.
Qed.

Lemma mutateSequence_frame (jitter : nat -> Z) (seq : Sequence) (range : Q) (k : nat) :
  same_frame seq (fst (mutateSequence jitter seq range k)).
Proof.
  unfold same_frame.
  rewrite <- (Forall2_length _ _ _ (mutateSequence_fields jitter seq range k)).
  destruct (Qeq_bool range 0) eqn:E.
  - rewrite mutateSequence_zero by exact E. repeat split.
  - rewrite mutateSequence_nonzero by exact E. repeat split.
Qed.

Lemma map_with_pitch_fields (f : Step -> Z) (l : list Step) :
  Forall2 same_but_pitch l (map (fun s => with_pitch s (f s)) l).
Proof.
  induction l; simpl; constructor; auto using same_but_pitch_with_pitch.
Qed.

Lemma transposeSequence_fields (seq : Sequence) (n : Z) :
  Forall2 same_but_pitch (steps seq) (steps (transposeSequence seq n)).
Proof. rewrite transposeSequence_steps. apply map_with_pitch_fields. Qed.

Lemma invertSequence_fields (seq : Sequence) :
  Forall2 same_but_pitch (steps seq) (steps (invertSequence seq)).
Proof.
  destruct (steps seq) as [|s rest] eqn:E.
  - rewrite (invertSequence_nil seq E), E. constructor.
  - rewrite (invertSequence_cons seq s rest E). cbn [steps with_steps].
    rewrite E. apply map_with_pitch_fields.
Qed.

(** C10: every modification keeps [length], [scale], [playbackOrder] and the
    size of the buffer.  Transposition, inversion and mutation leave every
    field of every stored step but its pitch as it was; reversal moves whole
    steps: its buffer is the active prefix of the input read backwards,
    followed by the rest of the input.  For reversal the active prefix has to
    lie within the buffer, [length <= steps.length], as the data model has
    it. *)
Theorem modifications_keep_frame_and_fields
    (jitter : nat -> Z) (seq : Sequence) (semitones : Z) (range : Q) (k : nat) :
  (same_frame seq (transposeSequence seq semitones) /\
   Forall2 same_but_pitch (steps seq) (steps (transposeSequence seq semitones))) /\
  (same_frame seq (invertSequence seq) /\
   Forall2 same_but_pitch (steps seq) (steps (invertSequence seq))) /\
  (same_frame seq (fst (mutateSequence jitter seq range k)) /\
   Forall2 same_but_pitch (steps seq)
           (steps (fst (mutateSequence jitter seq range k)))) /\
  ((length seq <= List.length (steps seq))%nat ->
   same_frame seq (reverseSequence seq) /\
   steps (reverseSequence seq)
   = rev (firstn (length seq) (steps seq)) ++ skipn (length seq) (steps seq)).
Proof.
  split; [split; [apply transposeSequence_frame | apply transposeSequence_fields]|].
  split; [split; [apply invertSequence_frame | apply invertSequence_fields]|].
  split; [split; [apply mutateSequence_frame | apply mutateSequence_fields]|].
  intros H. split; [apply reverseSequence_frame | apply reverseSequence_steps]; exact H.
Qed.

(** *** Steps beyond the active prefix *)

(** C2 fails on the code: the step at index 2 of a sequence of length 2 is
    changed by transposition, by inversion and by mutation, and it decides
    where inversion sends the active steps (two sequences with the same active
    prefix are inverted to different active pitches). *)
Lemma inactive_steps_not_inert :
  (length (short_sequence 10) <= 2)%nat /\
  steps (transposeSequence (short_sequence 10) 5) !! 2%nat
    <> steps (short_sequence 10) !! 2%nat /\
  steps (invertSequence (short_sequence 10)) !! 2%nat
    <> steps (short_sequence 10) !! 2%nat /\
  steps (fst (mutateSequence (fun _ => 1) (short_sequence 10) 2%Q 0)) !! 2%nat
    <> steps (short_sequence 10) !! 2%nat /\
  (firstn 2 (steps (short_sequence 10)) = firstn 2 (steps (short_sequence 20)) /\
   pitch <$> steps (invertSequence (short_sequence 10)) !! 0%nat = Some 10 /\
   pitch <$> steps (invertSequence (short_sequence 20)) !! 0%nat = Some 20).
Proof.
  repeat split; try (vm_compute; congruence).
  vm_compute. lia.
Qed.

(** C2, as the code has it.  Reversal is the one modification bounded by
    [length]: steps at or beyond it stay where they are, and the new active
    prefix is the old one read backwards (the active prefix lying within the
    buffer).  Transposition shifts every stored step; inversion mirrors every
    stored step between the minimum and the maximum pitch of the whole
    buffer; a mutation with a non-zero range shifts every stored step whose
    gate is on, and with range zero returns the sequence as it is. *)
Theorem modifications_beyond_length
    (jitter : nat -> Z) (seq : Sequence) (semitones : Z) (range : Q) (k : nat) :
  ((length seq <= List.length (steps seq))%nat ->
   (forall i, (length seq <= i)%nat ->
              steps (reverseSequence seq) !! i = steps seq !! i) /\
   firstn (length seq) (steps (reverseSequence seq))
   = rev (firstn (length seq) (steps seq))) /\
  (forall i, steps (transposeSequence seq semitones) !! i
             = (fun s => with_pitch s (pitch s + semitones)) <$> steps seq !! i) /\
  (forall s rest i, steps seq = s :: rest ->
             steps (invertSequence seq) !! i
             = mirror (buffer_min s rest) (buffer_max s rest) <$> steps seq !! i) /\
  (Qeq_bool range 0 = false ->
   Forall2 (jittered jitter) (steps seq)
           (steps (fst (mutateSequence jitter seq range k)))) /\
  (Qeq_bool range 0 = true -> fst (mutateSequence jitter seq range k) = seq).
Proof.
  split; [intros H; split|repeat split].
  - intros i Hi. rewrite reverseSequence_lookup by exact H.
    destruct (Nat.ltb_spec i (length seq)); [lia | reflexivity].
  - rewrite reverseSequence_steps by exact H.
    assert (Hlen : List.length (rev (firstn (length seq) (steps seq))) = length seq).
    { rewrite length_rev, length_take. lia. }
    rewrite <- Hlen at 1. apply take_app_length.
  - intros i. rewrite transposeSequence_steps. apply list_lookup_fmap.
  - intros s rest i E. rewrite (invertSequence_cons seq s rest E).
    cbn [steps with_steps]. apply list_lookup_fmap.
  - intros E. rewrite mutateSequence_nonzero by exact E. simpl.
    apply mutate_steps_jittered.
  - intros E. rewrite mutateSequence_zero by exact E. reflexivity.
Qed.

(** ** Tree generation *)

Section BuilderShape.
Variable jitter : nat -> Z.
Variable pattern : Pattern.
Variable maxDepth' : nat.
(** An invariant of sequences that every modification keeps. *)
Variable Inv : Sequence -> Prop.
Hypothesis Inv_kept :
  forall kind seq param k,
    Inv seq -> Inv (fst (apply_modification jitter kind seq param k)).

Lemma buildChildren_full (fuel : nat) (node : TreeNode.t) (k : nat) :
  TreeNode.left node = None -> TreeNode.right node = None ->
  Inv (TreeNode.sequence node) ->
  (TreeNode.depth node <= maxDepth')%nat ->
  (maxDepth' - TreeNode.depth node <= fuel)%nat ->
  full (fun n => Inv (TreeNode.sequence n))
       (TreeNode.depth node) (maxDepth' - TreeNode.depth node)
       (fst (buildChildren jitter pattern maxDepth' fuel node k)).
Proof.
  revert node k; induction fuel as [|fuel IH]; intros node k Hl Hr HI Hd Hf.
  - assert (E : (maxDepth' - TreeNode.depth node = 0)%nat) by lia.
    rewrite E. simpl.
    destruct (Nat.leb_spec maxDepth' (TreeNode.depth node)); simpl; auto.
  - simpl. destruct (Nat.leb_spec maxDepth' (TreeNode.depth node)) as [Hle|Hlt].
    + assert (E : (maxDepth' - TreeNode.depth node = 0)%nat) by lia.
      rewrite E. simpl. auto.
    + assert (E : (maxDepth' - TreeNode.depth node
                   = S (maxDepth' - (TreeNode.depth node + 1)))%nat) by lia.
      rewrite E. cbn [full fst]. split; [reflexivity|]. split; [exact HI|].
      eexists _, _. split; [reflexivity|]. split; [reflexivity|].
      replace (S (TreeNode.depth node)) with (TreeNode.depth node + 1)%nat by lia.
      split.
      * apply (IH (TreeNode.fresh _ (TreeNode.depth node + 1)%nat _));
          simpl; auto; lia.
      * apply (IH (TreeNode.fresh _ (TreeNode.depth node + 1)%nat _));
          simpl; auto; lia.
Qed.
End BuilderShape.

Lemma full_nodes_length (P : TreeNode.t -> Prop) (d h : nat) (t : TreeNode.t) :
  full P d h t -> List.length (TreeNode.nodes t) = (2 ^ (h + 1) - 1)%nat.
Proof.
  revert d t; induction h as [|h IH]; intros d t.
  - intros (_ & _ & Hl & Hr). destruct t; simpl in *; subst. reflexivity.
  - intros (_ & _ & l & r & Hl & Hr & Fl & Fr).
    destruct t; simpl in *; subst.
    rewrite length_app, (IH _ _ Fl), (IH _ _ Fr).
    assert (1 <= 2 ^ (h + 1))%nat by (apply Nat.pow_lower_bound; lia).
    lia.
Qed.

Lemma full_nodes_complete (P : TreeNode.t -> Prop) (d h : nat) (t : TreeNode.t) :
  full P d h t ->
  Forall (fun n => node_complete (d + h) n /\ P n) (TreeNode.nodes t).
Proof.
  revert d t; induction h as [|h IH]; intros d t.
  - intros (Hd & HP & Hl & Hr). destruct t; simpl in *; subst.
    constructor; [|constructor].
    unfold node_complete, TreeNode.children_count; simpl.
    repeat split; auto; lia.
  - intros (Hd & HP & l & r & Hl & Hr & Fl & Fr).
    destruct t; simpl in *; subst.
    constructor.
    + unfold node_complete, TreeNode.children_count; simpl.
      repeat split; auto; lia.
    + apply Forall_app. split.
      * replace (d + S h)%nat with (S d + h)%nat by lia. apply IH, Fl.
      * replace (d + S h)%nat with (S d + h)%nat by lia. apply IH, Fr.
Qed.

Lemma generateTreeForChannel_full
    (Inv : Sequence -> Prop) (jitter : nat -> Z) (channel : Channel)
    (pattern : Pattern) (k : nat) :
  (forall kind seq param k,
      Inv seq -> Inv (fst (apply_modification jitter kind seq param k))) ->
  Inv (trunk pattern) ->
  current_pattern channel = Some pattern ->
  exists tree k',
    generateTreeForChannel jitter channel k = Some (tree, k') /\
    maxDepth tree = branchesCount pattern /\
    TreeNode.sequence (root tree) = trunk pattern /\
    full (fun n => Inv (TreeNode.sequence n)) 0 (branchesCount pattern) (root tree).
Proof.
  intros Hkept Htrunk Hpat. unfold generateTreeForChannel.
  rewrite Hpat. cbn [mbind option_bind].
  destruct (Nat.eqb_spec (branchesCount pattern) 0) as [E|E].
  - eexists _, _. split; [reflexivity|]. rewrite E. simpl. repeat split. exact Htrunk.
  - eexists _, _. split; [reflexivity|]. cbn [maxDepth root].
    pose proof (buildChildren_full jitter pattern (branchesCount pattern) Inv Hkept
                  (branchesCount pattern)
                  (TreeNode.fresh (trunk pattern) 0 None) k
                  eq_refl eq_refl Htrunk ltac:(simpl; lia) ltac:(simpl; lia)) as F.
    cbn [TreeNode.fresh TreeNode.depth] in F. rewrite Nat.sub_0_r in F.
    split; [reflexivity|]. split; [|exact F].
    destruct (branchesCount pattern); [congruence|]. reflexivity.
Qed.

(** C7: the builder returns a complete binary tree of depth [branchesCount]:
    [2^(d+1) - 1] nodes, two children for every node above depth [d], none at
    depth [d]; with [d = 0] the tree is the root alone. *)
Theorem generated_tree_is_complete
    (jitter : nat -> Z) (channel : Channel) (pattern : Pattern) (k : nat) :
  current_pattern channel = Some pattern ->
  exists tree k',
    generateTreeForChannel jitter channel k = Some (tree, k') /\
    maxDepth tree = branchesCount pattern /\
    TreeNode.depth (root tree) = 0%nat /\
    List.length (TreeNode.nodes (root tree))
      = (2 ^ (branchesCount pattern + 1) - 1)%nat /\
    Forall (node_complete (branchesCount pattern)) (TreeNode.nodes (root tree)) /\
    (branchesCount pattern = 0%nat ->
     root tree = TreeNode.fresh (trunk pattern) 0 None).
Proof.
  intros Hpat.
  destruct (generateTreeForChannel_full (fun _ => True) jitter channel pattern k)
    as (tree & k' & Hgen & Hmax & Hseq & F); auto.
  exists tree, k'. split; [exact Hgen|]. split; [exact Hmax|].
  split; [destruct (branchesCount pattern); apply F|].
  split; [apply (full_nodes_length _ _ _ _ F)|].
  split.
  - pose proof (full_nodes_complete _ _ _ _ F) as Hall. simpl in Hall.
    eapply Forall_impl; [exact Hall|]. intros n [Hn _]. exact Hn.
  - intros E. unfold generateTreeForChannel in Hgen.
    rewrite Hpat in Hgen. cbn [mbind option_bind] in Hgen.
    rewrite E in Hgen. simpl in Hgen. injection Hgen as <- _. reflexivity.
Qed.

(** ** Playback sequence construction *)

(** *** Sizes of the orderings *)

Lemma pendulum_tail_length {A : Type} (l : list A) (i : nat) :
  (i < List.length l)%nat -> List.length (pendulum_tail l i) = i.
Proof.
  induction i as [|i IH]; intros H; simpl; [reflexivity|].
  destruct (lookup_lt_is_Some_2 l (S i) H) as [x ->].
  simpl. rewrite IH by lia. reflexivity.
Qed.

Lemma pendulum_order_length {A : Type} (l : list A) :
  List.length (pendulum_order l) = pendulum_size (List.length l).
Proof.
  unfold pendulum_order, pendulum_size. rewrite length_app.
  destruct l as [|a [|b l]]; try reflexivity.
  rewrite pendulum_tail_length; [reflexivity | simpl; lia].
Qed.

Lemma pendulum_tail_Forall {A : Type} (P : A -> Prop) (l : list A) (i : nat) :
  Forall P l -> Forall P (pendulum_tail l i).
Proof.
  intros H. induction i as [|i IH]; simpl; [constructor|].
  apply Forall_app. split; [|exact IH].
  destruct (l !! S i) as [x|] eqn:E; constructor; [|constructor].
  exact (Forall_lookup_1 P l (S i) x H E).
Qed.

Lemma pendulum_order_Forall {A : Type} (P : A -> Prop) (l : list A) :
  Forall P l -> Forall P (pendulum_order l).
Proof.
  intros H. apply Forall_app. split; [exact H | apply pendulum_tail_Forall, H].
Qed.

Lemma swap_length {A : Type} (l : list A) (i j : nat) :
  List.length (swap l i j) = List.length l.
Proof.
  unfold swap. destruct (l !! i), (l !! j); rewrite ?length_insert; reflexivity.
Qed.

Lemma swap_Forall {A : Type} (P : A -> Prop) (l : list A) (i j : nat) :
  Forall P l -> Forall P (swap l i j).
Proof.
  intros H. unfold swap.
  destruct (l !! i) as [x|] eqn:Ei, (l !! j) as [y|] eqn:Ej; try exact H.
  apply Forall_insert; [apply Forall_insert; [exact H|]|].
  - exact (Forall_lookup_1 P l j y H Ej).
  - exact (Forall_lookup_1 P l i x H Ei).
Qed.

Section FlattenerFacts.
Variable random : nat -> Q.

Lemma shuffle_from_length {A : Type} (i : nat) (l : list A) (k : nat) :
  List.length (fst (shuffle_from random i l k)) = List.length l.
Proof.
  revert l k; induction i as [|i IH]; intros l k; simpl; [reflexivity|].
  rewrite IH. apply swap_length.
Qed.

Lemma shuffle_from_Forall {A : Type} (P : A -> Prop) (i : nat) (l : list A) (k : nat) :
  Forall P l -> Forall P (fst (shuffle_from random i l k)).
Proof.
  revert l k; induction i as [|i IH]; intros l k H; simpl; [exact H|].
  apply IH, swap_Forall, H.
Qed.

Lemma shuffle_length {A : Type} (l : list A) (k : nat) :
  List.length (fst (shuffle random l k)) = List.length l.
Proof. apply shuffle_from_length. Qed.

Lemma shuffle_Forall {A : Type} (P : A -> Prop) (l : list A) (k : nat) :
  Forall P l -> Forall P (fst (shuffle random l k)).
Proof. apply shuffle_from_Forall. Qed.

(** *** Length of the flattened sequence *)

Lemma node_steps_length (seqOrder : PlaybackOrder.t) (node : TreeNode.t) (k : nat) :
  List.length (fst (node_steps random seqOrder node k))
  = step_visits seqOrder (active_count node).
Proof.
  unfold node_steps, active_count. cbn [fst].
  rewrite length_map.
  destruct seqOrder; cbn [fst step_visits].
  - apply length_imap.
  - rewrite length_rev. apply length_imap.
  - rewrite pendulum_order_length, length_imap. reflexivity.
  - rewrite shuffle_length. apply length_imap.
Qed.

Lemma collect_steps_length (seqOrder : PlaybackOrder.t) (m : nat)
    (orderedNodes : list TreeNode.t) (k : nat) :
  Forall (fun n => active_count n = m) orderedNodes ->
  List.length (fst (collect_steps random seqOrder orderedNodes k))
  = (List.length orderedNodes * step_visits seqOrder m)%nat.
Proof.
  intros H. revert k.
  induction H as [|n l Hn Hl IH]; intros k; cbn [collect_steps fst].
  - reflexivity.
  - rewrite length_app, node_steps_length, IH, Hn. reflexivity.
Qed.
End FlattenerFacts.

(** Walking down a complete tree of height [h] visits [h] nodes. *)
Lemma descend_full (P : TreeNode.t -> Prop) (pathBits : list ascii)
    (h d i : nat) (t : TreeNode.t) :
  full P d h t ->
  List.length (descend pathBits i h (Some t)) = h /\
  Forall P (descend pathBits i h (Some t)).
Proof.
  revert d i t; induction h as [|h IH]; intros d i t F.
  - split; [reflexivity | constructor].
  - destruct F as (_ & _ & l & r & Hl & Hr & Fl & Fr).
    cbn [descend].
    assert (Hnext : exists c, full P (S d) h c /\
               match pathBits !! i with
               | Some "0"%char => TreeNode.left t
               | _ => TreeNode.right t
               end = Some c).
    { destruct (pathBits !! i) as [[[] [] [] [] [] [] [] []]|]; eauto. }
    destruct Hnext as (c & Fc & ->).
    destruct (IH _ (S i) _ Fc) as [Hlen Hall].
    split; [simpl; rewrite Hlen; reflexivity|].
    constructor; [|exact Hall].
    destruct h; apply Fc.
Qed.

Lemma apply_modification_frame (jitter : nat -> Z) (kind : ModificationKind.t)
    (seq : Sequence) (param : Z) (k : nat) :
  (length seq <= List.length (steps seq))%nat ->
  same_frame seq (fst (apply_modification jitter kind seq param k)).
Proof.
  intros H. destruct kind; cbn [apply_modification fst].
  - apply transposeSequence_frame.
  - apply invertSequence_frame.
  - apply reverseSequence_frame, H.
  - apply mutateSequence_frame.
Qed.

Lemma trunk_framed_kept (jitter : nat -> Z) (trunk : Sequence) :
  (length trunk <= List.length (steps trunk))%nat ->
  forall kind seq param k,
    trunk_framed trunk seq ->
    trunk_framed trunk (fst (apply_modification jitter kind seq param k)).
Proof.
  intros H kind seq param k F. unfold trunk_framed in *.
  eapply same_frame_trans; [exact F|].
  apply apply_modification_frame.
  destruct F as (-> & _ & _ & ->). exact H.
Qed.

Lemma trunk_framed_active_count (trunk : Sequence) (n : TreeNode.t) :
  (length trunk <= List.length (steps trunk))%nat ->
  trunk_framed trunk (TreeNode.sequence n) ->
  active_count n = length trunk.
Proof.
  intros H (Hl & _ & _ & Hs). unfold active_count.
  rewrite length_take, Hs, Hl. lia.
Qed.

Lemma ordered_nodes_length (random : nat -> Q) (order : BranchPlaybackOrder.t)
    (pathNodes : list TreeNode.t) (k : nat) :
  List.length
    (fst match order with
         | BranchPlaybackOrder.forward => (pathNodes, k)
         | BranchPlaybackOrder.reverse => (rev pathNodes, k)
         | BranchPlaybackOrder.pendulum => (pendulum_order pathNodes, k)
         | BranchPlaybackOrder.random => shuffle random pathNodes k
         end)
  = branch_visits order (List.length pathNodes).
Proof.
  destruct order; cbn [fst branch_visits].
  - reflexivity.
  - apply length_rev.
  - apply pendulum_order_length.
  - apply shuffle_length.
Qed.

Lemma ordered_nodes_Forall (random : nat -> Q) (P : TreeNode.t -> Prop)
    (order : BranchPlaybackOrder.t) (pathNodes : list TreeNode.t) (k : nat) :
  Forall P pathNodes ->
  Forall P
    (fst match order with
         | BranchPlaybackOrder.forward => (pathNodes, k)
         | BranchPlaybackOrder.reverse => (rev pathNodes, k)
         | BranchPlaybackOrder.pendulum => (pendulum_order pathNodes, k)
         | BranchPlaybackOrder.random => shuffle random pathNodes k
         end).
Proof.
  intros H. destruct order; cbn [fst].
  - exact H.
  - apply List.Forall_rev, H.
  - apply pendulum_order_Forall, H.
  - apply shuffle_Forall, H.
Qed.

(** C1, as the code has it: the flattened sequence has one block of steps per
    visit of a path node.  Forward, reverse and random branch orders visit
    each of the [branchesCount + 1] path nodes once; forward, backward and
    random step orders play each of the [length] active steps once; a
    pendulum over [n] items plays [n + (n - 2)] of them.  Without a pendulum
    the length is [(branchesCount + 1) * trunk.length]. *)
Theorem playback_sequence_length
    (random : nat -> Q) (jitter : nat -> Z) (channel : Channel)
    (pattern : Pattern) (tree : GeneratedTree) (kj kj' k : nat) :
  current_pattern channel = Some pattern ->
  (length (trunk pattern) <= List.length (steps (trunk pattern)))%nat ->
  generateTreeForChannel jitter channel kj = Some (tree, kj') ->
  generatedTree channel = Some tree ->
  exists seq k',
    buildPlaybackSequence random channel k = Some (seq, k') /\
    List.length (steps seq) = length seq /\
    length seq
    = (branch_visits (branchPlaybackOrder pattern) (branchesCount pattern + 1)
       * step_visits (playbackOrder (trunk pattern)) (length (trunk pattern)))%nat /\
    (branchPlaybackOrder pattern <> BranchPlaybackOrder.pendulum ->
     playbackOrder (trunk pattern) <> PlaybackOrder.pendulum ->
     length seq = ((branchesCount pattern + 1) * length (trunk pattern))%nat).
Proof.
  intros Hpat Hwf Hgen Htree.
  destruct (generateTreeForChannel_full (trunk_framed (trunk pattern)) jitter
              channel pattern kj (trunk_framed_kept jitter _ Hwf)
              (same_frame_refl _) Hpat)
    as (tree' & kj'' & Hgen' & _ & _ & F).
  rewrite Hgen in Hgen'. injection Hgen' as <- _.
  unfold buildPlaybackSequence. rewrite Hpat, Htree. cbn [mbind option_bind].
  eexists _, _. split; [reflexivity|]. cbn [steps length].
  split; [reflexivity|].
  set (pathBits := padStart _ _ _).
  destruct (descend_full _ pathBits _ _ 0 _ F) as [Hlen Hall].
  set (pathNodes := root tree :: descend pathBits 0 (branchesCount pattern)
                                         (Some (root tree))).
  assert (Hn : List.length pathNodes = (branchesCount pattern + 1)%nat).
  { unfold pathNodes. simpl. rewrite Hlen. lia. }
  assert (Hact : Forall (fun n => active_count n = length (trunk pattern)) pathNodes).
  { eapply Forall_impl.
    - unfold pathNodes. constructor; [|exact Hall].
      destruct (branchesCount pattern); apply F.
    - intros n Hnode. apply trunk_framed_active_count; assumption. }
  assert (Hsize :
    List.length
      (fst (collect_steps random (playbackOrder (trunk pattern))
              (fst match branchPlaybackOrder pattern with
                   | BranchPlaybackOrder.forward => (pathNodes, k)
                   | BranchPlaybackOrder.reverse => (rev pathNodes, k)
                   | BranchPlaybackOrder.pendulum => (pendulum_order pathNodes, k)
                   | BranchPlaybackOrder.random => shuffle random pathNodes k
                   end)
              (snd match branchPlaybackOrder pattern with
                   | BranchPlaybackOrder.forward => (pathNodes, k)
                   | BranchPlaybackOrder.reverse => (rev pathNodes, k)
                   | BranchPlaybackOrder.pendulum => (pendulum_order pathNodes, k)
                   | BranchPlaybackOrder.random => shuffle random pathNodes k
                   end)))
    = (branch_visits (branchPlaybackOrder pattern) (branchesCount pattern + 1)
       * step_visits (playbackOrder (trunk pattern)) (length (trunk pattern)))%nat).
  { rewrite (collect_steps_length random _ (length (trunk pattern)))
      by (apply ordered_nodes_Forall, Hact).
    rewrite ordered_nodes_length, Hn. reflexivity. }
  split; [exact Hsize|].
  intros Hb Hs. rewrite Hsize.
  destruct (branchPlaybackOrder pattern), (playbackOrder (trunk pattern));
    try congruence; reflexivity.
Qed.

(** C1 fails on the code: with no branches, a trunk of three active steps
    played as a pendulum flattens to four steps, not [(0 + 1) * 3]; and with
    two branches a pendulum over the path visits four nodes, giving twelve
    steps, not [(2 + 1) * 3]. *)
Lemma pendulum_lengthens_playback :
  playback_length (fun _ => 0%Q)
    (regenerated (fun _ => 0)
       (example_pattern 0 BranchPlaybackOrder.forward PlaybackOrder.pendulum))
  = Some 4%nat /\
  playback_length (fun _ => 0%Q)
    (regenerated (fun _ => 0)
       (example_pattern 2 BranchPlaybackOrder.pendulum PlaybackOrder.forward))
  = Some 12%nat /\
  4%nat <> ((0 + 1) * length (three_step_trunk PlaybackOrder.pendulum))%nat /\
  12%nat <> ((2 + 1) * length (three_step_trunk PlaybackOrder.forward))%nat.
Proof. repeat split; vm_compute; congruence. Qed.

(** ** Step scheduler *)

Section SchedulerFacts.
Variable random : nat -> Q.

(** C6: the pendulum index.  For [L > 1], with [C = 2L - 2] and
    [pos = n mod C], it is [pos] when [pos < L] and [C - pos] otherwise; for
    [L <= 1] it is [0]; for [L = 4] the counters [0..7] give
    [0,1,2,3,2,1,0,1]. *)
Theorem pendulum_index_resolution (seq : Sequence) (n : Z) (k : nat) :
  playbackOrder seq = PlaybackOrder.pendulum ->
  0 <= n ->
  let L := Z.of_nat (length seq) in
  let C := 2 * L - 2 in
  let pos := n mod C in
  (1 < L -> fst (getStepIndexAtTick random seq n k)
            = if pos <? L then pos else C - pos) /\
  (L <= 1 -> fst (getStepIndexAtTick random seq n k) = 0) /\
  (L = 4 -> map (fun c => fst (getStepIndexAtTick random seq c k))
                [0; 1; 2; 3; 4; 5; 6; 7]
            = [0; 1; 2; 3; 2; 1; 0; 1]).
Proof.
  intros Ho Hn L C pos. unfold getStepIndexAtTick. rewrite Ho. fold L.
  repeat split.
  - intros HL.
    destruct (Z.eqb_spec L 0); [lia|].
    destruct (Z.leb_spec L 1); [lia|]. cbn [fst].
    rewrite Z.rem_mod_nonneg by lia. reflexivity.
  - intros HL.
    destruct (Z.eqb_spec L 0); [reflexivity|].
    destruct (Z.leb_spec L 1); [reflexivity | lia].
  - intros ->. reflexivity.
Qed.

(** C9: for a sequence with [L >= 1] active steps and a counter [n >= 0] the
    resolved index lies in [[0, L)], whatever the playback order, so it reads
    a stored step whenever the buffer holds the active prefix; for [L = 0]
    the index is [0].  [Math.random ()] is taken in [[0, 1)]. *)
Theorem step_index_in_range (seq : Sequence) (n : Z) (k : nat) :
  (forall j, (0 <= random j)%Q /\ (random j < 1)%Q) ->
  0 <= n ->
  let L := Z.of_nat (length seq) in
  let index := fst (getStepIndexAtTick random seq n k) in
  (1 <= L -> 0 <= index < L) /\
  (1 <= L -> (length seq <= List.length (steps seq))%nat ->
   is_Some (step_at seq index)) /\
  (L = 0 -> index = 0).
Proof.
  intros Hr Hn L index.
  assert (Hrange : 1 <= L -> 0 <= index < L).
  { intros HL. subst index. unfold getStepIndexAtTick. fold L.
    destruct (Z.eqb_spec L 0); [lia|].
    destruct (playbackOrder seq); cbn [fst].
    - rewrite Z.rem_mod_nonneg by lia. apply Z.mod_pos_bound. lia.
    - rewrite Z.rem_mod_nonneg by lia.
      pose proof (Z.mod_pos_bound n L ltac:(lia)). lia.
    - destruct (Z.leb_spec L 1); cbn [fst]; [lia|].
      rewrite Z.rem_mod_nonneg by lia.
      pose proof (Z.mod_pos_bound n (2 * L - 2) ltac:(lia)).
      destruct (Z.ltb_spec (n mod (2 * L - 2)) L); lia.
    - apply floor_random_bounds; [apply Hr | lia]. }
  split; [exact Hrange|]. split.
  - intros HL Hbuf. specialize (Hrange HL). unfold step_at.
    destruct (Z.ltb_spec index 0); [lia|].
    apply lookup_lt_is_Some_2. subst L. lia.
  - intros HL. subst index. unfold getStepIndexAtTick. fold L.
    rewrite HL. reflexivity.
Qed.

(** C8: a tick on a sequence of length [0] returns at once: no trigger, the
    tick state as it was. *)
Theorem zero_length_tick_is_silent
    (engine : Engine) (channel : Channel) (time : Q)
    (channelState : ChannelState) (k : nat) (sequence : Sequence) (k' : nat) :
  playing_sequence random channel k = Some (sequence, k') ->
  length sequence = 0%nat ->
  processChannel random engine channel time channelState k
  = Some (channelState, [], k').
Proof.
  intros Hseq Hlen. unfold processChannel.
  rewrite Hseq. cbn [mbind option_bind]. rewrite Hlen. reflexivity.
Qed.
End SchedulerFacts.

(** * Further properties of the code *)

(** ** Quantizer: nearest note, order, ties *)

Lemma quantizePitch_offset (p : Z) (s : ScaleName) :
  quantizePitch p s - p = quantizePitch (p mod 12) s - p mod 12.
Proof.
  rewrite (quantizePitch_decomp p s).
  pose proof (Z.div_mod p 12 ltac:(lia)). lia.
Qed.

Lemma quantizePitch_residue_close (r : Z) (s : ScaleName) :
  0 <= r < 12 -> -1 <= quantizePitch r s - r <= 1.
Proof.
  intros Hr. destruct s; each_residue Hr; vm_compute; split; discriminate.
Qed.

(** An integer pitch is quantized to a note of the scale at most one semitone
    away, and no note of the scale, in any octave, is closer.  (A fractional
    pitch can land an octave off: the octave is taken from the pitch itself,
    the note from the rounded pitch.) *)
Theorem quantizePitch_nearest (p x : Z) (s : ScaleName) :
  s <> unquantized ->
  In (quantizePitch p s mod 12) (SCALES s) /\
  Z.abs (quantizePitch p s - p) <= 1 /\
  (In (x mod 12) (SCALES s) ->
   Z.abs (quantizePitch p s - p) <= Z.abs (x - p)).
Proof.
  intros Hs.
  assert (Hclose : -1 <= quantizePitch p s - p <= 1).
  { rewrite quantizePitch_offset. apply quantizePitch_residue_close.
    apply Z.mod_pos_bound. lia. }
  split; [apply quantizePitch_in_scale, Hs|]. split; [lia|].
  intros Hx. destruct (Z.eq_dec x p) as [->|Hne]; [|lia].
  rewrite (quantizePitch_fixes_in_scale p s Hx). lia.
Qed.

Lemma quantizePitch_residue_step (r : Z) (s : ScaleName) :
  0 <= r < 12 -> quantizePitch r s <= quantizePitch (r + 1) s.
Proof.
  intros Hr. destruct s; each_residue Hr; vm_compute; discriminate.
Qed.

Lemma quantizePitch_step (p : Z) (s : ScaleName) :
  quantizePitch p s <= quantizePitch (p + 1) s.
Proof.
  pose proof (Z.div_mod p 12 ltac:(lia)) as Hp.
  pose proof (Z.mod_pos_bound p 12 ltac:(lia)) as Hr.
  pose proof (quantizePitch_residue_step (p mod 12) s Hr) as Hstep.
  replace (p + 1) with (p mod 12 + 1 + 12 * (p / 12)) by lia.
  rewrite quantizePitch_shift, (quantizePitch_decomp p s). lia.
Qed.

(** Quantization keeps the order of integer pitches. *)
Theorem quantizePitch_monotone (p q : Z) (s : ScaleName) :
  p <= q -> quantizePitch p s <= quantizePitch q s.
Proof.
  intros Hpq. replace q with (p + Z.of_nat (Z.to_nat (q - p))) by lia.
  induction (Z.to_nat (q - p)) as [|n IH].
  - rewrite Z.add_0_r. lia.
  - etransitivity; [exact IH|].
    replace (p + Z.of_nat (S n)) with (p + Z.of_nat n + 1) by lia.
    apply quantizePitch_step.
Qed.

Lemma quantizePitch_residue_tie (r : Z) (s : ScaleName) :
  0 <= r < 12 ->
  In ((r - 1) mod 12) (SCALES s) -> ~ In r (SCALES s) ->
  quantizePitch r s = r - 1.
Proof.
  intros Hr. destruct s; each_residue Hr; vm_compute;
    intuition (try reflexivity; try discriminate).
Qed.

(** A pitch outside the scale whose lower neighbour is in the scale goes
    down to it, also when the upper neighbour is in the scale as well: ties
    resolve downwards. *)
Theorem quantizePitch_ties_go_down (p : Z) (s : ScaleName) :
  In ((p - 1) mod 12) (SCALES s) -> ~ In (p mod 12) (SCALES s) ->
  quantizePitch p s = p - 1.
Proof.
  intros Hlow Hout.
  pose proof (Z.div_mod p 12 ltac:(lia)) as Hp.
  pose proof (Z.mod_pos_bound p 12 ltac:(lia)) as Hr.
  rewrite (quantizePitch_decomp p s).
  rewrite quantizePitch_residue_tie; [lia | exact Hr | | exact Hout].
  replace ((p mod 12 - 1) mod 12) with ((p - 1) mod 12); [exact Hlow|].
  replace (p - 1) with (p mod 12 - 1 + p / 12 * 12) by lia.
  apply Z.mod_add. lia.
Qed.

(** ** Modifications: how they compose

    First in exact integer arithmetic, then, for integer pitches of moderate
    size, in the engine's own binary64 arithmetic. *)

Lemma transposeSequence_eq (seq : Sequence) (n : Z) :
  transposeSequence seq n
  = with_steps seq (map (fun step => with_pitch step (pitch step + n)) (steps seq)).
Proof. unfold transposeSequence. rewrite cloneSequence_id. reflexivity. Qed.

Lemma with_pitch_same (s : Step) : with_pitch s (pitch s) = s.
Proof. destruct s; reflexivity. Qed.

Lemma transposeSequence_adds (seq : Sequence) (a b : Z) :
  transposeSequence (transposeSequence seq a) b = transposeSequence seq (a + b) /\
  transposeSequence seq 0 = seq /\
  transposeSequence (transposeSequence seq a) (- a) = seq.
Proof.
  assert (Hadd : forall x y,
             transposeSequence (transposeSequence seq x) y
             = transposeSequence seq (x + y)).
  { intros x y. rewrite !transposeSequence_eq. cbn [steps with_steps].
    unfold with_steps; simpl. f_equal. rewrite map_map.
    apply map_ext. intros s. unfold with_pitch; simpl. f_equal. lia. }
  assert (Hzero : transposeSequence seq 0 = seq).
  { rewrite transposeSequence_eq.
    rewrite (map_ext _ (fun s => s)), map_id; [apply with_steps_id|].
    intros s. rewrite Z.add_0_r. apply with_pitch_same. }
  split; [apply Hadd|]. split; [exact Hzero|].
  rewrite Hadd, Z.add_opp_diag_r. exact Hzero.
Qed.

Lemma fold_min_shift (l : list Z) (a n : Z) :
  fold_left Z.min (map (fun p => p + n) l) (a + n) = fold_left Z.min l a + n.
Proof.
  revert a; induction l as [|x l IH]; intros a; simpl; [reflexivity|].
  rewrite Z.add_min_distr_r. apply IH.
Qed.

Lemma fold_max_shift (l : list Z) (a n : Z) :
  fold_left Z.max (map (fun p => p + n) l) (a + n) = fold_left Z.max l a + n.
Proof.
  revert a; induction l as [|x l IH]; intros a; simpl; [reflexivity|].
  rewrite Z.add_max_distr_r. apply IH.
Qed.

Lemma invert_transpose_integers (seq : Sequence) (n : Z) :
  invertSequence (transposeSequence seq n)
  = transposeSequence (invertSequence seq) n.
Proof.
  destruct (steps seq) as [|s rest] eqn:E.
  - rewrite (invertSequence_nil seq E).
    apply invertSequence_nil. rewrite transposeSequence_steps, E. reflexivity.
  - rewrite (invertSequence_cons seq s rest E).
    rewrite (invertSequence_cons (transposeSequence seq n)
               (with_pitch s (pitch s + n))
               (map (fun step => with_pitch step (pitch step + n)) rest))
      by (rewrite transposeSequence_steps, E; reflexivity).
    assert (Hlo : buffer_min (with_pitch s (pitch s + n))
                    (map (fun step => with_pitch step (pitch step + n)) rest)
                  = buffer_min s rest + n).
    { unfold buffer_min. rewrite map_map. cbn [pitch with_pitch].
      rewrite <- (map_map pitch (fun p => p + n)). apply fold_min_shift. }
    assert (Hhi : buffer_max (with_pitch s (pitch s + n))
                    (map (fun step => with_pitch step (pitch step + n)) rest)
                  = buffer_max s rest + n).
    { unfold buffer_max. rewrite map_map. cbn [pitch with_pitch].
      rewrite <- (map_map pitch (fun p => p + n)). apply fold_max_shift. }
    rewrite Hlo, Hhi, !transposeSequence_eq. cbn [steps with_steps].
    unfold with_steps; simpl. f_equal. rewrite !map_map.
    apply map_ext. intros t. unfold mirror, with_pitch; simpl. f_equal. lia.
Qed.

Lemma invertSequence_range_integers (seq : Sequence) (s : Step) (rest : list Step) :
  steps seq = s :: rest ->
  Forall2 (fun a b => pitch a + pitch b = buffer_min s rest + buffer_max s rest /\
                      buffer_min s rest <= pitch b <= buffer_max s rest)
          (steps seq) (steps (invertSequence seq)) /\
  (exists s' rest', steps (invertSequence seq) = s' :: rest' /\
                    buffer_min s' rest' = buffer_min s rest /\
                    buffer_max s' rest' = buffer_max s rest).
Proof.
  intros E. rewrite (invertSequence_cons seq s rest E). cbn [steps with_steps].
  rewrite E. split.
  - assert (Hrange : forall t, In t (s :: rest) ->
                        buffer_min s rest <= pitch t <= buffer_max s rest).
    { intros t [<-|Ht].
      - split; [apply fold_min_le_init | apply fold_max_ge_init].
      - split; [apply fold_min_le_all | apply fold_max_ge_all];
          apply in_map, Ht. }
    revert Hrange. generalize (s :: rest) as l.
    induction l as [|t l IH]; intros Hrange; simpl; constructor.
    + specialize (Hrange t (or_introl eq_refl)). simpl. lia.
    + apply IH. intros u Hu. apply Hrange. right. exact Hu.
  - eexists _, _. split; [reflexivity|].
    exact (buffer_bounds_mirror s rest).
Qed.

(** ** The modifications in binary64

    Sums, differences and comparisons of small integers are exact in
    binary64.  The four tables below are computed; everything after them is
    read off the tables. *)

Lemma in_upto (n : nat) (from x : Z) :
  from <= x < from + Z.of_nat n -> In x (upto n from).
Proof.
  revert from; induction n as [|n IH]; intros from H; [lia|].
  cbn [upto]. destruct (Z.eq_dec x from) as [->|Hne]; [left; reflexivity|].
  right. apply IH. lia.
Qed.

Lemma table_entry {A : Type} (rows cols : list Z) (f g : Z -> Z -> A) (a b : Z) :
  table rows cols f = table rows cols g ->
  In a rows -> In b cols -> f a b = g a b.
Proof.
  unfold table. intros H Ha Hb.
  pose proof (proj1 List.map_ext_in_iff H a Ha) as Hrow. cbv beta in Hrow.
  exact (proj1 List.map_ext_in_iff Hrow b Hb).
Qed.

Lemma sub_table :
  table (upto 255 (-127)) (upto 382 (-127)) (fun a b => (double a - double b)%float)
  = table (upto 255 (-127)) (upto 382 (-127)) (fun a b => double (a - b)).
Proof. vm_compute. reflexivity. Qed.

Lemma add_table :
  table (upto 509 (-254)) (upto 509 (-254)) (fun a b => (double a + double b)%float)
  = table (upto 509 (-254)) (upto 509 (-254)) (fun a b => double (a + b)).
Proof. vm_compute. reflexivity. Qed.

Lemma ltb_table :
  table (upto 255 (-127)) (upto 255 (-127)) (fun a b => (double a <? double b)%float)
  = table (upto 255 (-127)) (upto 255 (-127)) (fun a b => a <? b).
Proof. vm_compute. reflexivity. Qed.

Lemma infinity_table :
  table [0] (upto 255 (-127))
    (fun _ a => ((double a <? infinity)%float, (neg_infinity <? double a)%float))
  = table [0] (upto 255 (-127)) (fun _ _ => (true, true)).
Proof. vm_compute. reflexivity. Qed.

Lemma double_sub (a b : Z) :
  within 127 a -> -127 <= b <= 254 ->
  (double a - double b)%float = double (a - b).
Proof.
  unfold within. intros Ha Hb.
  apply (table_entry _ _ _ _ a b sub_table); apply in_upto; lia.
Qed.

Lemma double_add (a b : Z) :
  within 254 a -> within 254 b ->
  (double a + double b)%float = double (a + b).
Proof.
  unfold within. intros Ha Hb.
  apply (table_entry _ _ _ _ a b add_table); apply in_upto; lia.
Qed.

Lemma double_ltb (a b : Z) :
  within 127 a -> within 127 b ->
  (double a <? double b)%float = (a <? b).
Proof.
  unfold within. intros Ha Hb.
  apply (table_entry _ _ _ _ a b ltb_table); apply in_upto; lia.
Qed.

Lemma double_finite (a : Z) :
  within 127 a ->
  (double a <? infinity)%float = true /\ (neg_infinity <? double a)%float = true.
Proof.
  unfold within. intros Ha.
  pose proof (table_entry _ _ _ _ 0 a infinity_table (or_introl eq_refl)
                (in_upto 255 (-127) a ltac:(lia))) as H.
  cbv beta in H. injection H as H1 H2. auto.
Qed.

(** *** On small integer pitches the integer model computes what the engine
    computes *)

Lemma Binary64_cloneSequence_id (seq : Binary64.Sequence) :
  Binary64.cloneSequence seq = seq.
Proof.
  unfold Binary64.cloneSequence.
  rewrite (map_ext Binary64.cloneStep (fun s => s)), map_id;
    [destruct seq; reflexivity|].
  intros s. destruct s; reflexivity.
Qed.

Lemma double_minmax_from (l : list Step) (a b : Z) :
  within 127 a -> within 127 b -> pitches_within 127 l ->
  fold_left Binary64.minmax_step (map double_step l) (double a, double b)
  = (double (fold_left Z.min (map pitch l) a),
     double (fold_left Z.max (map pitch l) b)).
Proof.
  revert a b; induction l as [|s l IH]; intros a b Ha Hb Hl; [reflexivity|].
  apply Forall_cons in Hl as [Hs Hl].
  cbn [map fold_left]. unfold Binary64.minmax_step at 2.
  cbn [fst snd Binary64.pitch double_step].
  rewrite !double_ltb by assumption.
  destruct (Z.ltb_spec (pitch s) a), (Z.ltb_spec b (pitch s));
    rewrite IH by assumption; repeat f_equal; lia.
Qed.

Lemma double_minmax (s : Step) (rest : list Step) :
  pitches_within 127 (s :: rest) ->
  fold_left Binary64.minmax_step (map double_step (s :: rest))
            (infinity, neg_infinity)
  = (double (buffer_min s rest), double (buffer_max s rest)).
Proof.
  intros Hl. pose proof Hl as Hl'. apply Forall_cons in Hl' as [Hs Hrest].
  cbn [map fold_left]. unfold Binary64.minmax_step at 2.
  cbn [fst snd Binary64.pitch double_step].
  destruct (double_finite (pitch s) Hs) as [-> ->].
  apply double_minmax_from; assumption.
Qed.

Lemma buffer_bounds_within (r : Z) (s : Step) (rest : list Step) :
  pitches_within r (s :: rest) ->
  within r (buffer_min s rest) /\ within r (buffer_max s rest) /\
  Forall (fun x => buffer_min s rest <= pitch x <= buffer_max s rest) (s :: rest).
Proof.
  intros Hl.
  assert (Hin : forall p, In p (pitch s :: map pitch rest) -> within r p).
  { intros p Hp. change (In p (map pitch (s :: rest))) in Hp.
    apply in_map_iff in Hp as (x & <- & Hx).
    unfold pitches_within in Hl. rewrite List.Forall_forall in Hl. auto. }
  split; [apply Hin, fold_min_in|]. split; [apply Hin, fold_max_in|].
  apply List.Forall_forall. intros x [<-|Hx].
  - split; [apply fold_min_le_init | apply fold_max_ge_init].
  - split; [apply fold_min_le_all | apply fold_max_ge_all]; apply in_map, Hx.
Qed.

Lemma invertSequence_within (r : Z) (seq : Sequence) :
  pitches_within r (steps seq) -> pitches_within r (steps (invertSequence seq)).
Proof.
  intros Hl. destruct (steps seq) as [|s rest] eqn:E.
  - rewrite (invertSequence_nil seq E), E. constructor.
  - rewrite (invertSequence_cons seq s rest E). cbn [steps with_steps].
    rewrite E.
    destruct (buffer_bounds_within r s rest Hl) as (Hlo & Hhi & Hall).
    unfold pitches_within. apply List.Forall_map.
    eapply List.Forall_impl; [|exact Hall].
    intros x Hx. unfold mirror, with_pitch; cbn [pitch].
    unfold within in *. lia.
Qed.

Lemma double_invert (seq : Sequence) :
  pitches_within 127 (steps seq) ->
  Binary64.invertSequence (double_sequence seq)
  = double_sequence (invertSequence seq).
Proof.
  intros Hl. unfold Binary64.invertSequence.
  rewrite Binary64_cloneSequence_id.
  assert (Hsteps : Binary64.steps (double_sequence seq)
                   = map double_step (steps seq)) by reflexivity.
  rewrite !Hsteps.
  destruct (steps seq) as [|s rest] eqn:E.
  - rewrite (invertSequence_nil seq E). reflexivity.
  - rewrite (invertSequence_cons seq s rest E).
    rewrite (double_minmax s rest Hl).
    destruct (buffer_bounds_within 127 s rest Hl) as (Hlo & Hhi & Hall).
    set (lo := buffer_min s rest) in *. set (hi := buffer_max s rest) in *.
    assert (Hpoint : forall x, In x (s :: rest) ->
              Binary64.with_pitch (double_step x)
                (double hi - (Binary64.pitch (double_step x) - double lo))%float
              = double_step (mirror lo hi x)).
    { intros x Hx.
      unfold pitches_within in Hl. rewrite List.Forall_forall in Hl, Hall.
      specialize (Hl x Hx). specialize (Hall x Hx). cbv beta in Hl, Hall.
      unfold Binary64.with_pitch, double_step, mirror, with_pitch.
      cbn [Binary64.pitch Binary64.gateOn Binary64.ratchets Binary64.slew
           Binary64.gateLength Binary64.depth Binary64.originalIndex
           pitch gateOn ratchets slew gateLength depth originalIndex].
      rewrite (double_sub (pitch x) lo Hl) by (unfold within in *; lia).
      rewrite (double_sub hi _ Hhi) by (unfold within in *; lia).
      reflexivity. }
    cbn [List.length map Nat.eqb fst snd]. cbv zeta.
    unfold double_sequence, Binary64.with_steps, with_steps.
    cbn [Binary64.length Binary64.scale Binary64.playbackOrder
         steps length scale playbackOrder map].
    f_equal. rewrite E. cbn [map]. f_equal; [apply Hpoint; left; reflexivity|].
    rewrite !map_map. apply map_ext_in. intros x Hx. apply Hpoint. right. exact Hx.
Qed.

Lemma double_transpose (seq : Sequence) (n : Z) :
  pitches_within 254 (steps seq) -> within 254 n ->
  Binary64.transposeSequence (double_sequence seq) (double n)
  = double_sequence (transposeSequence seq n).
Proof.
  intros Hl Hn. unfold Binary64.transposeSequence.
  rewrite Binary64_cloneSequence_id, transposeSequence_eq.
  unfold double_sequence, Binary64.with_steps, with_steps.
  cbn [Binary64.steps Binary64.length Binary64.scale Binary64.playbackOrder
       steps length scale playbackOrder].
  f_equal. rewrite !map_map. apply map_ext_in. intros x Hx.
  unfold pitches_within in Hl. rewrite List.Forall_forall in Hl.
  specialize (Hl x Hx). cbv beta in Hl.
  unfold Binary64.with_pitch, double_step, with_pitch.
  cbn [Binary64.pitch Binary64.gateOn Binary64.ratchets Binary64.slew
       Binary64.gateLength Binary64.depth Binary64.originalIndex
       pitch gateOn ratchets slew gateLength depth originalIndex].
  rewrite (double_add _ _ Hl Hn). reflexivity.
Qed.

Lemma transposeSequence_within (r n : Z) (seq : Sequence) :
  pitches_within r (steps seq) -> 0 <= r ->
  pitches_within (r + Z.abs n) (steps (transposeSequence seq n)).
Proof.
  intros Hl Hr. rewrite transposeSequence_eq. cbn [steps with_steps].
  unfold pitches_within in *. apply List.Forall_map.
  eapply List.Forall_impl; [|exact Hl].
  intros x Hx. cbn [pitch with_pitch]. unfold within in *. lia.
Qed.

Lemma pitches_within_weaken (r r' : Z) (l : list Step) :
  r <= r' -> pitches_within r l -> pitches_within r' l.
Proof.
  intros Hr. apply List.Forall_impl. intros x. unfold within. lia.
Qed.

(** A stored buffer of integer pitches is the image of an integer buffer. *)
Lemma integer_steps (r : Z) (l : list Binary64.Step) :
  Forall (integer_pitch r) l ->
  exists zl, l = map double_step zl /\ pitches_within r zl.
Proof.
  induction 1 as [|ds l (z & Hz & Hp) _ (zl & -> & Hzl)].
  - exists []. split; [reflexivity | constructor].
  - exists ({| pitch := z; gateOn := Binary64.gateOn ds;
               ratchets := Binary64.ratchets ds; slew := Binary64.slew ds;
               gateLength := Binary64.gateLength ds;
               depth := Binary64.depth ds;
               originalIndex := Binary64.originalIndex ds |} :: zl).
    split; [|constructor; assumption].
    cbn [map]. f_equal. destruct ds. cbn in *. subst. reflexivity.
Qed.

Lemma integer_sequence (r : Z) (seq : Binary64.Sequence) :
  Forall (integer_pitch r) (Binary64.steps seq) ->
  exists zseq, seq = double_sequence zseq /\ pitches_within r (steps zseq).
Proof.
  intros H. destruct (integer_steps r _ H) as (zl & Hl & Hzl).
  exists {| steps := zl; length := Binary64.length seq;
            scale := Binary64.scale seq;
            playbackOrder := Binary64.playbackOrder seq |}.
  split; [|exact Hzl].
  destruct seq. cbn in *. subst. reflexivity.
Qed.

Lemma double_sequence_integer (r : Z) (seq : Sequence) :
  pitches_within r (steps seq) ->
  Forall (integer_pitch r) (Binary64.steps (double_sequence seq)).
Proof.
  intros H. cbn [Binary64.steps double_sequence]. apply List.Forall_map.
  eapply List.Forall_impl; [|exact H].
  intros s Hs. exists (pitch s). split; [exact Hs | reflexivity].
Qed.

(** *** Inversion twice

    C5, as corrected: on a buffer of integer pitches between [-127] and [127]
    the engine's [invertSequence], applied twice, gives back the sequence it
    started from, so the pitch of every active step is restored exactly. *)
Theorem invert_involution_integer_pitches (seq : Binary64.Sequence) (i : nat) :
  Forall (integer_pitch 127) (Binary64.steps seq) ->
  (1 <= Binary64.length seq)%nat -> (i < Binary64.length seq)%nat ->
  Binary64.invertSequence (Binary64.invertSequence seq) = seq /\
  Binary64.pitch
    <$> Binary64.steps (Binary64.invertSequence (Binary64.invertSequence seq)) !! i
  = Binary64.pitch <$> Binary64.steps seq !! i.
Proof.
  intros Hint _ _.
  destruct (integer_sequence 127 seq Hint) as (zseq & -> & Hz).
  assert (E : Binary64.invertSequence (Binary64.invertSequence (double_sequence zseq))
              = double_sequence zseq).
  { rewrite (double_invert zseq Hz).
    rewrite (double_invert _ (invertSequence_within 127 zseq Hz)).
    rewrite invertSequence_involutive. reflexivity. }
  rewrite E. split; reflexivity.
Qed.

(** C5, as stated, fails on fractional pitches: on a buffer that a mutation
    by the default range 0.3 has touched, the second inversion returns
    [-0.2999999999999998] where [-0.3] was stored. *)
#[warnings="-inexact-float"]
Lemma invert_twice_drifts_on_fractions :
  (1 <= Binary64.length fractional_sequence)%nat /\
  (0 < Binary64.length fractional_sequence)%nat /\
  Binary64.pitch <$> Binary64.steps fractional_sequence !! 0%nat
  = Some (-0.3)%float /\
  Binary64.pitch
    <$> Binary64.steps
          (Binary64.invertSequence (Binary64.invertSequence fractional_sequence))
        !! 0%nat
  = Some (-0.2999999999999998)%float /\
  ((-0.2999999999999998) =? (-0.3))%float = false /\
  map Binary64.pitch
      (Binary64.steps
         (Binary64.invertSequence (Binary64.invertSequence fractional_sequence)))
  = [(-0.2999999999999998)%float; 4%float; 6.7%float].
Proof.
  split; [simpl; lia|]. split; [simpl; lia|].
  repeat split; reflexivity.
Qed.

(** *** Composition in binary64 *)

(** For integer pitches and offsets between [-127] and [127] the engine's
    transpositions add up, transposing by [0] changes nothing, and
    transposing by [-a] undoes transposing by [a]. *)
Theorem transpose_compose_binary64 (seq : Binary64.Sequence) (a b : Z) :
  Forall (integer_pitch 127) (Binary64.steps seq) ->
  within 127 a -> within 127 b ->
  Binary64.transposeSequence (Binary64.transposeSequence seq (double a)) (double b)
  = Binary64.transposeSequence seq (double (a + b)) /\
  Binary64.transposeSequence seq (double 0) = seq /\
  Binary64.transposeSequence (Binary64.transposeSequence seq (double a))
                             (double (- a))
  = seq.
Proof.
  intros Hint Ha Hb.
  destruct (integer_sequence 127 seq Hint) as (zseq & -> & Hz).
  pose proof (pitches_within_weaken 127 254 _ ltac:(lia) Hz) as Hz'.
  assert (Hmoved : pitches_within 254 (steps (transposeSequence zseq a))).
  { eapply pitches_within_weaken;
      [|apply (transposeSequence_within 127 a zseq Hz); lia].
    unfold within in Ha. lia. }
  destruct (transposeSequence_adds zseq a b) as (Hadd & Hzero & Hback).
  unfold within in Ha, Hb.
  rewrite !(double_transpose zseq) by (assumption || (unfold within; lia)).
  rewrite !(double_transpose (transposeSequence zseq a))
    by (assumption || (unfold within; lia)).
  rewrite Hadd, Hzero, Hback. auto.
Qed.

(** For integer pitches between [-63] and [63] and an integer offset between
    [-64] and [64], the engine's inversion and transposition commute. *)
Theorem invert_transpose_commute_binary64 (seq : Binary64.Sequence) (n : Z) :
  Forall (integer_pitch 63) (Binary64.steps seq) -> within 64 n ->
  Binary64.invertSequence (Binary64.transposeSequence seq (double n))
  = Binary64.transposeSequence (Binary64.invertSequence seq) (double n).
Proof.
  intros Hint Hn.
  destruct (integer_sequence 63 seq Hint) as (zseq & -> & Hz).
  unfold within in Hn.
  rewrite (double_transpose zseq n)
    by (unfold within; (eapply pitches_within_weaken; [|exact Hz]) || idtac; lia).
  rewrite (double_invert (transposeSequence zseq n)).
  2:{ eapply pitches_within_weaken;
        [|apply (transposeSequence_within 63 n zseq Hz); lia]. lia. }
  rewrite (double_invert zseq)
    by (eapply pitches_within_weaken; [|exact Hz]; lia).
  rewrite (double_transpose (invertSequence zseq) n).
  2:{ eapply pitches_within_weaken; [|apply invertSequence_within, Hz]. lia. }
  2:{ unfold within; lia. }
  rewrite invert_transpose_integers. reflexivity.
Qed.

(** On a buffer of integer pitches between [-127] and [127] the engine's
    inversion stores integers again: each pitch and its image add up to
    minimum plus maximum of the buffer, the image lies between the two, and
    the buffer's minimum and maximum stay what they were. *)
Theorem invert_range_binary64 (seq : Binary64.Sequence) (s : Step)
    (rest : list Step) :
  Binary64.steps seq = map double_step (s :: rest) ->
  pitches_within 127 (s :: rest) ->
  exists inverted,
    Binary64.steps (Binary64.invertSequence seq) = map double_step inverted /\
    Forall2 (fun a b => pitch a + pitch b = buffer_min s rest + buffer_max s rest /\
                        buffer_min s rest <= pitch b <= buffer_max s rest)
            (s :: rest) inverted /\
    exists s' rest', inverted = s' :: rest' /\
                     buffer_min s' rest' = buffer_min s rest /\
                     buffer_max s' rest' = buffer_max s rest.
Proof.
  intros Hsteps Hz.
  set (zseq := {| steps := s :: rest; length := Binary64.length seq;
                  scale := Binary64.scale seq;
                  playbackOrder := Binary64.playbackOrder seq |}).
  assert (E : seq = double_sequence zseq).
  { destruct seq. cbn in *. subst. reflexivity. }
  rewrite E, (double_invert zseq Hz).
  destruct (invertSequence_range_integers zseq s rest eq_refl) as [Hall Hbounds].
  exists (steps (invertSequence zseq)). split; [reflexivity|]. split; [exact Hall|].
  exact Hbounds.
Qed.

(** *** Mutation: how far and how many draws *)

Lemma mutate_steps_draws (jitter : nat -> Z) (l : list Step) (k : nat) :
  snd (mutate_steps jitter l k) = (k + gated_count l)%nat.
Proof.
  unfold gated_count.
  revert k; induction l as [|s l IH]; intros k; simpl; [lia|].
  destruct (gateOn s) eqn:G; simpl; rewrite IH; lia.
Qed.

Lemma mutate_steps_bounded (jitter : nat -> Z) (r : Z) (l : list Step) (k : nat) :
  (forall j, - r <= jitter j <= r) ->
  Forall2 (fun a b => if gateOn a then Z.abs (pitch b - pitch a) <= r else b = a)
          l (fst (mutate_steps jitter l k)).
Proof.
  intros Hj. revert k; induction l as [|s l IH]; intros k; simpl; [constructor|].
  destruct (gateOn s) eqn:G; simpl; constructor; auto; rewrite G; auto.
  simpl. specialize (Hj k). lia.
Qed.

(** A mutation with an integer range [r >= 1], its offsets drawn as the
    source draws them, moves the pitch of every stored step whose gate is on
    by at most [r] semitones and leaves the other steps as they are; it makes
    one draw per gated stored step, active or not. *)
Theorem mutateSequence_bounded
    (random : nat -> Q) (seq : Sequence) (r : Z) (k : nat) :
  (forall j, (0 <= random j)%Q /\ (random j < 1)%Q) ->
  1 <= r ->
  let mutated :=
    mutateSequence (fun j => integer_jitter (random j) r) seq (inject_Z r) k in
  Forall2 (fun a b => if gateOn a then Z.abs (pitch b - pitch a) <= r else b = a)
          (steps seq) (steps (fst mutated)) /\
  snd mutated = (k + gated_count (steps seq))%nat.
Proof.
  intros Hr Hpos mutated. subst mutated.
  assert (E : Qeq_bool (inject_Z r) 0 = false).
  { destruct r; try lia; reflexivity. }
  rewrite mutateSequence_nonzero by exact E. cbn [fst snd steps with_steps].
  split; [|apply mutate_steps_draws].
  apply mutate_steps_bounded. intros j.
  apply integer_jitter_range; [apply Hr | lia].
Qed.

(** [applyMutationToTrunk] touches nothing but the trunk, keeps the trunk's
    frame and every field of its steps but the pitch, and with a mutation
    amount of [0] returns the pattern as it was, without a draw. *)
Theorem applyMutationToTrunk_frame (jitter : nat -> Z) (pattern : Pattern) (k : nat) :
  let mutated := applyMutationToTrunk jitter pattern k in
  with_trunk (fst mutated) (trunk pattern) = pattern /\
  same_frame (trunk pattern) (trunk (fst mutated)) /\
  Forall2 same_but_pitch (steps (trunk pattern)) (steps (trunk (fst mutated))) /\
  (Qeq_bool (mutationAmount pattern) 0 = true -> mutated = (pattern, k)).
Proof.
  cbv zeta. unfold applyMutationToTrunk. cbn [fst snd trunk with_trunk].
  split; [destruct pattern; reflexivity|].
  split; [apply mutateSequence_frame|].
  split; [apply mutateSequence_fields|].
  intros E. rewrite mutateSequence_zero by exact E. cbn [fst snd].
  destruct pattern; reflexivity.
Qed.

(** ** Tree generation: frames and recipes *)

(** Every sequence of the generated tree has the trunk's [length], [scale],
    [playbackOrder] and buffer size, and the root holds the trunk itself. *)
Theorem generated_tree_keeps_frame
    (jitter : nat -> Z) (channel : Channel) (pattern : Pattern) (k : nat) :
  current_pattern channel = Some pattern ->
  (length (trunk pattern) <= List.length (steps (trunk pattern)))%nat ->
  exists tree k',
    generateTreeForChannel jitter channel k = Some (tree, k') /\
    TreeNode.sequence (root tree) = trunk pattern /\
    Forall (fun n => same_frame (trunk pattern) (TreeNode.sequence n))
           (TreeNode.nodes (root tree)).
Proof.
  intros Hpat Hwf.
  destruct (generateTreeForChannel_full (trunk_framed (trunk pattern)) jitter
              channel pattern k (trunk_framed_kept jitter _ Hwf)
              (same_frame_refl _) Hpat)
    as (tree & k' & Hgen & _ & Hroot & F).
  exists tree, k'. split; [exact Hgen|]. split; [exact Hroot|].
  eapply Forall_impl; [apply (full_nodes_complete _ _ _ _ F)|].
  intros n [_ Hn]. exact Hn.
Qed.

Lemma buildChildren_root_fields (jitter : nat -> Z) (pattern : Pattern)
    (maxDepth' fuel : nat) (node : TreeNode.t) (k : nat) :
  let built := fst (buildChildren jitter pattern maxDepth' fuel node k) in
  TreeNode.sequence built = TreeNode.sequence node /\
  TreeNode.depth built = TreeNode.depth node /\
  TreeNode.modificationFromParent built = TreeNode.modificationFromParent node.
Proof.
  destruct fuel; simpl;
    destruct (maxDepth' <=? TreeNode.depth node)%nat; simpl; auto.
Qed.

Lemma nodes_childless (node : TreeNode.t) :
  TreeNode.left node = None -> TreeNode.right node = None ->
  TreeNode.nodes node = [node].
Proof. destruct node; simpl; intros -> ->; reflexivity. Qed.

Lemma buildChildren_recipes (jitter : nat -> Z) (pattern : Pattern)
    (maxDepth' fuel : nat) (node : TreeNode.t) (k : nat) :
  TreeNode.left node = None -> TreeNode.right node = None ->
  Forall (follows_recipe jitter pattern)
         (TreeNode.nodes (fst (buildChildren jitter pattern maxDepth' fuel node k))).
Proof.
  revert node k; induction fuel as [|fuel IH]; intros node k Hl Hr.
  - simpl. destruct (maxDepth' <=? TreeNode.depth node)%nat; simpl;
      rewrite (nodes_childless node Hl Hr); repeat constructor;
      unfold follows_recipe; rewrite Hl, Hr; exact I.
  - simpl. destruct (maxDepth' <=? TreeNode.depth node)%nat.
    + simpl. rewrite (nodes_childless node Hl Hr). repeat constructor.
      unfold follows_recipe. rewrite Hl, Hr. exact I.
    + cbn [fst]. unfold TreeNode.with_children at 1. cbn [TreeNode.nodes].
      set (config := default default_config
                       (branchConfig pattern !! (TreeNode.depth node + 1 - 1)%nat)).
      set (l := apply_modification jitter (BranchConfig.left config)
                  (TreeNode.sequence node) (BranchConfig.leftParam config) k).
      set (r := apply_modification jitter (BranchConfig.right config)
                  (TreeNode.sequence node) (BranchConfig.rightParam config) (snd l)).
      set (freshL := TreeNode.fresh (fst l) (TreeNode.depth node + 1)
                       (Some (BranchConfig.left config))).
      set (freshR := TreeNode.fresh (fst r) (TreeNode.depth node + 1)
                       (Some (BranchConfig.right config))).
      set (bl := buildChildren jitter pattern maxDepth' fuel freshL (snd r)).
      set (br := buildChildren jitter pattern maxDepth' fuel freshR (snd bl)).
      constructor.
      * unfold follows_recipe. cbn [TreeNode.left TreeNode.right TreeNode.depth].
        assert (Hcfg : recipe_at pattern (TreeNode.depth node) = config).
        { unfold recipe_at, config. do 2 f_equal. lia. }
        rewrite Hcfg. cbv zeta.
        destruct (buildChildren_root_fields jitter pattern maxDepth' fuel freshL (snd r))
          as (Hs1 & Hd1 & Hm1).
        destruct (buildChildren_root_fields jitter pattern maxDepth' fuel freshR (snd bl))
          as (Hs2 & Hd2 & Hm2).
        fold bl in Hs1, Hd1, Hm1. fold br in Hs2, Hd2, Hm2.
        split; (split; [|split]).
        -- rewrite Hd1. simpl. lia.
        -- rewrite Hm1. reflexivity.
        -- exists k. rewrite Hs1. reflexivity.
        -- rewrite Hd2. simpl. lia.
        -- rewrite Hm2. reflexivity.
        -- exists (snd l). rewrite Hs2. reflexivity.
      * apply Forall_app. split; apply IH; reflexivity.
Qed.

(** The tree is built by the recipes: the root has no modification, and the
    two children of a node at depth [d] are its sequence modified by the left
    and the right side of [branchConfig[d]], or of the default recipe
    (transpose by [7] and by [-5]) where the pattern has no such entry. *)
Theorem generated_tree_follows_recipes
    (jitter : nat -> Z) (channel : Channel) (pattern : Pattern) (k : nat) :
  current_pattern channel = Some pattern ->
  exists tree k',
    generateTreeForChannel jitter channel k = Some (tree, k') /\
    TreeNode.modificationFromParent (root tree) = None /\
    Forall (follows_recipe jitter pattern) (TreeNode.nodes (root tree)) /\
    (forall d, branchConfig pattern !! d = None ->
               recipe_at pattern d
               = {| BranchConfig.left := ModificationKind.transpose;
                    BranchConfig.right := ModificationKind.transpose;
                    BranchConfig.leftParam := 7;
                    BranchConfig.rightParam := -5 |}).
Proof.
  intros Hpat. unfold generateTreeForChannel. rewrite Hpat.
  cbn [mbind option_bind].
  destruct (branchesCount pattern =? 0)%nat.
  - eexists _, _. split; [reflexivity|]. cbn [root].
    split; [reflexivity|]. split.
    + simpl. repeat constructor.
    + intros d Hd. unfold recipe_at. rewrite Hd. reflexivity.
  - eexists _, _. split; [reflexivity|]. cbn [root].
    split; [|split].
    + apply buildChildren_root_fields.
    + apply buildChildren_recipes; reflexivity.
    + intros d Hd. unfold recipe_at. rewrite Hd. reflexivity.
Qed.

(** ** Path selection *)

(** [buildPlaybackSequence] walks [path_nodes]. *)
Lemma buildPlaybackSequence_path (random : nat -> Q) (channel : Channel)
    (pattern : Pattern) (tree : GeneratedTree) (k : nat) :
  current_pattern channel = Some pattern ->
  generatedTree channel = Some tree ->
  buildPlaybackSequence random channel k
  = let orderedNodes :=
      match branchPlaybackOrder pattern with
      | BranchPlaybackOrder.forward => (path_nodes tree pattern, k)
      | BranchPlaybackOrder.reverse => (rev (path_nodes tree pattern), k)
      | BranchPlaybackOrder.pendulum => (pendulum_order (path_nodes tree pattern), k)
      | BranchPlaybackOrder.random => shuffle random (path_nodes tree pattern) k
      end in
    let collected :=
      collect_steps random (playbackOrder (trunk pattern))
                    (fst orderedNodes) (snd orderedNodes) in
    Some ({| steps := fst collected;
             length := List.length (fst collected);
             scale := scale (trunk pattern);
             playbackOrder := PlaybackOrder.forward |},
          snd collected).
Proof.
  intros Hpat Htree. unfold buildPlaybackSequence. rewrite Hpat, Htree.
  reflexivity.
Qed.

Lemma Qfloor_between (x : Q) (n : Z) :
  (inject_Z n <= x)%Q -> (x < inject_Z (n + 1))%Q -> Qfloor x = n.
Proof.
  intros Hlo Hhi.
  assert (n <= Qfloor x).
  { rewrite <- (Qfloor_Z n). apply Qfloor_resp_le, Hlo. }
  assert (Qfloor x < n + 1).
  { rewrite Zlt_Qlt. eapply Qle_lt_trans; [apply Qfloor_le | exact Hhi]. }
  lia.
Qed.

Lemma pow2_pos (b : nat) : 1 <= 2 ^ Z.of_nat b.
Proof. pose proof (Z.pow_pos_nonneg 2 (Z.of_nat b) ltac:(lia) ltac:(lia)). lia. Qed.

Lemma path_index_bounds (pattern : Pattern) :
  (0 <= pathValue pattern)%Q -> (pathValue pattern <= 1)%Q ->
  0 <= path_index pattern <= 2 ^ Z.of_nat (branchesCount pattern) - 1.
Proof.
  intros Hlo Hhi. unfold path_index, getEffectivePathValue.
  set (paths := 2 ^ Z.of_nat (branchesCount pattern)).
  pose proof (pow2_pos (branchesCount pattern)) as Hp. fold paths in Hp.
  assert (Hpos : (0 < inject_Z paths - (1 # 10000))%Q).
  { unfold Qlt, Qminus, Qplus, Qopp, inject_Z; simpl. lia. }
  split.
  - change 0 with (Qfloor 0). apply Qfloor_resp_le.
    apply Qmult_le_0_compat; [exact Hlo | apply Qlt_le_weak, Hpos].
  - assert (Qfloor (pathValue pattern * (inject_Z paths - (1 # 10000))) < paths);
      [|lia].
    rewrite Zlt_Qlt. eapply Qle_lt_trans; [apply Qfloor_le|].
    apply Qle_lt_trans with (1 * (inject_Z paths - (1 # 10000)))%Q.
    + apply Qmult_le_compat_r; [exact Hhi | apply Qlt_le_weak, Hpos].
    + unfold Qlt, Qmult, Qminus, Qplus, Qopp, inject_Z; simpl. lia.
Qed.

(** A path value in [[0, 1]] selects one of the [2^branchesCount] paths:
    [0] the first, [1] the last (the [0.0001] keeps it from overflowing),
    and the [j]-th of the [2^branchesCount] evenly spaced values the path
    [j]. *)
Theorem path_index_in_range (pattern : Pattern) :
  let paths := 2 ^ Z.of_nat (branchesCount pattern) in
  ((0 <= pathValue pattern)%Q -> (pathValue pattern <= 1)%Q ->
   0 <= path_index pattern <= paths - 1) /\
  (forall j, 0 <= j <= paths - 1 -> 2 <= paths ->
             (pathValue pattern == inject_Z j / inject_Z (paths - 1))%Q ->
             path_index pattern = j).
Proof.
  intros paths. unfold path_index, getEffectivePathValue. fold paths.
  pose proof (pow2_pos (branchesCount pattern)) as Hp. fold paths in Hp.
  assert (Hpos : (0 < inject_Z paths - (1 # 10000))%Q).
  { unfold Qlt, Qminus, Qplus, Qopp, inject_Z; simpl. lia. }
  split.
  - intros Hlo Hhi. exact (path_index_bounds pattern Hlo Hhi).
  - intros j Hj H2 Hv. apply Qfloor_between; rewrite Hv.
    + unfold Qle, Qdiv, Qmult, Qinv, Qminus, Qplus, Qopp, inject_Z.
      destruct (paths - 1) as [|q|q] eqn:Eq; try lia. simpl.
      assert (Hq : Z.pos q = paths - 1) by lia.
      rewrite !Pos2Z.inj_mul. rewrite Hq. nia.
    + unfold Qlt, Qdiv, Qmult, Qinv, Qminus, Qplus, Qopp, inject_Z.
      destruct (paths - 1) as [|q|q] eqn:Eq; try lia. simpl.
      assert (Hq : Z.pos q = paths - 1) by lia.
      rewrite !Pos2Z.inj_mul. rewrite Hq. nia.
Qed.

Lemma lookup_repeat {A : Type} (c : A) (n i : nat) :
  (i < n)%nat -> repeat c n !! i = Some c.
Proof.
  revert i; induction n as [|n IH]; intros i Hi; [lia|].
  destruct i; simpl; [reflexivity|]. apply IH. lia.
Qed.

Lemma binary_digits_length (p : positive) :
  List.length (binary_digits p) = Pos.size_nat p.
Proof.
  induction p as [q IH|q IH|]; simpl; rewrite ?length_app, ?IH; simpl; lia.
Qed.

Lemma binary_digits_lookup (p : positive) (i : nat) :
  (i < Pos.size_nat p)%nat ->
  binary_digits p !! i
  = Some (bit_char (Z.testbit (Z.pos p) (Z.of_nat (Pos.size_nat p - 1 - i)))).
Proof.
  revert i; induction p as [q IH|q IH|]; intros i Hi; cbn [binary_digits Pos.size_nat] in *.
  - destruct (Nat.lt_ge_cases i (Pos.size_nat q)) as [Hlt|Hge].
    + rewrite lookup_app_l by (rewrite binary_digits_length; exact Hlt).
      rewrite IH by exact Hlt.
      replace (S (Pos.size_nat q) - 1 - i)%nat
        with (S (Pos.size_nat q - 1 - i)) by lia.
      rewrite Nat2Z.inj_succ, Pos2Z.inj_xI, Z.testbit_odd_succ by lia.
      reflexivity.
    + rewrite lookup_app_r by (rewrite binary_digits_length; exact Hge).
      rewrite binary_digits_length.
      replace (i - Pos.size_nat q)%nat with 0%nat by lia.
      replace (S (Pos.size_nat q) - 1 - i)%nat with 0%nat by lia.
      reflexivity.
  - destruct (Nat.lt_ge_cases i (Pos.size_nat q)) as [Hlt|Hge].
    + rewrite lookup_app_l by (rewrite binary_digits_length; exact Hlt).
      rewrite IH by exact Hlt.
      replace (S (Pos.size_nat q) - 1 - i)%nat
        with (S (Pos.size_nat q - 1 - i)) by lia.
      rewrite Nat2Z.inj_succ, Pos2Z.inj_xO, Z.testbit_even_succ by lia.
      reflexivity.
    + rewrite lookup_app_r by (rewrite binary_digits_length; exact Hge).
      rewrite binary_digits_length.
      replace (i - Pos.size_nat q)%nat with 0%nat by lia.
      replace (S (Pos.size_nat q) - 1 - i)%nat with 0%nat by lia.
      reflexivity.
  - replace i with 0%nat by lia. reflexivity.
Qed.

Lemma size_nat_bound (p : positive) (b : nat) :
  Z.pos p < 2 ^ Z.of_nat b -> (Pos.size_nat p <= b)%nat.
Proof.
  revert b; induction p as [q IH|q IH|]; intros b Hb; cbn [Pos.size_nat].
  - destruct b as [|b]; [simpl in Hb; lia|].
    rewrite Nat2Z.inj_succ, Z.pow_succ_r in Hb by lia.
    specialize (IH b ltac:(lia)). lia.
  - destruct b as [|b]; [simpl in Hb; lia|].
    rewrite Nat2Z.inj_succ, Z.pow_succ_r in Hb by lia.
    specialize (IH b ltac:(lia)). lia.
  - destruct b as [|b]; [simpl in Hb; lia|]. lia.
Qed.

Lemma testbit_above_size (p : positive) (m : nat) :
  (Pos.size_nat p <= m)%nat -> Z.testbit (Z.pos p) (Z.of_nat m) = false.
Proof.
  revert m; induction p as [q IH|q IH|]; intros m Hm; cbn [Pos.size_nat] in Hm.
  - destruct m as [|m]; [lia|].
    rewrite Nat2Z.inj_succ, Pos2Z.inj_xI, Z.testbit_odd_succ by lia.
    apply IH. lia.
  - destruct m as [|m]; [lia|].
    rewrite Nat2Z.inj_succ, Pos2Z.inj_xO, Z.testbit_even_succ by lia.
    apply IH. lia.
  - destruct m as [|m]; [lia|]. reflexivity.
Qed.

(** The padded binary string of [n < 2^b], read at [i < b], is the bit of
    weight [2^(b-1-i)] of [n]: most significant bit first. *)
Lemma padded_bits (n : Z) (b i : nat) :
  0 <= n < 2 ^ Z.of_nat b -> (i < b)%nat ->
  padStart (toString2 n) b "0"%char !! i
  = Some (bit_char (Z.testbit n (Z.of_nat (b - 1 - i)))).
Proof.
  intros Hn Hi. unfold padStart. destruct n as [|p|p]; [| |lia].
  - rewrite Z.testbit_0_l. cbn [toString2 List.length bit_char].
    destruct (Nat.lt_ge_cases i (b - 1)) as [Hlt|Hge].
    + rewrite lookup_app_l by (rewrite repeat_length; exact Hlt).
      apply lookup_repeat, Hlt.
    + rewrite lookup_app_r by (rewrite repeat_length; exact Hge).
      rewrite repeat_length. replace (i - (b - 1))%nat with 0%nat by lia.
      reflexivity.
  - cbn [toString2]. rewrite binary_digits_length.
    pose proof (size_nat_bound p b ltac:(lia)) as Hs.
    destruct (Nat.lt_ge_cases i (b - Pos.size_nat p)) as [Hlt|Hge].
    + rewrite lookup_app_l by (rewrite repeat_length; exact Hlt).
      rewrite lookup_repeat by exact Hlt.
      rewrite testbit_above_size by lia. reflexivity.
    + rewrite lookup_app_r by (rewrite repeat_length; exact Hge).
      rewrite repeat_length, binary_digits_lookup by lia.
      do 4 f_equal. lia.
Qed.

(** The path string spells the path index in binary, most significant bit
    first: for a path value in [[0, 1]] its [i]-th character, [i] below
    [branchesCount], is the bit of weight [2^(branchesCount - 1 - i)]. *)
Theorem path_bits_binary (pattern : Pattern) (i : nat) :
  (0 <= pathValue pattern)%Q -> (pathValue pattern <= 1)%Q ->
  (i < branchesCount pattern)%nat ->
  path_bits pattern !! i
  = Some (bit_char (Z.testbit (path_index pattern)
                              (Z.of_nat (branchesCount pattern - 1 - i)))).
Proof.
  intros Hlo Hhi Hi. unfold path_bits. apply padded_bits; [|exact Hi].
  pose proof (path_index_bounds pattern Hlo Hhi). lia.
Qed.

(** *** The walk down the tree *)

Lemma descend_None (pathBits : list ascii) (i h : nat) :
  descend pathBits i h None = [].
Proof. destruct h; reflexivity. Qed.

Lemma next_is_child (o : option ascii) (t : TreeNode.t) :
  let next := match o with
              | Some "0"%char => TreeNode.left t
              | _ => TreeNode.right t
              end in
  next = TreeNode.left t \/ next = TreeNode.right t.
Proof. destruct o as [[[] [] [] [] [] [] [] []]|]; simpl; auto. Qed.

Lemma descend_chain (pathBits : list ascii) (i h : nat) (t : TreeNode.t) :
  (List.length (descend pathBits i h (Some t)) <= h)%nat /\
  chain t (descend pathBits i h (Some t)).
Proof.
  revert i t; induction h as [|h IH]; intros i t; cbn [descend].
  - split; [simpl; lia | exact I].
  - pose proof (next_is_child (pathBits !! i) t) as Hnext. cbv zeta in Hnext.
    destruct (match pathBits !! i with
              | Some "0"%char => TreeNode.left t
              | _ => TreeNode.right t
              end) as [child|] eqn:E.
    + destruct (IH (S i) child) as [Hlen Hchain].
      split; [simpl; lia|]. split; [|exact Hchain].
      unfold is_child. destruct Hnext as [H|H]; rewrite <- H; auto.
    + rewrite descend_None. split; [simpl; lia | exact I].
Qed.

(** Whatever the tree, the walk starts at the root, goes from a node to one
    of its children, visits at most [branchesCount + 1] nodes and stops where
    a child is missing. *)
Theorem path_nodes_chain (tree : GeneratedTree) (pattern : Pattern) :
  exists below,
    path_nodes tree pattern = root tree :: below /\
    (List.length below <= branchesCount pattern)%nat /\
    chain (root tree) below.
Proof.
  eexists. split; [reflexivity|]. apply descend_chain.
Qed.

Lemma descend_directions (P : TreeNode.t -> Prop) (pathBits : list ascii)
    (dir : nat -> bool) (h d i : nat) (t : TreeNode.t) (m : nat) :
  full P d h t ->
  (forall j, (i <= j < i + h)%nat -> pathBits !! j = Some (bit_char (dir j))) ->
  (m < h)%nat ->
  exists parent child,
    (t :: descend pathBits i h (Some t)) !! m = Some parent /\
    (t :: descend pathBits i h (Some t)) !! S m = Some child /\
    TreeNode.depth parent = (d + m)%nat /\
    (if dir (i + m)%nat then TreeNode.right parent else TreeNode.left parent)
    = Some child.
Proof.
  revert d i t m; induction h as [|h IH]; intros d i t m F Hbits Hm; [lia|].
  destruct F as (Hd & _ & l & r & Hl & Hr & Fl & Fr).
  cbn [descend]. rewrite (Hbits i) by lia.
  assert (Hnext : exists c,
             match Some (bit_char (dir i)) with
             | Some "0"%char => TreeNode.left t
             | _ => TreeNode.right t
             end = Some c /\
             (if dir i then TreeNode.right t else TreeNode.left t) = Some c /\
             full P (S d) h c).
  { destruct (dir i); simpl; eauto. }
  destruct Hnext as (c & -> & Hdir & Fc).
  destruct m as [|m].
  - exists t, c. rewrite !Nat.add_0_r. simpl. auto.
  - destruct (IH (S d) (S i) c m Fc) as (parent & child & H1 & H2 & H3 & H4);
      [intros j Hj; apply Hbits; lia | lia |].
    exists parent, child.
    replace (i + S m)%nat with (S i + m)%nat by lia.
    replace (d + S m)%nat with (S d + m)%nat by lia.
    simpl in *. auto.
Qed.

(** In the generated tree the walk goes all the way down: for a path value
    in [[0, 1]] the node visited at depth [m] is followed by its right child
    when the bit of weight [2^(branchesCount - 1 - m)] of the path index is
    set, by its left child otherwise. *)
Theorem path_follows_index_bits
    (jitter : nat -> Z) (channel : Channel) (pattern : Pattern)
    (tree : GeneratedTree) (k k' : nat) (m : nat) :
  current_pattern channel = Some pattern ->
  generateTreeForChannel jitter channel k = Some (tree, k') ->
  (0 <= pathValue pattern)%Q -> (pathValue pattern <= 1)%Q ->
  (m < branchesCount pattern)%nat ->
  exists parent child,
    path_nodes tree pattern !! m = Some parent /\
    path_nodes tree pattern !! S m = Some child /\
    TreeNode.depth parent = m /\
    (if Z.testbit (path_index pattern) (Z.of_nat (branchesCount pattern - 1 - m))
     then TreeNode.right parent else TreeNode.left parent) = Some child.
Proof.
  intros Hpat Hgen Hlo Hhi Hm.
  destruct (generateTreeForChannel_full (fun _ => True) jitter channel pattern k)
    as (tree' & k'' & Hgen' & _ & _ & F); auto.
  rewrite Hgen in Hgen'. injection Hgen' as <- _.
  pose (dir := fun j => Z.testbit (path_index pattern)
                                  (Z.of_nat (branchesCount pattern - 1 - j))).
  destruct (descend_directions _ (path_bits pattern) dir _ 0 0 (root tree) m F)
    as (parent & child & H1 & H2 & H3 & H4).
  - intros j Hj. unfold path_bits. apply padded_bits; [|lia].
    pose proof (path_index_bounds pattern Hlo Hhi). lia.
  - exact Hm.
  - exists parent, child. unfold path_nodes. auto.
Qed.

(** ** Flattening: where the steps come from *)

Lemma map_lookup {A B : Type} (f : A -> B) (l : list A) (i : nat) :
  map f l !! i = f <$> l !! i.
Proof. apply list_lookup_fmap. Qed.

Lemma insert_head_Permutation {A : Type} (l : list A) (j : nat) (a y : A) :
  l !! j = Some y -> Permutation (y :: <[j:=a]> l) (a :: l).
Proof.
  revert j; induction l as [|b l IH]; intros j Hj; [discriminate|].
  destruct j as [|j]; simpl in *.
  - injection Hj as ->. apply perm_swap.
  - etransitivity; [apply perm_swap|].
    etransitivity; [apply perm_skip, (IH j Hj)|]. apply perm_swap.
Qed.

Lemma swap_Permutation {A : Type} (l : list A) (i j : nat) :
  Permutation (swap l i j) l.
Proof.
  unfold swap.
  destruct (l !! i) as [x|] eqn:Ei; [|reflexivity].
  destruct (l !! j) as [y|] eqn:Ej; [|reflexivity].
  revert i j Ei Ej; induction l as [|a l IH]; intros i j Ei Ej; [discriminate|].
  destruct i as [|i], j as [|j]; simpl in *.
  - injection Ei as ->. injection Ej as ->. reflexivity.
  - injection Ei as ->. apply insert_head_Permutation, Ej.
  - injection Ej as ->. apply insert_head_Permutation, Ei.
  - apply perm_skip, IH; assumption.
Qed.

Section FlattenerOrigins.
Variable random : nat -> Q.

Lemma shuffle_from_Permutation {A : Type} (i : nat) (l : list A) (k : nat) :
  Permutation (fst (shuffle_from random i l k)) l /\
  snd (shuffle_from random i l k) = (k + i)%nat.
Proof.
  revert l k; induction i as [|i IH]; intros l k; cbn [shuffle_from].
  - split; [reflexivity | simpl; lia].
  - destruct (IH (swap l (S i) (Z.to_nat (floor_random random k (Z.of_nat (S i + 1)))))
                 (S k)) as [Hp Hk].
    split; [|rewrite Hk; lia].
    etransitivity; [exact Hp | apply swap_Permutation].
Qed.

(** With [Math.random ()] in [[0, 1)], the partner drawn for position [i] lies
    in [[0, i]], so every swap stays inside the array; the shuffle returns
    the items it was given, each as often as before, and makes one draw per
    item but the first: none for an empty or one-item list. *)
Theorem shuffle_permutes {A : Type} (l : list A) (k : nat) :
  (forall j, (0 <= random j)%Q /\ (random j < 1)%Q) ->
  (forall d i, 0 <= floor_random random d (Z.of_nat (i + 1)) <= Z.of_nat i) /\
  Permutation (fst (shuffle random l k)) l /\
  snd (shuffle random l k) = (k + (List.length l - 1))%nat.
Proof.
  intros Hr. split; [|apply shuffle_from_Permutation].
  intros d i.
  pose proof (floor_random_bounds random d (Z.of_nat (i + 1)) (Hr d) ltac:(lia)).
  lia.
Qed.

Lemma node_steps_from_node (seqOrder : PlaybackOrder.t) (node : TreeNode.t) (k : nat) :
  Forall (from_node node) (fst (node_steps random seqOrder node k)).
Proof.
  unfold node_steps. cbn [fst]. apply List.Forall_map.
  set (prefix := firstn _ _).
  assert (Htag : Forall (fun s => from_node node (with_depth s (TreeNode.depth node)))
                        (imap (fun idx s => with_originalIndex s idx) prefix)).
  { apply Forall_lookup. intros i st Hst.
    rewrite list_lookup_imap in Hst.
    destruct (prefix !! i) as [s|] eqn:Es; [|discriminate].
    injection Hst as <-. exists i, s. auto. }
  destruct seqOrder; cbn [fst].
  - exact Htag.
  - apply List.Forall_rev, Htag.
  - apply pendulum_order_Forall, Htag.
  - apply shuffle_Forall, Htag.
Qed.

Lemma collect_steps_from_nodes (seqOrder : PlaybackOrder.t)
    (orderedNodes : list TreeNode.t) (k : nat) :
  Forall (fun st => exists node, In node orderedNodes /\ from_node node st)
         (fst (collect_steps random seqOrder orderedNodes k)).
Proof.
  revert k; induction orderedNodes as [|node rest IH]; intros k;
    cbn [collect_steps fst]; [constructor|].
  apply Forall_app. split.
  - eapply Forall_impl; [apply node_steps_from_node|].
    intros st Hst. exists node. split; [left; reflexivity | exact Hst].
  - eapply Forall_impl; [apply IH|].
    intros st (n & Hn & Hst). exists n. split; [right; exact Hn | exact Hst].
Qed.

(** Whatever the orders, every step of the flattened sequence is an active
    step of a node of the path, unchanged but for its two tags: the index it
    has in that node and the node's depth.  ([Math.random ()] in [[0, 1)]
    keeps the swaps of the random orders inside the arrays.) *)
Theorem playback_steps_origin (channel : Channel) (pattern : Pattern)
    (tree : GeneratedTree) (k : nat) :
  (forall j, (0 <= random j)%Q /\ (random j < 1)%Q) ->
  current_pattern channel = Some pattern ->
  generatedTree channel = Some tree ->
  exists seq k',
    buildPlaybackSequence random channel k = Some (seq, k') /\
    Forall (fun st => exists node, In node (path_nodes tree pattern) /\
                                   from_node node st)
           (steps seq).
Proof.
  intros _ Hpat Htree.
  rewrite (buildPlaybackSequence_path random channel pattern tree k Hpat Htree).
  cbv zeta. eexists _, _. split; [reflexivity|]. cbn [steps].
  eapply Forall_impl; [apply collect_steps_from_nodes|].
  intros st (node & Hin & Hst). exists node. split; [|exact Hst].
  assert (Hall : Forall (fun n => In n (path_nodes tree pattern))
                        (path_nodes tree pattern)).
  { apply List.Forall_forall. auto. }
  pose proof (ordered_nodes_Forall random _ (branchPlaybackOrder pattern) _ k Hall)
    as Hord.
  rewrite List.Forall_forall in Hord. apply Hord, Hin.
Qed.

Lemma node_steps_Permutation (seqOrder : PlaybackOrder.t) (node : TreeNode.t) (k : nat) :
  seqOrder <> PlaybackOrder.pendulum ->
  Permutation (fst (node_steps random seqOrder node k)) (node_block node).
Proof.
  intros Hne. unfold node_steps, node_block. cbn [fst].
  apply Permutation_map.
  destruct seqOrder; cbn [fst]; try congruence.
  - reflexivity.
  - symmetry. apply Permutation_rev.
  - unfold shuffle. apply shuffle_from_Permutation.
Qed.

Lemma collect_steps_Permutation (seqOrder : PlaybackOrder.t)
    (orderedNodes : list TreeNode.t) (k : nat) :
  seqOrder <> PlaybackOrder.pendulum ->
  Permutation (fst (collect_steps random seqOrder orderedNodes k))
              (flat_map node_block orderedNodes).
Proof.
  intros Hne. revert k; induction orderedNodes as [|node rest IH]; intros k;
    cbn [collect_steps fst flat_map]; [reflexivity|].
  apply Permutation_app; [apply node_steps_Permutation, Hne | apply IH].
Qed.

Lemma collect_steps_forward (orderedNodes : list TreeNode.t) (k : nat) :
  collect_steps random PlaybackOrder.forward orderedNodes k
  = (flat_map node_block orderedNodes, k).
Proof.
  induction orderedNodes as [|node rest IH]; cbn [collect_steps flat_map];
    [reflexivity|].
  cbn [node_steps fst snd]. rewrite IH. reflexivity.
Qed.

(** Without a pendulum, reordering neither drops nor repeats a step: the
    flattened sequence holds the tagged active steps of the path nodes, each
    once.  With both orders forward it is their concatenation in path order,
    and nothing is drawn.  ([Math.random ()] in [[0, 1)] keeps the swaps of
    the random orders inside the arrays.) *)
Theorem playback_steps_rearranged (channel : Channel) (pattern : Pattern)
    (tree : GeneratedTree) (k : nat) :
  (forall j, (0 <= random j)%Q /\ (random j < 1)%Q) ->
  current_pattern channel = Some pattern ->
  generatedTree channel = Some tree ->
  exists seq k',
    buildPlaybackSequence random channel k = Some (seq, k') /\
    (branchPlaybackOrder pattern <> BranchPlaybackOrder.pendulum ->
     playbackOrder (trunk pattern) <> PlaybackOrder.pendulum ->
     Permutation (steps seq) (flat_map node_block (path_nodes tree pattern))) /\
    (branchPlaybackOrder pattern = BranchPlaybackOrder.forward ->
     playbackOrder (trunk pattern) = PlaybackOrder.forward ->
     steps seq = flat_map node_block (path_nodes tree pattern) /\ k' = k).
Proof.
  intros _ Hpat Htree.
  rewrite (buildPlaybackSequence_path random channel pattern tree k Hpat Htree).
  cbv zeta. eexists _, _. split; [reflexivity|]. cbn [steps]. split.
  - intros Hb Hs.
    etransitivity; [apply collect_steps_Permutation, Hs|].
    apply Permutation_flat_map.
    destruct (branchPlaybackOrder pattern); cbn [fst]; try congruence.
    + reflexivity.
    + symmetry. apply Permutation_rev.
    + unfold shuffle. apply shuffle_from_Permutation.
  - intros -> ->. cbn [fst snd]. rewrite collect_steps_forward. auto.
Qed.
End FlattenerOrigins.

(** ** Flattening and the scheduler resolve the orders alike *)

Lemma pendulum_tail_lookup {A : Type} (l : list A) (i j : nat) :
  (i < List.length l)%nat -> (j < i)%nat ->
  pendulum_tail l i !! j = l !! (i - j)%nat.
Proof.
  revert j; induction i as [|i IH]; intros j Hi Hj; [lia|].
  cbn [pendulum_tail].
  destruct (lookup_lt_is_Some_2 l (S i) Hi) as [x Hx]. rewrite Hx.
  destruct j as [|j]; simpl.
  - exact (eq_sym Hx).
  - rewrite IH by lia. reflexivity.
Qed.

Lemma pendulum_order_lookup {A : Type} (l : list A) (n : nat) :
  (n < pendulum_size (List.length l))%nat ->
  pendulum_order l !! n
  = l !! (if (n <? List.length l)%nat then n
          else (2 * List.length l - 2 - n)%nat).
Proof.
  unfold pendulum_size, pendulum_order. intros Hn.
  destruct (Nat.ltb_spec n (List.length l)) as [Hlt|Hge].
  - apply lookup_app_l, Hlt.
  - rewrite lookup_app_r by exact Hge.
    rewrite pendulum_tail_lookup by lia. f_equal. lia.
Qed.

(** The steps a node contributes to the flattened sequence are one cycle of
    the scheduler's own index resolution: under the forward, backward and
    pendulum step orders, the step at position [n] of the node's block is the
    active step whose index [getStepIndexAtTick] resolves for the counter [n]
    in that order. *)
Theorem baked_order_matches_index_resolution
    (random : nat -> Q) (order : PlaybackOrder.t) (node : TreeNode.t)
    (n k k2 : nat) :
  order <> PlaybackOrder.random ->
  (length (TreeNode.sequence node)
   <= List.length (steps (TreeNode.sequence node)))%nat ->
  (n < step_visits order (length (TreeNode.sequence node)))%nat ->
  exists st,
    fst (node_steps random order node k) !! n = Some st /\
    originalIndex st
    = Some (Z.to_nat (fst (getStepIndexAtTick random
                             (with_playbackOrder (TreeNode.sequence node) order)
                             (Z.of_nat n) k2))) /\
    from_node node st.
Proof.
  intros Hord Hwf Hn.
  set (seq := TreeNode.sequence node) in *.
  set (L := length seq) in *.
  set (prefix := firstn L (steps seq)).
  assert (Hlen : List.length prefix = L).
  { unfold prefix. rewrite length_take. lia. }
  set (tagged := imap (fun idx s => with_originalIndex s idx) prefix).
  assert (Htlen : List.length tagged = L).
  { unfold tagged. rewrite length_imap. exact Hlen. }
  assert (Htag : forall idx, (idx < L)%nat ->
             exists s, prefix !! idx = Some s /\
                       tagged !! idx = Some (with_originalIndex s idx)).
  { intros idx Hidx.
    destruct (lookup_lt_is_Some_2 prefix idx ltac:(lia)) as [s Hs].
    exists s. split; [exact Hs|].
    unfold tagged. rewrite list_lookup_imap, Hs. reflexivity. }
  assert (Hgoal : forall idx, (idx < L)%nat ->
             match order with
             | PlaybackOrder.forward => tagged
             | PlaybackOrder.backward => rev tagged
             | PlaybackOrder.pendulum => pendulum_order tagged
             | PlaybackOrder.random => tagged
             end !! n = tagged !! idx ->
             Z.to_nat (fst (getStepIndexAtTick random (with_playbackOrder seq order)
                              (Z.of_nat n) k2)) = idx ->
             exists st,
               fst (node_steps random order node k) !! n = Some st /\
               originalIndex st
               = Some (Z.to_nat (fst (getStepIndexAtTick random
                                        (with_playbackOrder seq order)
                                        (Z.of_nat n) k2))) /\
               from_node node st).
  { intros idx Hidx Hlook Hres.
    destruct (Htag idx Hidx) as (s & Hs & Hts).
    exists (with_depth (with_originalIndex s idx) (TreeNode.depth node)).
    split; [|split].
    - unfold node_steps. cbn [fst]. rewrite map_lookup. fold seq L prefix tagged.
      destruct order; cbn [fst] in *; try congruence;
        rewrite Hlook, Hts; reflexivity.
    - rewrite Hres. reflexivity.
    - exists idx, s. fold seq L prefix. auto. }
  unfold getStepIndexAtTick in *.
  cbn [length playbackOrder with_playbackOrder] in *. fold L in Hgoal |- *.
  destruct order; cbn [step_visits] in Hn; try congruence.
  - apply (Hgoal n Hn); [reflexivity|].
    destruct (Z.eqb_spec (Z.of_nat L) 0); [lia|]. cbn [fst].
    rewrite Z.rem_small by lia. lia.
  - apply (Hgoal (L - 1 - n)%nat ltac:(lia)).
    + rewrite rev_lookup by lia. f_equal. lia.
    + destruct (Z.eqb_spec (Z.of_nat L) 0); [lia|]. cbn [fst].
      rewrite Z.rem_small by lia. lia.
  - unfold pendulum_size in Hn.
    apply (Hgoal (if (n <? L)%nat then n else (2 * L - 2 - n)%nat)).
    + destruct (Nat.ltb_spec n L); lia.
    + rewrite pendulum_order_lookup by (unfold pendulum_size; lia).
      rewrite Htlen. reflexivity.
    + destruct (Z.eqb_spec (Z.of_nat L) 0); [lia|].
      destruct (Z.leb_spec (Z.of_nat L) 1) as [Hle|Hgt]; cbn [fst].
      * destruct (Nat.ltb_spec n L); lia.
      * rewrite Z.rem_small by lia.
        destruct (Z.ltb_spec (Z.of_nat n) (Z.of_nat L)),
                 (Nat.ltb_spec n L); lia.
Qed.

(** ** The tick *)

Lemma processChannel_result (random : nat -> Q) (engine : Engine)
    (channel : Channel) (time : Q) (before after : ChannelState)
    (k k' : nat) (triggers : list Trigger) :
  processChannel random engine channel time before k = Some (after, triggers, k') ->
  tick_result random engine channel time before k after triggers k'.
Proof.
  unfold processChannel. intros H.
  destruct (playing_sequence random channel k) as [[sequence k1]|] eqn:Eseq;
    cbn [mbind option_bind] in H; [|discriminate].
  destruct (Nat.eqb_spec (length sequence) 0) as [El|El].
  { injection H as <- <- <-. eapply tick_skipped; eauto. }
  destruct (Qlt_le_dec (time + (1 # 10)) (nextNoteTime before)) as [Hahead|Hdue].
  { injection H as <- <- <-. eapply tick_skipped; eauto. }
  destruct (getStepIndexAtTick random sequence (currentBaseStep before) k1)
    as [stepIndex k2] eqn:Eidx.
  destruct (step_at sequence stepIndex) as [step|] eqn:Estep.
  - destruct (current_pattern channel) as [pattern|] eqn:Epat;
      cbn [mbind option_bind] in H; [|discriminate].
    injection H as <- <- <-.
    exact (tick_played random engine channel time before k sequence k1 stepIndex k2
             step pattern Eseq Hdue El Eidx Estep Epat).
  - injection H as <- <- <-. eapply tick_rewound; eauto.
Qed.

Ltac inline_lets := repeat match goal with x := _ |- _ => subst x end.

(** A tick sends at most one trigger; it starts at the scheduled time (the
    tick's own time when nothing was scheduled yet), never more than the
    look-ahead of 0.1 s after the tick, and its pitch is the quantized pitch
    of the step plus the root offset plus [60]: a note of the scale, moved by
    that offset. *)
Theorem tick_trigger (random : nat -> Q) (engine : Engine) (channel : Channel)
    (time : Q) (before after : ChannelState) (k k' : nat)
    (triggers : list Trigger) :
  processChannel random engine channel time before k = Some (after, triggers, k') ->
  (List.length triggers <= 1)%nat /\
  Forall (fun t =>
            trigger_time t
            = (if Qeq_bool (nextNoteTime before) 0 then time
               else nextNoteTime before) /\
            (trigger_time t <= time + (1 # 10))%Q /\
            exists sequence k1 pattern,
              playing_sequence random channel k = Some (sequence, k1) /\
              current_pattern channel = Some pattern /\
              (scale sequence <> unquantized ->
               In ((trigger_pitch t - rootOffsetSemitones pattern - 60) mod 12)
                  (SCALES (scale sequence))))
         triggers.
Proof.
  intros H. apply processChannel_result in H.
  destruct H as [sequence k1 Hseq Hskip
                |sequence k1 stepIndex k2 Hseq Hdue Hlen Hidx Hstep
                |sequence k1 stepIndex k2 step pattern Hseq Hdue Hlen Hidx Hstep Hpat].
  - split; [simpl; lia | constructor].
  - split; [simpl; lia | constructor].
  - cbv zeta.
    assert (Hwhen : ((if Qeq_bool (nextNoteTime before) 0 then time
                      else nextNoteTime before) <= time + (1 # 10))%Q).
    { destruct (Qeq_bool (nextNoteTime before) 0); [|exact Hdue].
      rewrite <- (Qplus_0_r time) at 1. apply Qplus_le_r. discriminate. }
    assert (Hscale : scale sequence <> unquantized ->
              In ((quantizePitch (pitch step) (scale sequence)
                   + rootOffsetSemitones pattern + 60
                   - rootOffsetSemitones pattern - 60) mod 12)
                 (SCALES (scale sequence))).
    { intros Hs.
      replace (quantizePitch (pitch step) (scale sequence)
               + rootOffsetSemitones pattern + 60
               - rootOffsetSemitones pattern - 60)
        with (quantizePitch (pitch step) (scale sequence)) by lia.
      apply quantizePitch_in_scale, Hs. }
    destruct (gateOn step); [|split; [simpl; lia | constructor]].
    destruct (midiSelected engine); (split; [simpl; lia|]);
      repeat constructor; cbn [trigger_time trigger_pitch]; eauto 8.
Qed.

(** The counters of the tick state stay non-negative; a tick moves the step
    counter forward by at most one, and when it does the ratchet count is
    back at [0]; otherwise the ratchet count grows by at most one. *)
Theorem tick_counters (random : nat -> Q) (engine : Engine) (channel : Channel)
    (time : Q) (before after : ChannelState) (k k' : nat)
    (triggers : list Trigger) :
  processChannel random engine channel time before k = Some (after, triggers, k') ->
  0 <= currentBaseStep before -> 0 <= currentRatchetCount before ->
  0 <= currentBaseStep after <= currentBaseStep before + 1 /\
  0 <= currentRatchetCount after <= currentRatchetCount before + 1 /\
  (currentBaseStep after = currentBaseStep before + 1 ->
   currentRatchetCount after = 0).
Proof.
  intros H Hb Hc. apply processChannel_result in H.
  destruct H as [sequence k1 Hseq Hskip
                |sequence k1 stepIndex k2 Hseq Hdue Hlen Hidx Hstep
                |sequence k1 stepIndex k2 step pattern Hseq Hdue Hlen Hidx Hstep Hpat];
    inline_lets; cbn [currentBaseStep currentRatchetCount]; try lia.
  match goal with |- context [?a <=? ?b] => destruct (a <=? b) end; lia.
Qed.

Lemma gate_duration_bounds (gate : GateLengthKind) (d : Q) :
  (0 < d)%Q ->
  (0 < gate_duration gate d)%Q /\
  (gate <> trigger -> (gate_duration gate d <= d)%Q).
Proof.
  intros Hd. destruct d as [n m]. unfold Qlt in Hd. simpl in Hd.
  destruct gate; unfold gate_duration, Qlt, Qle, Qmult; simpl;
    (split; [|intros Hg; try congruence]); try nia; try lia.
Qed.

(** With a positive tempo and [divMult] and at least one ratchet on every
    step.  A tick is due when the sequence is not empty and [nextNoteTime] is
    within the look-ahead.  A due tick that finds a step, gate on or off,
    sets [nextNoteTime] to the scheduled time plus the sub-step's duration,
    which is positive: the schedule moves strictly forward.  A due tick that
    finds no step leaves the schedule at the scheduled time and sends
    nothing; a tick that is not due changes nothing.  A note that is sent
    lasts a positive time and, unless its gate is [trigger] (a fixed 6 ms),
    ends no later than the next sub-step begins. *)
Theorem tick_schedule (random : nat -> Q) (engine : Engine) (channel : Channel)
    (time : Q) (before after : ChannelState) (k k' : nat)
    (triggers : list Trigger) (sequence : Sequence) (k1 : nat) (pattern : Pattern) :
  processChannel random engine channel time before k = Some (after, triggers, k') ->
  playing_sequence random channel k = Some (sequence, k1) ->
  current_pattern channel = Some pattern ->
  (0 < quarterTime engine)%Q -> (0 < divMult pattern)%Q ->
  Forall (fun s => 1 <= ratchets s) (steps sequence) ->
  let scheduleTime := if Qeq_bool (nextNoteTime before) 0 then time
                      else nextNoteTime before in
  let due := length sequence <> 0%nat /\
             (nextNoteTime before <= time + (1 # 10))%Q in
  let found :=
    step_at sequence
      (fst (getStepIndexAtTick random sequence (currentBaseStep before) k1)) in
  (forall step, due -> found = Some step ->
     let ratchetDuration := sub_step_duration engine pattern step in
     (0 < ratchetDuration)%Q /\
     nextNoteTime after = (scheduleTime + ratchetDuration)%Q /\
     (scheduleTime < nextNoteTime after)%Q /\
     (gateOn step = false -> triggers = [])) /\
  (due -> found = None -> nextNoteTime after = scheduleTime /\ triggers = []) /\
  (~ due -> after = before /\ triggers = []) /\
  Forall (fun t =>
            (0 < trigger_duration t)%Q /\
            ((trigger_time t + trigger_duration t <= nextNoteTime after)%Q \/
             (trigger_duration t == 6 # 1000)%Q))
         triggers.
Proof.
  intros H Hseq0 Hpat0 Hq Hdiv Hratchets scheduleTime due found.
  apply processChannel_result in H.
  destruct H as [sequence' k1' Hseq Hskip
                |sequence' k1' stepIndex k2 Hseq Hdue Hlen Hidx Hstep
                |sequence' k1' stepIndex k2 step pattern' Hseq Hdue Hlen Hidx Hstep Hpat];
    rewrite Hseq0 in Hseq; injection Hseq as <- <-.
  - assert (Hnot : ~ due).
    { intros [Hlen Hdue]. destruct Hskip as [Hzero|Hahead]; [exact (Hlen Hzero)|].
      exact (Qlt_not_le _ _ Hahead Hdue). }
    split; [intros step Hd; destruct (Hnot Hd)|].
    split; [intros Hd; destruct (Hnot Hd)|].
    split; [auto | constructor].
  - assert (Hfound : found = None) by (subst found; rewrite Hidx; exact Hstep).
    split; [intros step _ Hsome; congruence|].
    split; [intros _ _; cbn [nextNoteTime]; auto|].
    split; [intros Hnot; destruct (Hnot (conj Hlen Hdue)) | constructor].
  - assert (Hfound : found = Some step) by (subst found; rewrite Hidx; exact Hstep).
    rewrite Hpat0 in Hpat. injection Hpat as <-.
    inline_lets. cbn [nextNoteTime].
    assert (Hstep_in : 1 <= ratchets step).
    { unfold step_at in Hstep. destruct (stepIndex <? 0); [discriminate|].
      rewrite List.Forall_forall in Hratchets. apply Hratchets.
      apply list_elem_of_In. eapply list_elem_of_lookup_2, Hstep. }
    set (r := if ratchetsEnabled engine then ratchets step else 1).
    assert (Hr : 1 <= r) by (subst r; destruct (ratchetsEnabled engine); lia).
    set (d := (quarterTime engine / 4 / divMult pattern / inject_Z r)%Q).
    assert (Hd : (0 < d)%Q).
    { subst d. unfold Qdiv.
      repeat apply Qmult_lt_0_compat; try exact Hq; try reflexivity;
        apply Qinv_lt_0_compat; [exact Hdiv|].
      unfold Qlt; simpl; lia. }
    set (at_time := if Qeq_bool (nextNoteTime before) 0 then time
                    else nextNoteTime before).
    split; [|split; [intros _ Hnone; congruence|split]].
    + intros step' _ Hsome. rewrite Hfound in Hsome. injection Hsome as <-.
      cbv zeta. unfold sub_step_duration. fold r. fold d.
      split; [exact Hd|]. split; [reflexivity|]. split.
      * rewrite <- (Qplus_0_r at_time) at 1. apply Qplus_lt_r, Hd.
      * intros ->. reflexivity.
    + intros Hnot. destruct (Hnot (conj Hlen Hdue)).
    + destruct (gate_duration_bounds (gateLength step) d Hd) as [Hpos Hle].
      assert (Hend : (at_time + gate_duration (gateLength step) d <= at_time + d)%Q
                     \/ (gate_duration (gateLength step) d == 6 # 1000)%Q).
      { destruct (gateLength step) eqn:G;
          try (left; apply Qplus_le_r, Hle; congruence).
        right. reflexivity. }
      assert (Hms : (gate_duration (gateLength step) d * 1000 / 1000
                     == gate_duration (gateLength step) d)%Q) by field.
      destruct (gateOn step); [|constructor].
      destruct (midiSelected engine);
        (constructor; [split|constructor]);
        cbn [trigger_time trigger_duration]; rewrite ?Hms;
        try exact Hpos; try exact Hend.
Qed.

(** After [stop] the next tick starts over: on a cached forward sequence it
    plays the first step at the tick's own time, draws nothing, and reports
    index [0] as last triggered when that step's gate is on. *)
Theorem tick_after_stop (random : nat -> Q) (engine : Engine) (channel : Channel)
    (time : Q) (before : ChannelState) (k : nat)
    (sequence : Sequence) (step : Step) (pattern : Pattern) :
  activeSequence channel = Some sequence ->
  playbackOrder sequence = PlaybackOrder.forward ->
  (1 <= length sequence)%nat ->
  steps sequence !! 0%nat = Some step ->
  current_pattern channel = Some pattern ->
  (0 <= time)%Q ->
  exists after triggers,
    processChannel random engine channel time (stop before) k
    = Some (after, triggers, k) /\
    getCurrentStepIndex after = (if gateOn step then 0 else -1) /\
    (gateOn step = false -> triggers = []) /\
    (gateOn step = true ->
     exists t, triggers = [t] /\ trigger_time t = time /\
               trigger_pitch t
               = quantizePitch (pitch step) (scale sequence)
                 + rootOffsetSemitones pattern + 60).
Proof.
  intros Hact Hord Hlen Hstep Hpat Htime.
  unfold processChannel, playing_sequence. rewrite Hact.
  cbn [mbind option_bind].
  destruct (Nat.eqb_spec (length sequence) 0) as [E|_]; [lia|].
  cbn [stop nextNoteTime currentBaseStep currentRatchetCount lastTriggeredStepIndex].
  destruct (Qlt_le_dec (time + (1 # 10)) 0) as [Hneg|_].
  { exfalso. apply (Qlt_not_le _ _ Hneg).
    apply Qle_trans with time; [exact Htime|].
    rewrite <- (Qplus_0_r time) at 1. apply Qplus_le_r. discriminate. }
  unfold getStepIndexAtTick. rewrite Hord.
  destruct (Z.eqb_spec (Z.of_nat (length sequence)) 0) as [E|_]; [lia|].
  rewrite Z.rem_0_l by lia.
  unfold step_at. change (0 <? 0) with false. change (Z.to_nat 0) with 0%nat.
  cbv iota. rewrite Hstep, Hpat.
  cbn [mbind option_bind].
  eexists _, _. split; [reflexivity|].
  cbn [getCurrentStepIndex lastTriggeredStepIndex].
  split; [destruct (gateOn step); reflexivity|].
  split; intros G; rewrite G; [reflexivity|].
  destruct (midiSelected engine); eexists; (split; [reflexivity|]);
    cbn [trigger_time trigger_pitch]; auto.
Qed.

(** [setReverbDecay] keeps the room size within [[0, 0.99]] and stores a
    tenth of the decay when that lies in the interval. *)
Theorem setReverbDecay_clamped (decay : Q) :
  (0 <= setReverbDecay decay)%Q /\ (setReverbDecay decay <= 99 # 100)%Q /\
  ((0 <= decay / 10)%Q -> (decay / 10 <= 99 # 100)%Q ->
   (setReverbDecay decay == decay / 10)%Q).
Proof.
  unfold setReverbDecay. split; [|split].
  - apply Q.min_glb; [discriminate | apply Q.le_max_l].
  - apply Q.le_min_l.
  - intros Hlo Hhi. rewrite Q.max_r by exact Hlo. apply Q.min_r, Hhi.
Qed.

(** ** The edit path: regenerating, resizing, randomizing *)

Lemma playback_of_full_tree (random : nat -> Q) (channel : Channel)
    (pattern : Pattern) (tree : GeneratedTree) (k : nat) :
  current_pattern channel = Some pattern ->
  generatedTree channel = Some tree ->
  (length (trunk pattern) <= List.length (steps (trunk pattern)))%nat ->
  full (fun n => trunk_framed (trunk pattern) (TreeNode.sequence n))
       0 (branchesCount pattern) (root tree) ->
  exists seq k',
    buildPlaybackSequence random channel k = Some (seq, k') /\
    playbackOrder seq = PlaybackOrder.forward /\
    List.length (steps seq) = length seq /\
    length seq
    = (branch_visits (branchPlaybackOrder pattern) (branchesCount pattern + 1)
       * step_visits (playbackOrder (trunk pattern)) (length (trunk pattern)))%nat.
Proof.
  intros Hpat Htree Hwf F.
  rewrite (buildPlaybackSequence_path random channel pattern tree k Hpat Htree).
  cbv zeta. eexists _, _. split; [reflexivity|].
  cbn [steps length playbackOrder].
  split; [reflexivity|]. split; [reflexivity|].
  destruct (descend_full _ (path_bits pattern) _ _ 0 _ F) as [Hlen Hall].
  assert (Hn : List.length (path_nodes tree pattern) = (branchesCount pattern + 1)%nat).
  { unfold path_nodes. simpl. rewrite Hlen. lia. }
  assert (Hact : Forall (fun n => active_count n = length (trunk pattern))
                        (path_nodes tree pattern)).
  { eapply Forall_impl.
    - unfold path_nodes. constructor; [|exact Hall].
      destruct (branchesCount pattern); apply F.
    - intros n Hnode. apply trunk_framed_active_count; assumption. }
  rewrite (collect_steps_length random _ (length (trunk pattern)))
    by (apply ordered_nodes_Forall, Hact).
  rewrite ordered_nodes_length, Hn. reflexivity.
Qed.

Lemma visits_positive (pattern : Pattern) :
  (1 <= length (trunk pattern))%nat ->
  (1 <= branch_visits (branchPlaybackOrder pattern) (branchesCount pattern + 1)
        * step_visits (playbackOrder (trunk pattern)) (length (trunk pattern)))%nat.
Proof.
  intros H.
  assert (1 <= branch_visits (branchPlaybackOrder pattern)
                             (branchesCount pattern + 1))%nat
    by (destruct (branchPlaybackOrder pattern); unfold branch_visits, pendulum_size; lia).
  assert (1 <= step_visits (playbackOrder (trunk pattern))
                           (length (trunk pattern)))%nat
    by (destruct (playbackOrder (trunk pattern)); unfold step_visits, pendulum_size; lia).
  nia.
Qed.

Section EditFacts.
Variable jitter : nat -> Z.
Variable random : nat -> Q.

Lemma regenerateTree_succeeds (channel : Channel) (pattern : Pattern) (kj k : nat) :
  current_pattern channel = Some pattern ->
  exists channel' kj' k' tree seq,
    regenerateTree jitter random channel kj k = Some (channel', kj', k') /\
    generateTreeForChannel jitter channel kj = Some (tree, kj') /\
    buildPlaybackSequence random (with_tree channel tree) k = Some (seq, k') /\
    patterns channel' = patterns channel /\
    currentPatternIndex channel' = currentPatternIndex channel /\
    generatedTree channel' = Some tree /\
    activeSequence channel' = Some seq.
Proof.
  intros Hpat.
  destruct (generateTreeForChannel_full (fun _ => True) jitter channel pattern kj)
    as (tree & kj' & Hgen & _); auto.
  assert (Hbuild : exists seq k',
             buildPlaybackSequence random (with_tree channel tree) k = Some (seq, k')).
  { rewrite (buildPlaybackSequence_path random (with_tree channel tree) pattern tree k)
      by (try exact Hpat; reflexivity).
    cbv zeta. eauto. }
  destruct Hbuild as (seq & k' & Hbuild).
  unfold regenerateTree, updateActiveSequence. rewrite Hgen.
  cbn [mbind option_bind]. fold (with_tree channel tree). rewrite Hbuild.
  cbn [mbind option_bind].
  eexists _, kj', k', tree, seq. split; [reflexivity|]. auto 10.
Qed.

Lemma regenerateTree_cached (channel : Channel) (pattern : Pattern) (kj k : nat) :
  current_pattern channel = Some pattern ->
  (1 <= length (trunk pattern) <= List.length (steps (trunk pattern)))%nat ->
  exists channel' kj' k' tree seq,
    regenerateTree jitter random channel kj k = Some (channel', kj', k') /\
    current_pattern channel' = Some pattern /\
    generatedTree channel' = Some tree /\
    activeSequence channel' = Some seq /\
    playbackOrder seq = PlaybackOrder.forward /\
    length seq
    = (branch_visits (branchPlaybackOrder pattern) (branchesCount pattern + 1)
       * step_visits (playbackOrder (trunk pattern)) (length (trunk pattern)))%nat /\
    (1 <= length seq)%nat /\ List.length (steps seq) = length seq.
Proof.
  intros Hpat [Hlen Hwf].
  destruct (regenerateTree_succeeds channel pattern kj k Hpat)
    as (channel' & kj' & k' & tree & seq & Hre & Hgen & Hbuild & Hps & Hidx & Htree & Hact).
  destruct (generateTreeForChannel_full (trunk_framed (trunk pattern)) jitter
              channel pattern kj (trunk_framed_kept jitter _ Hwf)
              (same_frame_refl _) Hpat)
    as (tree' & kj'' & Hgen' & _ & _ & F).
  rewrite Hgen in Hgen'. injection Hgen' as <- _.
  destruct (playback_of_full_tree random (with_tree channel tree) pattern tree k
              Hpat eq_refl Hwf F)
    as (seq' & k'' & Hbuild' & Hord & Hsize & Hlength).
  rewrite Hbuild in Hbuild'. injection Hbuild' as <- _.
  pose proof (visits_positive pattern Hlen) as Hpos.
  exists channel', kj', k', tree, seq. split; [exact Hre|].
  split; [unfold current_pattern in *; rewrite Hps, Hidx; exact Hpat|].
  split; [exact Htree|]. split; [exact Hact|]. split; [exact Hord|].
  split; [exact Hlength|]. split; [lia | exact Hsize].
Qed.

(** [regenerateTree] leaves the channel ready to play: for a trunk with at
    least one active step inside its buffer the channel gets its tree and a
    cached, non-empty, forward sequence, and from then on every tick reads
    that cache without a draw and resolves an index that holds a step, so the
    tick never rewinds for a missing step. *)
Theorem regenerateTree_ready (channel : Channel) (pattern : Pattern) (kj k : nat) :
  current_pattern channel = Some pattern ->
  (1 <= length (trunk pattern) <= List.length (steps (trunk pattern)))%nat ->
  exists channel' kj' k' tree seq,
    regenerateTree jitter random channel kj k = Some (channel', kj', k') /\
    current_pattern channel' = Some pattern /\
    generatedTree channel' = Some tree /\
    activeSequence channel' = Some seq /\
    playbackOrder seq = PlaybackOrder.forward /\
    length seq
    = (branch_visits (branchPlaybackOrder pattern) (branchesCount pattern + 1)
       * step_visits (playbackOrder (trunk pattern)) (length (trunk pattern)))%nat /\
    (1 <= length seq)%nat /\ List.length (steps seq) = length seq /\
    forall n k2, 0 <= n ->
      playing_sequence random channel' k2 = Some (seq, k2) /\
      snd (getStepIndexAtTick random seq n k2) = k2 /\
      is_Some (step_at seq (fst (getStepIndexAtTick random seq n k2))).
Proof.
  intros Hpat Hwf.
  destruct (regenerateTree_cached channel pattern kj k Hpat Hwf)
    as (channel' & kj' & k' & tree & seq & Hre & Hcur & Htree & Hact & Hord
        & Hlength & Hpos & Hsize).
  exists channel', kj', k', tree, seq.
  do 7 (split; [assumption|]). split; [exact Hsize|].
  intros n k2 Hn. unfold playing_sequence. rewrite Hact.
  split; [reflexivity|].
  unfold getStepIndexAtTick. rewrite Hord.
  destruct (Z.eqb_spec (Z.of_nat (length seq)) 0); [lia|]. cbn [fst snd].
  split; [reflexivity|].
  rewrite Z.rem_mod_nonneg by lia.
  pose proof (Z.mod_pos_bound n (Z.of_nat (length seq)) ltac:(lia)).
  unfold step_at. destruct (Z.ltb_spec (n mod Z.of_nat (length seq)) 0); [lia|].
  apply lookup_lt_is_Some_2. lia.
Qed.

Lemma current_pattern_replaced (channel : Channel) (old new : Pattern) :
  current_pattern channel = Some old ->
  current_pattern (with_current_pattern channel new) = Some new.
Proof.
  unfold current_pattern, with_current_pattern. cbn [patterns currentPatternIndex].
  intros H. apply list_lookup_insert_eq. eapply lookup_lt_Some, H.
Qed.

(** The length handler clamps: whatever integer is entered, the trunk's
    length ends up between [1] and [32], hence inside a buffer of [32] steps;
    a value in that range is taken as it is; the steps are not touched, and
    the tree and the cached sequence are rebuilt. *)
Theorem onLengthChange_clamps (channel : Channel) (pattern : Pattern)
    (len : Z) (kj k : nat) :
  current_pattern channel = Some pattern ->
  List.length (steps (trunk pattern)) = 32%nat ->
  exists channel' kj' k' pattern',
    onLengthChange jitter random channel len kj k = Some (channel', kj', k') /\
    current_pattern channel' = Some pattern' /\
    steps (trunk pattern') = steps (trunk pattern) /\
    (1 <= length (trunk pattern') <= List.length (steps (trunk pattern')))%nat /\
    (1 <= len <= 32 -> Z.of_nat (length (trunk pattern')) = len) /\
    (len < 1 -> length (trunk pattern') = 1%nat) /\
    (32 < len -> length (trunk pattern') = 32%nat) /\
    is_Some (generatedTree channel') /\ is_Some (activeSequence channel').
Proof.
  intros Hpat Hbuf. unfold onLengthChange. rewrite Hpat. cbn [mbind option_bind].
  set (pattern' := with_trunk pattern
                     (with_length (trunk pattern) (Z.to_nat (clamp_length len)))).
  pose proof (current_pattern_replaced channel pattern pattern' Hpat) as Hpat'.
  assert (Hwf : (1 <= length (trunk pattern')
                 <= List.length (steps (trunk pattern')))%nat).
  { unfold pattern'. cbn [trunk with_trunk length steps with_length].
    rewrite Hbuf. unfold clamp_length. lia. }
  destruct (regenerateTree_cached (with_current_pattern channel pattern') pattern'
              kj k Hpat' Hwf)
    as (channel' & kj' & k' & tree & seq & Hre & Hcur & Htree & Hact & _).
  exists channel', kj', k', pattern'. split; [exact Hre|].
  split; [exact Hcur|]. split; [reflexivity|]. split; [exact Hwf|].
  unfold pattern'. cbn [trunk with_trunk length with_length]. unfold clamp_length.
  repeat split; try lia; eauto.
Qed.

Lemma randomize_steps_spec (l : list Step) (n k : nat) :
  (forall j, (0 <= random j)%Q /\ (random j < 1)%Q) ->
  (n <= List.length l)%nat ->
  exists l',
    randomize_steps random l n k = Some (l', (k + 3 * n)%nat) /\
    List.length l' = List.length l /\
    skipn n l' = skipn n l /\
    Forall2 randomized (firstn n l) (firstn n l').
Proof.
  intros Hr. revert l k; induction n as [|n IH]; intros l k Hn.
  - exists l. rewrite Nat.add_0_r.
    split; [destruct l; reflexivity|]. repeat split. constructor.
  - destruct l as [|step rest]; [simpl in Hn; lia|].
    destruct (IH rest (k + 3)%nat ltac:(simpl in Hn; lia))
      as (rest' & Hrest & Hlen & Hskip & Hfirst).
    cbn [randomize_steps]. rewrite Hrest. cbn [mbind option_bind].
    eexists. split; [do 2 f_equal; lia|].
    split; [simpl; rewrite Hlen; reflexivity|].
    split; [exact Hskip|].
    cbn [firstn]. constructor; [|exact Hfirst].
    unfold randomized. cbn [pitch ratchets slew gateLength depth originalIndex].
    pose proof (floor_random_bounds random (k + 1) 25 (Hr _) ltac:(lia)).
    repeat split; try lia.
    destruct (Qgtb (random (k + 2)) (8 # 10)); auto.
Qed.

Lemma randomize_steps_throws (l : list Step) (n k : nat) :
  (List.length l < n)%nat -> randomize_steps random l n k = None.
Proof.
  revert l k; induction n as [|n IH]; intros l k Hn; [lia|].
  destruct l as [|step rest]; [reflexivity|].
  cbn [randomize_steps]. rewrite IH by (simpl in Hn; lia). reflexivity.
Qed.

(** [randomizeTrunk] redraws the active steps only: each gets a pitch in
    [[-12, 12]] and one or two ratchets and keeps its other fields but the
    gate; the steps beyond [length], the trunk's frame and the rest of the
    pattern stay; three draws are made per active step, and the tree and the
    cache are rebuilt.  With [length] beyond the buffer it throws. *)
Theorem randomizeTrunk_redraws (channel : Channel) (pattern : Pattern) (kj k : nat) :
  (forall j, (0 <= random j)%Q /\ (random j < 1)%Q) ->
  current_pattern channel = Some pattern ->
  ((length (trunk pattern) <= List.length (steps (trunk pattern)))%nat ->
   exists channel' kj' k' trunk',
     randomizeTrunk jitter random channel kj k = Some (channel', kj', k') /\
     current_pattern channel' = Some (with_trunk pattern trunk') /\
     same_frame (trunk pattern) trunk' /\
     skipn (length (trunk pattern)) (steps trunk')
     = skipn (length (trunk pattern)) (steps (trunk pattern)) /\
     Forall2 randomized (firstn (length (trunk pattern)) (steps (trunk pattern)))
                        (firstn (length (trunk pattern)) (steps trunk')) /\
     is_Some (generatedTree channel') /\ is_Some (activeSequence channel')) /\
  ((List.length (steps (trunk pattern)) < length (trunk pattern))%nat ->
   randomizeTrunk jitter random channel kj k = None).
Proof.
  intros Hr Hpat. unfold randomizeTrunk. rewrite Hpat. cbn [mbind option_bind].
  split.
  - intros Hwf.
    destruct (randomize_steps_spec (steps (trunk pattern)) (length (trunk pattern)) k
                Hr Hwf) as (steps' & Hrand & Hlen & Hskip & Hfirst).
    rewrite Hrand. cbn [mbind option_bind].
    set (trunk' := with_steps (trunk pattern) steps').
    pose proof (current_pattern_replaced channel pattern (with_trunk pattern trunk') Hpat)
      as Hpat'.
    destruct (regenerateTree_succeeds (with_current_pattern channel (with_trunk pattern trunk'))
                (with_trunk pattern trunk') kj (k + 3 * length (trunk pattern)) Hpat')
      as (channel' & kj' & k' & tree & seq & Hre & _ & _ & Hps & Hidx & Htree & Hact).
    exists channel', kj', k', trunk'. split; [exact Hre|].
    split; [unfold current_pattern in *; rewrite Hps, Hidx; exact Hpat'|].
    split; [unfold same_frame, trunk'; cbn [steps length scale playbackOrder with_steps];
            auto|].
    unfold trunk'. cbn [steps with_steps]. eauto 6.
  - intros Hover. rewrite randomize_steps_throws by exact Hover. reflexivity.
Qed.
End EditFacts.

(** ** The initial state *)

Lemma array_from_length (f : nat -> Step * nat) (n k : nat) :
  List.length (fst (array_from f n k)) = n.
Proof.
  revert k; induction n as [|n IH]; intros k; [reflexivity|].
  cbn [array_from fst List.length]. rewrite IH. reflexivity.
Qed.

Lemma array_from_Forall (P : Step -> Prop) (f : nat -> Step * nat) (n k : nat) :
  (forall j, P (fst (f j))) -> Forall P (fst (array_from f n k)).
Proof.
  intros H. revert k; induction n as [|n IH]; intros k; cbn [array_from fst].
  - constructor.
  - constructor; [apply H | apply IH].
Qed.

Lemma array_from_draws (f : nat -> Step * nat) (c n k : nat) :
  (forall j, snd (f j) = (j + c)%nat) ->
  snd (array_from f n k) = (k + c * n)%nat.
Proof.
  intros H. revert k; induction n as [|n IH]; intros k; cbn [array_from snd].
  - lia.
  - rewrite IH, H. lia.
Qed.

Lemma createRandomTrunk_drawn (random : nat -> Q) (k : nat) :
  createRandomTrunk random k
  = ({| steps := fst (array_from (random_trunk_step random) 32 k); length := 8;
        scale := minor; playbackOrder := PlaybackOrder.forward |},
     snd (array_from (random_trunk_step random) 32 k)).
Proof. reflexivity. Qed.

(** [createRandomTrunk] draws three numbers for each of its [32] steps and
    returns a forward minor trunk of length [8] whose pitches all lie in
    [[-12, 11]], with one ratchet, no slew and a gate length of [p50] or
    [p90] on every step. *)
Theorem createRandomTrunk_shape (random : nat -> Q) (k : nat) :
  (forall j, (0 <= random j)%Q /\ (random j < 1)%Q) ->
  let t := fst (createRandomTrunk random k) in
  List.length (steps t) = 32%nat /\ length t = 8%nat /\
  scale t = minor /\ playbackOrder t = PlaybackOrder.forward /\
  Forall (fun s => -12 <= pitch s <= 11 /\ ratchets s = 1 /\ slew s = 0%Q /\
                   (gateLength s = p50 \/ gateLength s = p90) /\
                   depth s = None /\ originalIndex s = None) (steps t) /\
  snd (createRandomTrunk random k) = (k + 96)%nat.
Proof.
  intros Hr. cbv zeta. rewrite createRandomTrunk_drawn.
  pose proof (array_from_length (random_trunk_step random) 32 k) as Hlen.
  pose proof (array_from_draws (random_trunk_step random) 3 32 k
                ltac:(reflexivity)) as Hdraws.
  assert (Hall : Forall (fun s => -12 <= pitch s <= 11 /\ ratchets s = 1 /\
                                  slew s = 0%Q /\
                                  (gateLength s = p50 \/ gateLength s = p90) /\
                                  depth s = None /\ originalIndex s = None)
                        (fst (array_from (random_trunk_step random) 32 k))).
  { apply array_from_Forall. intros j.
    unfold random_trunk_step.
    cbn [fst pitch ratchets slew gateLength depth originalIndex].
    pose proof (floor_random_bounds random (j + 1) 24 (Hr _) ltac:(lia)).
    split; [lia|]. do 2 (split; [reflexivity|]).
    split; [|split; reflexivity].
    destruct (Qgtb _ _); auto. }
  revert Hlen Hdraws Hall.
  generalize (array_from (random_trunk_step random) 32 k). intros drawn Hlen Hdraws Hall.
  cbn [fst snd steps length scale playbackOrder].
  repeat split; assumption.
Qed.

Lemma createChannel_current (random : nat -> Q) (randomizeFirst : bool) (k : nat) :
  exists pattern,
    current_pattern (fst (createChannel random randomizeFirst k)) = Some pattern /\
    branchesCount pattern = 0%nat /\
    branchPlaybackOrder pattern = BranchPlaybackOrder.forward /\
    playbackOrder (trunk pattern) = PlaybackOrder.forward /\
    length (trunk pattern) = 8%nat /\
    List.length (steps (trunk pattern)) = 32%nat.
Proof.
  unfold createChannel, current_pattern.
  cbn [fst patterns currentPatternIndex repeat].
  destruct randomizeFirst; cbn [fst lookup list_lookup insert list_insert].
  - exists (with_trunk createDefaultPattern (fst (createRandomTrunk random k))).
    split; [reflexivity|]. rewrite createRandomTrunk_drawn.
    pose proof (array_from_length (random_trunk_step random) 32 k) as Hlen.
    revert Hlen. generalize (array_from (random_trunk_step random) 32 k).
    intros drawn Hlen. repeat split. exact Hlen.
  - exists createDefaultPattern. split; [reflexivity|]. repeat split.
Qed.

(** A channel as [createChannel] makes it, with or without the random first
    trunk, has no tree and no cached sequence, and its first [regenerateTree]
    succeeds and caches a forward sequence of exactly [8] steps. *)
Theorem created_channel_plays_eight_steps (jitter : nat -> Z) (random : nat -> Q)
    (randomizeFirst : bool) (k0 kj k : nat) :
  let channel := fst (createChannel random randomizeFirst k0) in
  generatedTree channel = None /\ activeSequence channel = None /\
  exists channel' kj' k' seq,
    regenerateTree jitter random channel kj k = Some (channel', kj', k') /\
    activeSequence channel' = Some seq /\
    playbackOrder seq = PlaybackOrder.forward /\
    length seq = 8%nat /\ List.length (steps seq) = 8%nat.
Proof.
  cbv zeta. split; [reflexivity|]. split; [reflexivity|].
  destruct (createChannel_current random randomizeFirst k0)
    as (pattern & Hpat & Hb & Hbo & Hpo & Hlen & Hbuf).
  destruct (regenerateTree_cached jitter random _ pattern kj k Hpat ltac:(lia))
    as (channel' & kj' & k' & tree & seq & Hre & _ & _ & Hact & Hord & Hlength & _ & Hsize).
  rewrite Hb, Hbo, Hpo, Hlen in Hlength. change (length seq = 8%nat) in Hlength.
  exists channel', kj', k', seq. rewrite Hsize. auto.
Qed.

(** ** The theorems at concrete inputs *)

(** Scenarios of the specification.  Trunk-only playback: four steps, gates
    on-off-on-off, all tagged with depth [0] and their own index. *)
Example trunk_only_playback_scenario :
  (fun r => map (fun s => (gateOn s, depth s, originalIndex s)) (steps (fst r)))
    <$> buildPlaybackSequence (fun _ => 0%Q)
          (regenerated (fun _ => 0)
             (pattern_of scenario_trunk 0 BranchPlaybackOrder.forward []))
          0
  = Some [(true, Some 0%nat, Some 0%nat); (false, Some 0%nat, Some 1%nat);
          (true, Some 0%nat, Some 2%nat); (false, Some 0%nat, Some 3%nat)].
Proof. reflexivity. Qed.

(** A left branch that transposes by [7] sends pitch [0] to [7]. *)
Example transpose_branch_scenario :
  (fun r => (fun n => map pitch (steps (TreeNode.sequence n)))
              <$> TreeNode.left (root (fst r)))
    <$> generateTreeForChannel (fun _ => 0)
          (channel_of
             (pattern_of scenario_trunk 1 BranchPlaybackOrder.forward
                [{| BranchConfig.left := ModificationKind.transpose;
                    BranchConfig.right := ModificationKind.transpose;
                    BranchConfig.leftParam := 7;
                    BranchConfig.rightParam := -5 |}])
             None None)
          0
  = Some (Some [7; 7; 11; 7]).
Proof. reflexivity. Qed.

(** At 120 BPM a sixteenth lasts 0.125 s and a [p50] gate 0.0625 s. *)
Example scheduler_duration_scenario :
  match
    processChannel (fun _ => 0%Q)
      {| ratchetsEnabled := false; midiSelected := false;
         quarterTime := (1 # 2)%Q |}
      (channel_of (pattern_of scenario_trunk 0 BranchPlaybackOrder.forward [])
                  None None)
      0%Q stopped 0
  with
  | Some (after, [SynthNote midiPitch duration scheduleTime], _) =>
      midiPitch = 60 /\ (duration == 1 # 16)%Q /\ (scheduleTime == 0)%Q /\
      (nextNoteTime after == 1 # 8)%Q /\
      currentBaseStep after = 1 /\ lastTriggeredStepIndex after = 0
  | _ => False
  end.
Proof. vm_compute. repeat split; reflexivity. Qed.

Lemma modifications_keep_frame_and_fields_witness :
  (length (short_sequence 10) <= List.length (steps (short_sequence 10)))%nat /\
  same_frame (short_sequence 10) (reverseSequence (short_sequence 10)).
Proof.
  split; [simpl; lia|].
  apply (modifications_keep_frame_and_fields
           (fun _ => 1) (short_sequence 10) 5 2%Q 0).
  simpl; lia.
Defined.

Lemma modifications_beyond_length_witness :
  (length (short_sequence 10) <= List.length (steps (short_sequence 10)))%nat /\
  firstn (length (short_sequence 10)) (steps (reverseSequence (short_sequence 10)))
  = rev (firstn (length (short_sequence 10)) (steps (short_sequence 10))).
Proof.
  split; [simpl; lia|].
  apply (modifications_beyond_length (fun _ => 1) (short_sequence 10) 5 2%Q 0).
  simpl; lia.
Defined.

Lemma generated_tree_is_complete_witness :
  let pattern := example_pattern 2 BranchPlaybackOrder.forward PlaybackOrder.forward in
  let channel := channel_of pattern None None in
  current_pattern channel = Some pattern /\
  exists tree k',
    generateTreeForChannel (fun _ => 0) channel 0 = Some (tree, k') /\
    maxDepth tree = branchesCount pattern /\
    TreeNode.depth (root tree) = 0%nat /\
    List.length (TreeNode.nodes (root tree))
      = (2 ^ (branchesCount pattern + 1) - 1)%nat /\
    Forall (node_complete (branchesCount pattern)) (TreeNode.nodes (root tree)) /\
    (branchesCount pattern = 0%nat ->
     root tree = TreeNode.fresh (trunk pattern) 0 None).
Proof.
  intros pattern channel. split; [reflexivity|].
  apply (generated_tree_is_complete (fun _ => 0) channel pattern 0).
  reflexivity.
Defined.

Lemma playback_sequence_length_witness :
  let pattern := example_pattern 2 BranchPlaybackOrder.pendulum PlaybackOrder.forward in
  let channel := regenerated (fun _ => 0) pattern in
  current_pattern channel = Some pattern /\
  (length (trunk pattern) <= List.length (steps (trunk pattern)))%nat /\
  fst <$> generateTreeForChannel (fun _ => 0) channel 0 = generatedTree channel /\
  exists seq k',
    buildPlaybackSequence (fun _ => 0%Q) channel 0 = Some (seq, k') /\
    List.length (steps seq) = length seq /\
    length seq
    = (branch_visits (branchPlaybackOrder pattern) (branchesCount pattern + 1)
       * step_visits (playbackOrder (trunk pattern)) (length (trunk pattern)))%nat /\
    (branchPlaybackOrder pattern <> BranchPlaybackOrder.pendulum ->
     playbackOrder (trunk pattern) <> PlaybackOrder.pendulum ->
     length seq = ((branchesCount pattern + 1) * length (trunk pattern))%nat).
Proof.
  intros pattern channel.
  split; [reflexivity|]. split; [simpl; lia|]. split; [reflexivity|].
  eapply (playback_sequence_length (fun _ => 0%Q) (fun _ => 0) channel pattern
            _ 0 _ 0).
  - reflexivity.
  - simpl; lia.
  - reflexivity.
  - reflexivity.
Defined.

Lemma pendulum_index_resolution_witness :
  playbackOrder four_step_pendulum = PlaybackOrder.pendulum /\
  0 <= 5 /\
  map (fun c => fst (getStepIndexAtTick (fun _ => 0%Q) four_step_pendulum c 0))
      [0; 1; 2; 3; 4; 5; 6; 7]
  = [0; 1; 2; 3; 2; 1; 0; 1].
Proof.
  split; [reflexivity|]. split; [lia|].
  apply (pendulum_index_resolution (fun _ => 0%Q) four_step_pendulum 5 0);
    [reflexivity | lia | reflexivity].
Defined.

Lemma step_index_in_range_witness :
  (forall j : nat, (0 <= (1 # 2))%Q /\ ((1 # 2) < 1)%Q) /\
  0 <= 5 /\
  0 <= fst (getStepIndexAtTick (fun _ => (1 # 2)%Q) four_step_pendulum 5 0)
    < Z.of_nat (length four_step_pendulum).
Proof.
  assert (H : forall j : nat, (0 <= (1 # 2))%Q /\ ((1 # 2) < 1)%Q).
  { intros _. split; [discriminate | reflexivity]. }
  split; [exact H|]. split; [lia|].
  apply (step_index_in_range (fun _ => (1 # 2)%Q) four_step_pendulum 5 0 H);
    simpl; lia.
Defined.

Lemma zero_length_tick_is_silent_witness :
  let engine := {| ratchetsEnabled := false; midiSelected := false;
                   quarterTime := (1 # 2)%Q |} in
  let channel :=
    channel_of (example_pattern 0 BranchPlaybackOrder.forward PlaybackOrder.forward)
               None (Some empty_sequence) in
  playing_sequence (fun _ => 0%Q) channel 0 = Some (empty_sequence, 0%nat) /\
  length empty_sequence = 0%nat /\
  processChannel (fun _ => 0%Q) engine channel 0%Q stopped 0
  = Some (stopped, [], 0%nat).
Proof.
  intros engine channel. split; [reflexivity|]. split; [reflexivity|].
  apply (zero_length_tick_is_silent (fun _ => 0%Q) engine channel 0%Q stopped 0
           empty_sequence 0); reflexivity.
Defined.

Lemma even_draws_in_range : forall j, (0 <= even_draws j)%Q /\ (even_draws j < 1)%Q.
Proof. intros j. split; [discriminate | reflexivity]. Qed.

Lemma quantizePitch_nearest_witness :
  major <> unquantized /\
  In (quantizePitch 6 major mod 12) (SCALES major) /\
  Z.abs (quantizePitch 6 major - 6) <= 1 /\
  (In (7 mod 12) (SCALES major) ->
   Z.abs (quantizePitch 6 major - 6) <= Z.abs (7 - 6)).
Proof.
  split; [discriminate|].
  apply (quantizePitch_nearest 6 7 major). discriminate.
Defined.

Lemma quantizePitch_monotone_witness :
  3 <= 4 /\ quantizePitch 3 major <= quantizePitch 4 major.
Proof. split; [lia | apply (quantizePitch_monotone 3 4 major); lia]. Defined.

Lemma quantizePitch_ties_go_down_witness :
  In ((1 - 1) mod 12) (SCALES major) /\ ~ In (1 mod 12) (SCALES major) /\
  quantizePitch 1 major = 1 - 1.
Proof.
  assert (H1 : In ((1 - 1) mod 12) (SCALES major)) by (vm_compute; lia).
  assert (H2 : ~ In (1 mod 12) (SCALES major))
    by (vm_compute; intuition discriminate).
  split; [exact H1|]. split; [exact H2|].
  apply (quantizePitch_ties_go_down 1 major H1 H2).
Defined.

Lemma mutateSequence_bounded_witness :
  (forall j, (0 <= even_draws j)%Q /\ (even_draws j < 1)%Q) /\ 1 <= 2 /\
  let mutated :=
    mutateSequence (fun j => integer_jitter (even_draws j) 2) (short_sequence 10)
                   (inject_Z 2) 0 in
  Forall2 (fun a b => if gateOn a then Z.abs (pitch b - pitch a) <= 2 else b = a)
          (steps (short_sequence 10)) (steps (fst mutated)) /\
  snd mutated = (0 + gated_count (steps (short_sequence 10)))%nat.
Proof.
  split; [exact even_draws_in_range|]. split; [lia|].
  apply (mutateSequence_bounded even_draws (short_sequence 10) 2 0
           even_draws_in_range).
  lia.
Defined.

Lemma applyMutationToTrunk_frame_witness :
  let pattern := example_pattern 0 BranchPlaybackOrder.forward PlaybackOrder.forward in
  Qeq_bool (mutationAmount pattern) 0 = true /\
  applyMutationToTrunk (fun _ => 1) pattern 0 = (pattern, 0%nat).
Proof.
  intros pattern. split; [reflexivity|].
  destruct (applyMutationToTrunk_frame (fun _ => 1) pattern 0) as (_ & _ & _ & H).
  apply H. reflexivity.
Defined.

Lemma generated_tree_keeps_frame_witness :
  let pattern := example_pattern 2 BranchPlaybackOrder.forward PlaybackOrder.forward in
  let channel := channel_of pattern None None in
  current_pattern channel = Some pattern /\
  (length (trunk pattern) <= List.length (steps (trunk pattern)))%nat /\
  exists tree k',
    generateTreeForChannel (fun _ => 0) channel 0 = Some (tree, k') /\
    TreeNode.sequence (root tree) = trunk pattern /\
    Forall (fun n => same_frame (trunk pattern) (TreeNode.sequence n))
           (TreeNode.nodes (root tree)).
Proof.
  intros pattern channel. split; [reflexivity|]. split; [simpl; lia|].
  apply (generated_tree_keeps_frame (fun _ => 0) channel pattern 0);
    [reflexivity | simpl; lia].
Defined.

Lemma generated_tree_follows_recipes_witness :
  let pattern := path_pattern 1 in
  let channel := channel_of pattern None None in
  current_pattern channel = Some pattern /\
  exists tree k',
    generateTreeForChannel (fun _ => 0) channel 0 = Some (tree, k') /\
    TreeNode.modificationFromParent (root tree) = None /\
    Forall (follows_recipe (fun _ => 0) pattern) (TreeNode.nodes (root tree)) /\
    (forall d, branchConfig pattern !! d = None ->
               recipe_at pattern d
               = {| BranchConfig.left := ModificationKind.transpose;
                    BranchConfig.right := ModificationKind.transpose;
                    BranchConfig.leftParam := 7;
                    BranchConfig.rightParam := -5 |}).
Proof.
  intros pattern channel. split; [reflexivity|].
  apply (generated_tree_follows_recipes (fun _ => 0) channel pattern 0).
  reflexivity.
Defined.

Lemma path_index_in_range_witness :
  let pattern := path_pattern 1 in
  (0 <= pathValue pattern)%Q /\ (pathValue pattern <= 1)%Q /\
  0 <= path_index pattern <= 2 ^ Z.of_nat (branchesCount pattern) - 1 /\
  path_index (path_pattern (2 # 3)) = 2.
Proof.
  intros pattern.
  assert (H0 : (0 <= pathValue pattern)%Q) by discriminate.
  assert (H1 : (pathValue pattern <= 1)%Q) by discriminate.
  split; [exact H0|]. split; [exact H1|]. split.
  - destruct (path_index_in_range pattern) as [H _]. apply H; assumption.
  - destruct (path_index_in_range (path_pattern (2 # 3))) as [_ H].
    apply H; [simpl; lia | simpl; lia | reflexivity].
Defined.

Lemma path_bits_binary_witness :
  let pattern := path_pattern (2 # 3) in
  (0 <= pathValue pattern)%Q /\ (pathValue pattern <= 1)%Q /\
  (0 < branchesCount pattern)%nat /\
  path_bits pattern !! 0%nat
  = Some (bit_char (Z.testbit (path_index pattern)
                              (Z.of_nat (branchesCount pattern - 1 - 0)))).
Proof.
  intros pattern.
  assert (H0 : (0 <= pathValue pattern)%Q) by discriminate.
  assert (H1 : (pathValue pattern <= 1)%Q) by discriminate.
  split; [exact H0|]. split; [exact H1|]. split; [simpl; lia|].
  apply (path_bits_binary pattern 0 H0 H1). simpl; lia.
Defined.

Lemma path_follows_index_bits_witness :
  let pattern := path_pattern (2 # 3) in
  let channel := channel_of pattern None None in
  current_pattern channel = Some pattern /\
  (0 <= pathValue pattern)%Q /\ (pathValue pattern <= 1)%Q /\
  (1 < branchesCount pattern)%nat /\
  exists tree k',
    generateTreeForChannel (fun _ => 0) channel 0 = Some (tree, k') /\
    exists parent child,
      path_nodes tree pattern !! 1%nat = Some parent /\
      path_nodes tree pattern !! 2%nat = Some child /\
      TreeNode.depth parent = 1%nat /\
      (if Z.testbit (path_index pattern) (Z.of_nat (branchesCount pattern - 1 - 1))
       then TreeNode.right parent else TreeNode.left parent) = Some child.
Proof.
  intros pattern channel.
  assert (H0 : (0 <= pathValue pattern)%Q) by discriminate.
  assert (H1 : (pathValue pattern <= 1)%Q) by discriminate.
  split; [reflexivity|]. split; [exact H0|]. split; [exact H1|].
  split; [simpl; lia|].
  eexists _, _. split; [reflexivity|].
  apply (path_follows_index_bits (fun _ => 0) channel pattern _ 0 _ 1
           eq_refl eq_refl H0 H1).
  simpl; lia.
Defined.

Lemma playback_steps_origin_witness :
  let pattern := path_pattern (2 # 3) in
  let channel := regenerated (fun _ => 0) pattern in
  (forall j, (0 <= even_draws j)%Q /\ (even_draws j < 1)%Q) /\
  current_pattern channel = Some pattern /\
  exists tree,
    generatedTree channel = Some tree /\
    exists seq k',
      buildPlaybackSequence even_draws channel 0 = Some (seq, k') /\
      Forall (fun st => exists node, In node (path_nodes tree pattern) /\
                                     from_node node st)
             (steps seq).
Proof.
  intros pattern channel. split; [exact even_draws_in_range|].
  split; [reflexivity|].
  eexists. split; [reflexivity|].
  apply (playback_steps_origin even_draws channel pattern _ 0 even_draws_in_range);
    reflexivity.
Defined.

Lemma playback_steps_rearranged_witness :
  let pattern := path_pattern (2 # 3) in
  let channel := regenerated (fun _ => 0) pattern in
  (forall j, (0 <= even_draws j)%Q /\ (even_draws j < 1)%Q) /\
  current_pattern channel = Some pattern /\
  exists tree,
    generatedTree channel = Some tree /\
    exists seq k',
      buildPlaybackSequence even_draws channel 0 = Some (seq, k') /\
      (branchPlaybackOrder pattern <> BranchPlaybackOrder.pendulum ->
       playbackOrder (trunk pattern) <> PlaybackOrder.pendulum ->
       Permutation (steps seq) (flat_map node_block (path_nodes tree pattern))) /\
      (branchPlaybackOrder pattern = BranchPlaybackOrder.forward ->
       playbackOrder (trunk pattern) = PlaybackOrder.forward ->
       steps seq = flat_map node_block (path_nodes tree pattern) /\ k' = 0%nat).
Proof.
  intros pattern channel. split; [exact even_draws_in_range|].
  split; [reflexivity|].
  eexists. split; [reflexivity|].
  apply (playback_steps_rearranged even_draws channel pattern _ 0
           even_draws_in_range); reflexivity.
Defined.

Lemma shuffle_permutes_witness :
  (forall j, (0 <= even_draws j)%Q /\ (even_draws j < 1)%Q) /\
  (forall d i, 0 <= floor_random even_draws d (Z.of_nat (i + 1)) <= Z.of_nat i) /\
  Permutation (fst (shuffle even_draws [1; 2; 3; 4] 0)) [1; 2; 3; 4] /\
  snd (shuffle even_draws [1; 2; 3; 4] 0) = (0 + (List.length [1; 2; 3; 4] - 1))%nat.
Proof.
  split; [exact even_draws_in_range|].
  apply (shuffle_permutes even_draws [1; 2; 3; 4] 0 even_draws_in_range).
Defined.

Lemma baked_order_matches_index_resolution_witness :
  let node := TreeNode.fresh four_step_pendulum 0 None in
  PlaybackOrder.pendulum <> PlaybackOrder.random /\
  (length (TreeNode.sequence node)
   <= List.length (steps (TreeNode.sequence node)))%nat /\
  (4 < step_visits PlaybackOrder.pendulum (length (TreeNode.sequence node)))%nat /\
  exists st,
    fst (node_steps even_draws PlaybackOrder.pendulum node 0) !! 4%nat = Some st /\
    originalIndex st
    = Some (Z.to_nat (fst (getStepIndexAtTick even_draws
                             (with_playbackOrder (TreeNode.sequence node)
                                                 PlaybackOrder.pendulum)
                             (Z.of_nat 4) 0))) /\
    from_node node st.
Proof.
  intros node. split; [discriminate|]. split; [simpl; lia|].
  split; [vm_compute; lia|].
  apply (baked_order_matches_index_resolution even_draws PlaybackOrder.pendulum
           node 4 0 0);
    [discriminate | simpl; lia | vm_compute; lia].
Defined.

Lemma tick_trigger_witness :
  exists after triggers k',
    processChannel even_draws sample_engine playing_channel 0%Q stopped 0
    = Some (after, triggers, k') /\
    (List.length triggers <= 1)%nat /\
    Forall (fun t =>
              trigger_time t
              = (if Qeq_bool (nextNoteTime stopped) 0 then 0%Q
                 else nextNoteTime stopped) /\
              (trigger_time t <= 0 + (1 # 10))%Q /\
              exists sequence k1 pattern,
                playing_sequence even_draws playing_channel 0 = Some (sequence, k1) /\
                current_pattern playing_channel = Some pattern /\
                (scale sequence <> unquantized ->
                 In ((trigger_pitch t - rootOffsetSemitones pattern - 60) mod 12)
                    (SCALES (scale sequence))))
           triggers.
Proof.
  eexists _, _, _. split; [reflexivity|].
  eapply (tick_trigger even_draws sample_engine playing_channel 0%Q stopped _ 0).
  reflexivity.
Defined.

Lemma tick_counters_witness :
  0 <= currentBaseStep stopped /\ 0 <= currentRatchetCount stopped /\
  exists after triggers k',
    processChannel even_draws sample_engine playing_channel 0%Q stopped 0
    = Some (after, triggers, k') /\
    0 <= currentBaseStep after <= currentBaseStep stopped + 1 /\
    0 <= currentRatchetCount after <= currentRatchetCount stopped + 1 /\
    (currentBaseStep after = currentBaseStep stopped + 1 ->
     currentRatchetCount after = 0).
Proof.
  split; [simpl; lia|]. split; [simpl; lia|].
  eexists _, _, _. split; [reflexivity|].
  eapply (tick_counters even_draws sample_engine playing_channel 0%Q stopped _ 0);
    [reflexivity | simpl; lia | simpl; lia].
Defined.

Lemma tick_schedule_witness :
  let pattern := pattern_of scenario_trunk 0 BranchPlaybackOrder.forward [] in
  let step := plain_step 0 true in
  playing_sequence even_draws playing_channel 0 = Some (scenario_trunk, 0%nat) /\
  current_pattern playing_channel = Some pattern /\
  (0 < quarterTime sample_engine)%Q /\ (0 < divMult pattern)%Q /\
  Forall (fun s => 1 <= ratchets s) (steps scenario_trunk) /\
  (length scenario_trunk <> 0%nat /\ (nextNoteTime stopped <= 0 + (1 # 10))%Q) /\
  step_at scenario_trunk
    (fst (getStepIndexAtTick even_draws scenario_trunk (currentBaseStep stopped) 0))
  = Some step /\
  exists after triggers k',
    processChannel even_draws sample_engine playing_channel 0%Q stopped 0
    = Some (after, triggers, k') /\
    (0 < sub_step_duration sample_engine pattern step)%Q /\
    nextNoteTime after = (0 + sub_step_duration sample_engine pattern step)%Q /\
    (0 < nextNoteTime after)%Q /\
    (gateOn step = false -> triggers = []).
Proof.
  intros pattern step.
  assert (Hr : Forall (fun s => 1 <= ratchets s) (steps scenario_trunk))
    by (repeat constructor; simpl; lia).
  assert (Hdue : length scenario_trunk <> 0%nat /\
                 (nextNoteTime stopped <= 0 + (1 # 10))%Q)
    by (split; [simpl; lia | discriminate]).
  split; [reflexivity|]. split; [reflexivity|]. split; [reflexivity|].
  split; [reflexivity|]. split; [exact Hr|]. split; [exact Hdue|].
  split; [reflexivity|].
  eexists _, _, _. split; [reflexivity|].
  pose proof (tick_schedule even_draws sample_engine playing_channel 0%Q stopped
                _ 0 _ _ scenario_trunk 0 pattern eq_refl eq_refl eq_refl
                eq_refl eq_refl Hr) as H.
  cbv zeta in H. destruct H as [Hplay _].
  exact (Hplay step Hdue eq_refl).
Defined.

Lemma tick_after_stop_witness :
  let pattern := pattern_of scenario_trunk 0 BranchPlaybackOrder.forward [] in
  let step := plain_step 0 true in
  activeSequence playing_channel = Some scenario_trunk /\
  playbackOrder scenario_trunk = PlaybackOrder.forward /\
  (1 <= length scenario_trunk)%nat /\
  steps scenario_trunk !! 0%nat = Some step /\
  current_pattern playing_channel = Some pattern /\
  (0 <= 3)%Q /\
  exists after triggers,
    processChannel even_draws sample_engine playing_channel 3%Q (stop stopped) 0
    = Some (after, triggers, 0%nat) /\
    getCurrentStepIndex after = (if gateOn step then 0 else -1) /\
    (gateOn step = false -> triggers = []) /\
    (gateOn step = true ->
     exists t, triggers = [t] /\ trigger_time t = 3%Q /\
               trigger_pitch t
               = quantizePitch (pitch step) (scale scenario_trunk)
                 + rootOffsetSemitones pattern + 60).
Proof.
  intros pattern step.
  split; [reflexivity|]. split; [reflexivity|]. split; [simpl; lia|].
  split; [reflexivity|]. split; [reflexivity|]. split; [discriminate|].
  apply (tick_after_stop even_draws sample_engine playing_channel 3%Q stopped 0
           scenario_trunk step pattern);
    [reflexivity | reflexivity | simpl; lia | reflexivity | reflexivity | discriminate].
Defined.

Lemma setReverbDecay_clamped_witness :
  (0 <= 5 / 10)%Q /\ (5 / 10 <= 99 # 100)%Q /\
  (setReverbDecay 5 == 5 / 10)%Q.
Proof.
  split; [discriminate|]. split; [discriminate|].
  destruct (setReverbDecay_clamped 5) as (_ & _ & H).
  apply H; discriminate.
Defined.

Lemma regenerateTree_ready_witness :
  let pattern := path_pattern (2 # 3) in
  let channel := channel_of pattern None None in
  current_pattern channel = Some pattern /\
  (1 <= length (trunk pattern) <= List.length (steps (trunk pattern)))%nat /\
  exists channel' kj' k' tree seq,
    regenerateTree (fun _ => 0) even_draws channel 0 0 = Some (channel', kj', k') /\
    current_pattern channel' = Some pattern /\
    generatedTree channel' = Some tree /\
    activeSequence channel' = Some seq /\
    playbackOrder seq = PlaybackOrder.forward /\
    length seq
    = (branch_visits (branchPlaybackOrder pattern) (branchesCount pattern + 1)
       * step_visits (playbackOrder (trunk pattern)) (length (trunk pattern)))%nat /\
    (1 <= length seq)%nat /\ List.length (steps seq) = length seq /\
    forall n k2, 0 <= n ->
      playing_sequence even_draws channel' k2 = Some (seq, k2) /\
      snd (getStepIndexAtTick even_draws seq n k2) = k2 /\
      is_Some (step_at seq (fst (getStepIndexAtTick even_draws seq n k2))).
Proof.
  intros pattern channel. split; [reflexivity|]. split; [simpl; lia|].
  apply (regenerateTree_ready (fun _ => 0) even_draws channel pattern 0 0);
    [reflexivity | simpl; lia].
Defined.

Lemma onLengthChange_clamps_witness :
  let channel := fst (createChannel even_draws false 0) in
  current_pattern channel = Some createDefaultPattern /\
  List.length (steps (trunk createDefaultPattern)) = 32%nat /\
  exists channel' kj' k' pattern',
    onLengthChange (fun _ => 0) even_draws channel 40 0 0
    = Some (channel', kj', k') /\
    current_pattern channel' = Some pattern' /\
    steps (trunk pattern') = steps (trunk createDefaultPattern) /\
    (1 <= length (trunk pattern') <= List.length (steps (trunk pattern')))%nat /\
    (1 <= 40 <= 32 -> Z.of_nat (length (trunk pattern')) = 40) /\
    (40 < 1 -> length (trunk pattern') = 1%nat) /\
    (32 < 40 -> length (trunk pattern') = 32%nat) /\
    is_Some (generatedTree channel') /\ is_Some (activeSequence channel').
Proof.
  intros channel. split; [reflexivity|]. split; [reflexivity|].
  apply (onLengthChange_clamps (fun _ => 0) even_draws channel createDefaultPattern
           40 0 0); reflexivity.
Defined.

Lemma randomizeTrunk_redraws_witness :
  let pattern := path_pattern (2 # 3) in
  let channel := channel_of pattern None None in
  (forall j, (0 <= even_draws j)%Q /\ (even_draws j < 1)%Q) /\
  current_pattern channel = Some pattern /\
  (length (trunk pattern) <= List.length (steps (trunk pattern)))%nat /\
  exists channel' kj' k' trunk',
    randomizeTrunk (fun _ => 0) even_draws channel 0 0 = Some (channel', kj', k') /\
    current_pattern channel' = Some (with_trunk pattern trunk') /\
    same_frame (trunk pattern) trunk' /\
    skipn (length (trunk pattern)) (steps trunk')
    = skipn (length (trunk pattern)) (steps (trunk pattern)) /\
    Forall2 randomized (firstn (length (trunk pattern)) (steps (trunk pattern)))
                       (firstn (length (trunk pattern)) (steps trunk')) /\
    is_Some (generatedTree channel') /\ is_Some (activeSequence channel').
Proof.
  intros pattern channel.
  split; [exact even_draws_in_range|]. split; [reflexivity|]. split; [simpl; lia|].
  destruct (randomizeTrunk_redraws (fun _ => 0) even_draws channel pattern 0 0
              even_draws_in_range eq_refl) as [H _].
  apply H. simpl; lia.
Defined.

Lemma createRandomTrunk_shape_witness :
  (forall j, (0 <= even_draws j)%Q /\ (even_draws j < 1)%Q) /\
  let t := fst (createRandomTrunk even_draws 0) in
  List.length (steps t) = 32%nat /\ length t = 8%nat /\
  scale t = minor /\ playbackOrder t = PlaybackOrder.forward /\
  Forall (fun s => -12 <= pitch s <= 11 /\ ratchets s = 1 /\ slew s = 0%Q /\
                   (gateLength s = p50 \/ gateLength s = p90) /\
                   depth s = None /\ originalIndex s = None) (steps t) /\
  snd (createRandomTrunk even_draws 0) = (0 + 96)%nat.
Proof.
  split; [exact even_draws_in_range|].
  apply (createRandomTrunk_shape even_draws 0 even_draws_in_range).
Defined.

Lemma short_sequence_small (r : Z) :
  10 <= r -> pitches_within r (steps (short_sequence 10)).
Proof. intros Hr. repeat constructor; unfold within; simpl; lia. Qed.

Lemma invert_involution_integer_pitches_witness :
  let seq := double_sequence (short_sequence 10) in
  Forall (integer_pitch 127) (Binary64.steps seq) /\
  (1 <= Binary64.length seq)%nat /\ (1 < Binary64.length seq)%nat /\
  Binary64.invertSequence (Binary64.invertSequence seq) = seq /\
  Binary64.pitch
    <$> Binary64.steps (Binary64.invertSequence (Binary64.invertSequence seq))
        !! 1%nat
  = Binary64.pitch <$> Binary64.steps seq !! 1%nat.
Proof.
  intros seq.
  assert (H : Forall (integer_pitch 127) (Binary64.steps seq))
    by (apply double_sequence_integer, short_sequence_small; lia).
  split; [exact H|]. split; [simpl; lia|]. split; [simpl; lia|].
  apply (invert_involution_integer_pitches seq 1 H); simpl; lia.
Defined.

Lemma transpose_compose_binary64_witness :
  let seq := double_sequence (short_sequence 10) in
  Forall (integer_pitch 127) (Binary64.steps seq) /\
  within 127 7 /\ within 127 (-5) /\
  Binary64.transposeSequence (Binary64.transposeSequence seq (double 7)) (double (-5))
  = Binary64.transposeSequence seq (double (7 + -5)) /\
  Binary64.transposeSequence seq (double 0) = seq /\
  Binary64.transposeSequence (Binary64.transposeSequence seq (double 7))
                             (double (- 7))
  = seq.
Proof.
  intros seq.
  assert (H : Forall (integer_pitch 127) (Binary64.steps seq))
    by (apply double_sequence_integer, short_sequence_small; lia).
  assert (H7 : within 127 7) by (unfold within; lia).
  assert (H5 : within 127 (-5)) by (unfold within; lia).
  split; [exact H|]. split; [exact H7|]. split; [exact H5|].
  apply (transpose_compose_binary64 seq 7 (-5) H H7 H5).
Defined.

Lemma invert_transpose_commute_binary64_witness :
  let seq := double_sequence (short_sequence 10) in
  Forall (integer_pitch 63) (Binary64.steps seq) /\ within 64 7 /\
  Binary64.invertSequence (Binary64.transposeSequence seq (double 7))
  = Binary64.transposeSequence (Binary64.invertSequence seq) (double 7).
Proof.
  intros seq.
  assert (H : Forall (integer_pitch 63) (Binary64.steps seq))
    by (apply double_sequence_integer, short_sequence_small; lia).
  assert (H7 : within 64 7) by (unfold within; lia).
  split; [exact H|]. split; [exact H7|].
  apply (invert_transpose_commute_binary64 seq 7 H H7).
Defined.

Lemma invert_range_binary64_witness :
  let s := plain_step 0 true in
  let rest := [plain_step 4 true; plain_step 10 true] in
  let seq := double_sequence (short_sequence 10) in
  Binary64.steps seq = map double_step (s :: rest) /\
  pitches_within 127 (s :: rest) /\
  exists inverted,
    Binary64.steps (Binary64.invertSequence seq) = map double_step inverted /\
    Forall2 (fun a b => pitch a + pitch b = buffer_min s rest + buffer_max s rest /\
                        buffer_min s rest <= pitch b <= buffer_max s rest)
            (s :: rest) inverted /\
    exists s' rest', inverted = s' :: rest' /\
                     buffer_min s' rest' = buffer_min s rest /\
                     buffer_max s' rest' = buffer_max s rest.
Proof.
  intros s rest seq.
  assert (H : pitches_within 127 (s :: rest))
    by (apply (short_sequence_small 127); lia).
  split; [reflexivity|]. split; [exact H|].
  apply (invert_range_binary64 seq s rest eq_refl H).
Defined.
